(** * Keypoint operations of [object_detection/core/keypoint_ops.py]

    A shallow embedding of the keypoint transforms and of the assertion
    switch of [object_detection/utils/control_dependencies.py].

    Keypoints are tensors of shape [num_instances, num_keypoints, 2] whose
    last axis holds [y, x].  The element type of the tensors is kept
    abstract ([dtype]); two element types are provided:
    - [F32]: IEEE-754 binary32 with round-to-nearest-even, the [tf.float32]
      the source casts to, on top of the Standard Library's [SpecFloat],
      with subnormal numbers flushed to zero as the kernels of TensorFlow
      compute;
    - [Exact]: the same special values (NaN, infinities) around exact
      rational arithmetic, i.e. floats without rounding.
    Everything that does not depend on rounding is proved once, for every
    element type; what depends on it is proved without rounding on [Exact]
    and, where the rounding is followed, on [F32].

    The rank of a tensor is fixed by its type, so the rank assertions of
    the source ([assert_has_rank]) always pass here.  The name scopes of
    the source have no effect on the values and are left out. *)

From Stdlib Require Import String.
From Stdlib Require Import List Bool Arith ZArith QArith Qcanon Lia.
From Stdlib Require Import Floats.SpecFloat.
Import ListNotations.
Local Open Scope nat_scope.

Set Implicit Arguments.

(** ** Element types *)

(** The operations the source applies to tensor elements, with the facts
    about comparisons and NaN that hold in IEEE arithmetic whatever the
    precision.  [ltb] and [leb] are the ordered comparisons [<] and [<=]:
    they answer [false] as soon as one operand is NaN.  [flush] is how a
    kernel reads an operand: TensorFlow computes with subnormal numbers
    flushed to zero, so that for the comparisons an operand and its
    flushed value are the same; where there is no subnormal number
    [flush] changes nothing. *)
Structure dtype : Type := Dtype {
  T :> Type;
  add : T -> T -> T;
  sub : T -> T -> T;
  mul : T -> T -> T;
  div : T -> T -> T;
  ltb : T -> T -> bool;
  leb : T -> T -> bool;
  is_nan : T -> bool;
  flush : T -> T;
  nan : T;                      (* np.nan *)
  neg_inf : T;                  (* what tf.reduce_max answers on no element *)
  one : T;                      (* the literal 1.0 *)
  two : T;                      (* the literal 2.0 *)
  c1_01 : T;                    (* the literal 1.01 *)
  nan_is_nan : is_nan nan = true;
  mul_nan_l : forall a b, is_nan a = true -> is_nan (mul a b) = true;
  ltb_nan_l : forall a b, is_nan a = true -> ltb a b = false;
  ltb_nan_r : forall a b, is_nan b = true -> ltb a b = false;
  leb_nan_l : forall a b, is_nan a = true -> leb a b = false;
  leb_nan_r : forall a b, is_nan b = true -> leb a b = false;
  ltb_leb : forall a b, ltb a b = true -> leb a b = true;
  leb_refl : forall a, is_nan a = false -> leb a a = true;
  leb_not_ltb : forall a b, leb a b = true -> ltb b a = false;
  leb_total : forall a b,
    is_nan a = false -> is_nan b = false -> ltb a b = false -> leb b a = true;
  flush_is_nan : forall a, is_nan (flush a) = is_nan a;
  flush_nan : forall a, is_nan a = true -> flush a = a;
  flush_flush : forall a, flush (flush a) = flush a;
  ltb_flush_l : forall a b, ltb (flush a) b = ltb a b;
  ltb_flush_r : forall a b, ltb a (flush b) = ltb a b;
  leb_flush_l : forall a b, leb (flush a) b = leb a b;
  leb_flush_r : forall a b, leb a (flush b) = leb a b
}.

Arguments add {d}. Arguments sub {d}. Arguments mul {d}. Arguments div {d}.
Arguments ltb {d}. Arguments leb {d}. Arguments is_nan {d}.
Arguments flush {d}.
Arguments nan {d}. Arguments neg_inf {d}. Arguments one {d}.
Arguments two {d}. Arguments c1_01 {d}.

(** ** Tensors *)

(** A rank-3 tensor whose last axis has a fixed length is a shape
    [dim0, dim1] and [dim0] rows of [dim1] cells; a cell is a pair for the
    keypoints (last axis 2) and a single element for the halves [tf.split]
    produces (last axis 1) and for the rank-2 visibilities. *)
Record tensor (A : Type) : Type := Tensor {
  dim0 : nat;
  dim1 : nat;
  rows : list (list A)
}.

Definition shape {A} (t : tensor A) : nat * nat := (dim0 t, dim1 t).

(** The rows agree with the declared shape. *)
Definition wf {A} (t : tensor A) : Prop :=
  length (rows t) = dim0 t /\ Forall (fun r => length r = dim1 t) (rows t).

Definition wfb {A} (t : tensor A) : bool :=
  Nat.eqb (length (rows t)) (dim0 t)
  && forallb (fun r => Nat.eqb (length r) (dim1 t)) (rows t).

(** [t[i, k]] *)
Definition tget {A} (t : tensor A) (i k : nat) : option A :=
  match nth_error (rows t) i with
  | Some r => nth_error r k
  | None => None
  end.

(** An elementwise operation. *)
Definition tmap {A B} (f : A -> B) (t : tensor A) : tensor B :=
  {| dim0 := dim0 t; dim1 := dim1 t; rows := map (map f) (rows t) |}.

(** An elementwise operation on two tensors of one shape. *)
Definition tmap2 {A B C} (f : A -> B -> C) (ta : tensor A) (tb : tensor B)
  : tensor C :=
  {| dim0 := dim0 ta; dim1 := dim1 ta;
     rows := map (fun rr => map (fun ab => f (fst ab) (snd ab))
                              (combine (fst rr) (snd rr)))
                 (combine (rows ta) (rows tb)) |}.

(** [tf.split(value=t, num_or_size_splits=2, axis=2)] *)
Definition tf_split {A} (t : tensor (A * A)) : tensor A * tensor A :=
  (tmap fst t, tmap snd t).

(** [tf.concat([ty, tx], 2)] of two tensors whose last axis has length 1 *)
Definition tf_concat {A} (ty tx : tensor A) : tensor (A * A) :=
  tmap2 pair ty tx.

(** [tf.where(cond, a, b)] on three tensors of one shape *)
Definition tf_where {A} (cond : tensor bool) (a b : tensor A) : tensor A :=
  tmap2 (fun (c : bool) (ab : A * A) => if c then fst ab else snd ab)
        cond (tmap2 pair a b).

(** [tf.ones_like(t)] *)
Definition tf_ones_like {A B} (one_ : B) (t : tensor A) : tensor B :=
  tmap (fun _ => one_) t.

(** [tf.transpose(t, [1, 0, 2])]: row [k] of the result collects cell [k]
    of every row. *)
Definition column {A} (k : nat) (rs : list (list A)) : list A :=
  flat_map (fun r => match nth_error r k with
                     | Some a => [a]
                     | None => []
                     end) rs.

Definition tf_transpose {A} (t : tensor A) : tensor A :=
  {| dim0 := dim1 t; dim1 := dim0 t;
     rows := map (fun k => column k (rows t)) (seq 0 (dim1 t)) |}.

(** ** Window *)

(** [tf.unstack(window)] of a tensor of shape [4] *)
Record window (A : Type) : Type := Window {
  win_y_min : A;
  win_x_min : A;
  win_y_max : A;
  win_x_max : A
}.

(** ** Failures *)

(** What a failed [tf.Assert] prints: the elements of its [data] list, a
    string or the value of a tensor. *)
Inductive datum (A : Type) : Type :=
| Msg (s : string)
| Val (v : A).
Arguments Msg {A}.

(** The exceptions of the operations below.  A rank other than the one a
    function asserts cannot be written in this embedding: the type
    [tensor] fixes the rank. *)
Inductive error (A : Type) : Type :=
| InvalidArgumentError (data : list (datum A))   (* a failed tf.Assert *)
| IndexOutOfRange (index : nat)                  (* tf.gather *)
| ShapeMismatch (s1 s2 : nat * nat).             (* tf.where *)
Arguments IndexOutOfRange {A}.
Arguments ShapeMismatch {A}.

Inductive result (E A : Type) : Type :=
| Ok (a : A)
| Err (e : E).
Arguments Ok {E A}.
Arguments Err {E A}.

Definition bind {E A B} (r : result E A) (k : A -> result E B) : result E B :=
  match r with
  | Ok a => k a
  | Err e => Err e
  end.

Notation "x <- r ;; k" := (bind r (fun x => k))
  (at level 61, r at next level, right associativity).

Lemma bind_Ok {E A B} (a : A) (k : A -> result E B) :
  (x <- Ok a ;; k x) = k a.
Proof. reflexivity. Qed.

Fixpoint mapM {E A B} (f : A -> result E B) (l : list A) : result E (list B) :=
  match l with
  | [] => Ok []
  | a :: l' => b <- f a ;; bs <- mapM f l' ;; Ok (b :: bs)
  end.

(** ** The assertion switch ([control_dependencies.py]) *)

(** [ASSERT_ACTIVE = os.getenv('ASSERT_ACTIVE') == '1']; the argument is
    what [os.getenv] answers, [None] when the variable is not set. *)
Definition ASSERT_ACTIVE (getenv : option string) : bool :=
  match getenv with
  | Some v => String.eqb v "1"
  | None => false
  end.

(** [tf.Assert(condition, data)] builds an operation of the graph; running
    it fails with [data] when the condition is false.  As the docstring of
    [to_normalized_coordinates] says, the failure comes at graph execution
    time: the operation runs only if something that is evaluated depends
    on it. *)
Definition tf_Assert {A} (condition : bool) (data : list (datum A))
  : option (error A) :=
  if condition then None else Some (InvalidArgumentError data).

(** [assert_control_dependencies(conditions)]: the operations that the
    body of the [with] block will depend on, [tf.control_dependencies] when
    the switch is on and the empty [NoOpContext] otherwise. *)
Definition assert_control_dependencies {A} (getenv : option string)
  (conditions : list (option (error A))) : list (option (error A)) :=
  if ASSERT_ACTIVE getenv then conditions else [].

(** [tf.identity(v)] under control dependencies: the dependencies run
    first, the first failure is raised. *)
Fixpoint tf_identity {A B} (deps : list (option (error A))) (v : B)
  : result (error A) B :=
  match deps with
  | [] => Ok v
  | Some e :: _ => Err e
  | None :: deps' => tf_identity deps' v
  end.

(** ** Elementwise TensorFlow operations *)

Section Ops.
Variable D : dtype.

Definition keypoints : Type := tensor (D * D).

(** [tf.greater(a, b)] and [a >= b] *)
Definition greater (a b : D) : bool := ltb b a.
Definition greater_equal (a b : D) : bool := leb b a.

(** [tf.maximum] and [tf.minimum].  TensorFlow's kernels propagate NaN:
    they answer the first operand when it is NaN, else the second when it
    is NaN, and else [a < b ? b : a] for the maximum and [b < a ? b : a]
    for the minimum, the operand that is answered being read as the
    kernel reads it: a subnormal number comes out as a zero of its
    sign. *)
Definition tf_maximum (a b : D) : D :=
  if is_nan a then a
  else if is_nan b then b
  else if ltb a b then flush b else flush a.

Definition tf_minimum (a b : D) : D :=
  if is_nan a then a
  else if is_nan b then b
  else if ltb b a then flush b else flush a.

(** The elements of a keypoint tensor in row-major order. *)
Definition elements (K : keypoints) : list D :=
  flat_map (flat_map (fun p => [fst p; snd p])) (rows K).

(** [tf.reduce_max(keypoints)] over all axes: the reducer starts from
    [-inf] and takes in the elements one by one, each as the first
    operand of the maximum. *)
Definition tf_reduce_max (K : keypoints) : D :=
  fold_left (fun acc t => tf_maximum t acc) (elements K) neg_inf.

(** *** [scale] *)

(** [keypoints * [[[y_scale, x_scale]]]] *)
Definition scale (K : keypoints) (y_scale x_scale : D) : keypoints :=
  tmap (fun p => (mul (fst p) y_scale, mul (snd p) x_scale)) K.

(** *** [clip_to_window] *)

Definition clip_to_window (K : keypoints) (W : window D) : keypoints :=
  let '(y, x) := tf_split K in
  let y := tmap (fun v => tf_maximum (tf_minimum v (win_y_max W))
                                     (win_y_min W)) y in
  let x := tmap (fun v => tf_maximum (tf_minimum v (win_x_max W))
                                     (win_x_min W)) x in
  tf_concat y x.

(** *** [prune_outside_window] *)

Definition prune_outside_window (K : keypoints) (W : window D) : keypoints :=
  let '(y, x) := tf_split K in
  let valid_indices :=
    tmap2 andb
      (tmap2 andb (tmap (fun v => greater_equal v (win_y_min W)) y)
                  (tmap (fun v => leb v (win_y_max W)) y))
      (tmap2 andb (tmap (fun v => greater_equal v (win_x_min W)) x)
                  (tmap (fun v => leb v (win_x_max W)) x)) in
  let new_y :=
    tf_where valid_indices y (tmap (mul nan) (tf_ones_like (one : D) y)) in
  let new_x :=
    tf_where valid_indices x (tmap (mul nan) (tf_ones_like (one : D) x)) in
  tf_concat new_y new_x.

(** *** [change_coordinate_frame] *)

Definition change_coordinate_frame (K : keypoints) (W : window D)
  : keypoints :=
  let win_height := sub (win_y_max W) (win_y_min W) in
  let win_width := sub (win_x_max W) (win_x_min W) in
  scale (tmap (fun p => (sub (fst p) (win_y_min W),
                         sub (snd p) (win_x_min W))) K)
        (div one win_height) (div one win_width).

(** *** [to_normalized_coordinates] and [to_absolute_coordinates] *)

(** [height] and [width] are elements already: the casts to [tf.float32]
    of the source are the identity on them. *)
Definition to_normalized_coordinates (getenv : option string)
  (K : keypoints) (height width : D) (check_range : bool)
  : result (error D) keypoints :=
  width <- (if check_range then
              let max_val := tf_reduce_max K in
              let max_assert :=
                tf_Assert (greater max_val c1_01)
                          [Msg "max value is lower than 1.01: ";
                           Val max_val] in
              tf_identity (assert_control_dependencies getenv [max_assert])
                          width
            else Ok width) ;;
  Ok (scale K (div one height) (div one width)).

Definition to_absolute_coordinates (getenv : option string)
  (K : keypoints) (height width : D) (check_range : bool)
  : result (error D) keypoints :=
  width <- (if check_range then
              let max_val := tf_reduce_max K in
              let max_assert :=
                tf_Assert (greater_equal c1_01 max_val)
                          [Msg "maximum keypoint coordinate value is larger than 1.01: ";
                           Val max_val] in
              tf_identity (assert_control_dependencies getenv [max_assert])
                          width
            else Ok width) ;;
  Ok (scale K height width).

(** *** [flip_horizontal], [flip_vertical] and [rot90] *)

(** [tf.gather(t, indices)] along axis 0 *)
Definition tf_gather {A} (t : tensor A) (indices : list nat)
  : result (error D) (tensor A) :=
  rs <- mapM (fun i => match nth_error (rows t) i with
                       | Some r => Ok r
                       | None => Err (IndexOutOfRange i)
                       end) indices ;;
  Ok {| dim0 := length indices; dim1 := dim1 t; rows := rs |}.

(** [if permutation:] is false on [None] and on the empty list. *)
Definition permute {A} (t : tensor A) (permutation : option (list nat))
  : result (error D) (tensor A) :=
  match permutation with
  | None | Some [] => Ok t
  | Some p => tf_gather t p
  end.

Definition flip_horizontal (K : keypoints) (flip_point : D)
  (flip_permutation : option (list nat)) : result (error D) keypoints :=
  let K := tf_transpose K in
  K <- permute K flip_permutation ;;
  let '(v, u) := tf_split K in
  let u := tmap (fun e => sub (mul flip_point two) e) u in
  let new_keypoints := tf_concat v u in
  Ok (tf_transpose new_keypoints).

Definition flip_vertical (K : keypoints) (flip_point : D)
  (flip_permutation : option (list nat)) : result (error D) keypoints :=
  let K := tf_transpose K in
  K <- permute K flip_permutation ;;
  let '(v, u) := tf_split K in
  let v := tmap (fun e => sub (mul flip_point two) e) v in
  let new_keypoints := tf_concat v u in
  Ok (tf_transpose new_keypoints).

(** [keypoints[:, :, ::-1]] reverses the last axis. *)
Definition reverse_last {A} (t : tensor (A * A)) : tensor (A * A) :=
  tmap (fun p => (snd p, fst p)) t.

Definition rot90 (K : keypoints) (rotation_permutation : option (list nat))
  : result (error D) keypoints :=
  let K := tf_transpose K in
  K <- permute K rotation_permutation ;;
  let '(v, u) := tf_split (reverse_last K) in
  let v := tmap (fun e => sub one e) v in
  let new_keypoints := tf_concat v u in
  Ok (tf_transpose new_keypoints).

(** *** [set_keypoint_visibilities] *)

(** [tf.where] refuses operands of different shapes. *)
Definition tf_where_checked {A} (cond : tensor bool) (a b : tensor A)
  : result (error D) (tensor A) :=
  if (Nat.eqb (dim0 cond) (dim0 b) && Nat.eqb (dim1 cond) (dim1 b))%bool
  then Ok (tf_where cond a b)
  else Err (ShapeMismatch (shape cond) (shape b)).

Definition set_keypoint_visibilities (K : keypoints)
  (initial_keypoint_visibilities : option (tensor bool))
  : result (error D) (tensor bool) :=
  let keypoint_visibilities :=
    match initial_keypoint_visibilities with
    | Some v => v                                   (* tf.cast(_, tf.bool) *)
    | None => tf_ones_like true (tmap fst K)        (* keypoints[:, :, 0] *)
    end in
  let keypoints_with_nan :=
    tmap (fun p => is_nan (fst p) || is_nan (snd p))%bool K in
  tf_where_checked keypoints_with_nan
                   (tmap (fun _ => false) keypoint_visibilities)
                   keypoint_visibilities.

End Ops.

Arguments greater {D}. Arguments greater_equal {D}.
Arguments tf_maximum {D}. Arguments tf_minimum {D}.

(** ** The element type [tf.float32] *)

Module F32.

(** IEEE-754 binary32: 24 bits of precision, infinities at exponent 128. *)
Definition prec : Z := 24.
Definition emax : Z := 128.

Definition f32 : Type := spec_float.

Definition f32_is_nan (x : f32) : bool :=
  match x with
  | S754_nan => true
  | _ => false
  end.

(** The float nearest to the integer [z] ... *)
Definition of_Z (z : Z) : f32 := binary_normalize prec emax z 0 false.

(** ... and to [m * 2^e]. *)
Definition of_bits (m e : Z) : f32 := binary_normalize prec emax m e false.

(** The literal [1.01]: no float is 101/100, the division rounds to the
    nearest one, 8472494 * 2^-23. *)
Definition f32_1_01 : f32 := SFdiv prec emax (of_Z 101) (of_Z 100).

(** *** Subnormal numbers

    TensorFlow runs its kernels with the two modes of the processor that
    do away with subnormal numbers: a subnormal operand is read as a zero
    of its sign (denormals-are-zero), and a result that is below the
    normal range is replaced by a zero of its sign (flush-to-zero).  Only
    kernels that compute or compare are concerned; those that move
    elements ([tf.where], [tf.gather], [tf.transpose], [tf.concat]) hand
    on a subnormal number as it is. *)

(** A number other than zero below the normal range: [|x| < 2^-126]. *)
Definition tiny (x : f32) : bool :=
  match x with
  | S754_finite _ m e => (Z.pos (digits2_pos m) + e <=? -126)%Z
  | _ => false
  end.

Definition sign_of (x : f32) : bool :=
  match x with
  | S754_zero s | S754_infinity s | S754_finite s _ _ => s
  | S754_nan => false
  end.

Definition f32_flush (x : f32) : f32 :=
  if tiny x then S754_zero (sign_of x) else x.

(** The comparisons read both operands flushed. *)
Definition f32_ltb (a b : f32) : bool := SFltb (f32_flush a) (f32_flush b).
Definition f32_leb (a b : f32) : bool := SFleb (f32_flush a) (f32_flush b).

(** A sum or a difference of floats that is below the normal range is a
    multiple of [2^-149] and needs no rounding: flushing the result of
    [SpecFloat] is what the processor does. *)
Definition f32_add (a b : f32) : f32 :=
  f32_flush (SFadd prec emax (f32_flush a) (f32_flush b)).

Definition f32_sub (a b : f32) : f32 :=
  f32_flush (SFsub prec emax (f32_flush a) (f32_flush b)).

(** A product or a quotient is flushed when, rounded to 24 bits as if the
    exponent had no lower bound, it is below the normal range; the range
    of exponents up to [wide_emax] is wide enough for every product and
    quotient of floats to be rounded that way. *)
Definition wide_emax : Z := 1024.

Definition flushed (op : Z -> Z -> f32 -> f32 -> f32) (a b : f32) : f32 :=
  let unbounded := op prec wide_emax a b in
  if tiny unbounded then S754_zero (sign_of unbounded) else op prec emax a b.

Definition f32_mul (a b : f32) : f32 :=
  flushed SFmul (f32_flush a) (f32_flush b).

Definition f32_div (a b : f32) : f32 :=
  flushed SFdiv (f32_flush a) (f32_flush b).

Lemma f32_nan_is_nan : f32_is_nan S754_nan = true.
Proof. reflexivity. Qed.

Lemma f32_flush_not_tiny (a : f32) : tiny a = false -> f32_flush a = a.
Proof. unfold f32_flush. now intros ->. Qed.

Lemma f32_flush_is_nan (a : f32) : f32_is_nan (f32_flush a) = f32_is_nan a.
Proof.
  unfold f32_flush. destruct a as [s | s | | s m e]; try reflexivity.
  now destruct (tiny _).
Qed.

Lemma f32_flush_nan (a : f32) : f32_is_nan a = true -> f32_flush a = a.
Proof. destruct a; try discriminate. reflexivity. Qed.

Lemma tiny_f32_flush (a : f32) : tiny (f32_flush a) = false.
Proof.
  unfold f32_flush. destruct (tiny a) eqn:E; [reflexivity | exact E].
Qed.

Lemma f32_flush_flush (a : f32) : f32_flush (f32_flush a) = f32_flush a.
Proof. apply f32_flush_not_tiny, tiny_f32_flush. Qed.

Lemma f32_mul_nan_l (a b : f32) :
  f32_is_nan a = true -> f32_is_nan (f32_mul a b) = true.
Proof.
  destruct a; try discriminate. intros _.
  unfold f32_mul, flushed. now destruct (f32_flush b).
Qed.

Lemma compare_nan_l (a b : f32) : f32_is_nan a = true -> SFcompare a b = None.
Proof. destruct a; try discriminate. reflexivity. Qed.

Lemma compare_nan_r (a b : f32) : f32_is_nan b = true -> SFcompare a b = None.
Proof. destruct b; try discriminate. destruct a; reflexivity. Qed.

Lemma compare_refl (a : f32) :
  f32_is_nan a = false -> SFcompare a a = Some Eq.
Proof.
  destruct a as [s | s | | s m e]; simpl; try discriminate; intros _.
  - reflexivity.
  - destruct s; reflexivity.
  - rewrite Z.compare_refl, Pos.compare_cont_refl. destruct s; reflexivity.
Qed.

(** Swapping the operands of a comparison reverses its answer. *)
Lemma compare_antisym (a b : f32) :
  SFcompare b a = option_map CompOpp (SFcompare a b).
Proof.
  destruct a as [sa | sa | | sa ma ea], b as [sb | sb | | sb mb eb]; simpl;
    try reflexivity;
    try (destruct sa; reflexivity); try (destruct sb; reflexivity);
    try (destruct sa, sb; reflexivity).
  rewrite (Z.compare_antisym ea eb).
  assert (Hm : Pos.compare_cont Eq mb ma = CompOpp (Pos.compare_cont Eq ma mb))
    by (symmetry; apply (Pos.compare_cont_antisym ma mb Eq)).
  rewrite Hm.
  destruct sa, sb, (ea ?= eb)%Z; simpl; reflexivity.
Qed.

(** The comparisons of [SpecFloat], on the numbers as they are ... *)
Lemma SFltb_nan_l a b : f32_is_nan a = true -> SFltb a b = false.
Proof. intros H. unfold SFltb. now rewrite compare_nan_l. Qed.

Lemma SFltb_nan_r a b : f32_is_nan b = true -> SFltb a b = false.
Proof. intros H. unfold SFltb. now rewrite compare_nan_r. Qed.

Lemma SFleb_nan_l a b : f32_is_nan a = true -> SFleb a b = false.
Proof. intros H. unfold SFleb. now rewrite compare_nan_l. Qed.

Lemma SFleb_nan_r a b : f32_is_nan b = true -> SFleb a b = false.
Proof. intros H. unfold SFleb. now rewrite compare_nan_r. Qed.

Lemma SFltb_leb a b : SFltb a b = true -> SFleb a b = true.
Proof. unfold SFltb, SFleb. now destruct (SFcompare a b) as [[]|]. Qed.

Lemma SFleb_refl a : f32_is_nan a = false -> SFleb a a = true.
Proof. intros H. unfold SFleb. now rewrite compare_refl. Qed.

Lemma SFleb_not_ltb a b : SFleb a b = true -> SFltb b a = false.
Proof.
  unfold SFltb, SFleb. rewrite (compare_antisym a b).
  now destruct (SFcompare a b) as [[]|].
Qed.

Lemma SFleb_total a b :
  f32_is_nan a = false -> f32_is_nan b = false ->
  SFltb a b = false -> SFleb b a = true.
Proof.
  unfold SFltb, SFleb. rewrite (compare_antisym a b).
  destruct a as [sa | sa | | sa ma ea], b as [sb | sb | | sb mb eb];
    try discriminate; intros _ _;
    match goal with |- context [SFcompare ?x ?y] =>
      destruct (SFcompare x y) as [[]|] eqn:E end;
    try discriminate; try reflexivity; simpl in E;
    try (destruct sa; discriminate); try (destruct sb; discriminate).
Qed.

(** ... and those of the kernels, on the numbers flushed. *)
Lemma f32_ltb_nan_l a b : f32_is_nan a = true -> f32_ltb a b = false.
Proof. intros H. apply SFltb_nan_l. now rewrite f32_flush_is_nan. Qed.

Lemma f32_ltb_nan_r a b : f32_is_nan b = true -> f32_ltb a b = false.
Proof. intros H. apply SFltb_nan_r. now rewrite f32_flush_is_nan. Qed.

Lemma f32_leb_nan_l a b : f32_is_nan a = true -> f32_leb a b = false.
Proof. intros H. apply SFleb_nan_l. now rewrite f32_flush_is_nan. Qed.

Lemma f32_leb_nan_r a b : f32_is_nan b = true -> f32_leb a b = false.
Proof. intros H. apply SFleb_nan_r. now rewrite f32_flush_is_nan. Qed.

Lemma f32_ltb_leb a b : f32_ltb a b = true -> f32_leb a b = true.
Proof. apply SFltb_leb. Qed.

Lemma f32_leb_refl a : f32_is_nan a = false -> f32_leb a a = true.
Proof. intros H. apply SFleb_refl. now rewrite f32_flush_is_nan. Qed.

Lemma f32_leb_not_ltb a b : f32_leb a b = true -> f32_ltb b a = false.
Proof. apply SFleb_not_ltb. Qed.

Lemma f32_leb_total a b :
  f32_is_nan a = false -> f32_is_nan b = false ->
  f32_ltb a b = false -> f32_leb b a = true.
Proof.
  intros Ha Hb. apply SFleb_total; now rewrite f32_flush_is_nan.
Qed.

Lemma f32_ltb_flush_l a b : f32_ltb (f32_flush a) b = f32_ltb a b.
Proof. unfold f32_ltb. now rewrite f32_flush_flush. Qed.

Lemma f32_ltb_flush_r a b : f32_ltb a (f32_flush b) = f32_ltb a b.
Proof. unfold f32_ltb. now rewrite f32_flush_flush. Qed.

Lemma f32_leb_flush_l a b : f32_leb (f32_flush a) b = f32_leb a b.
Proof. unfold f32_leb. now rewrite f32_flush_flush. Qed.

Lemma f32_leb_flush_r a b : f32_leb a (f32_flush b) = f32_leb a b.
Proof. unfold f32_leb. now rewrite f32_flush_flush. Qed.

Definition dt : dtype :=
  {| T := f32;
     add := f32_add;
     sub := f32_sub;
     mul := f32_mul;
     div := f32_div;
     ltb := f32_ltb;
     leb := f32_leb;
     is_nan := f32_is_nan;
     flush := f32_flush;
     nan := S754_nan;
     neg_inf := S754_infinity true;
     one := of_Z 1;
     two := of_Z 2;
     c1_01 := f32_1_01;
     nan_is_nan := f32_nan_is_nan;
     mul_nan_l := f32_mul_nan_l;
     ltb_nan_l := f32_ltb_nan_l;
     ltb_nan_r := f32_ltb_nan_r;
     leb_nan_l := f32_leb_nan_l;
     leb_nan_r := f32_leb_nan_r;
     ltb_leb := f32_ltb_leb;
     leb_refl := f32_leb_refl;
     leb_not_ltb := f32_leb_not_ltb;
     leb_total := f32_leb_total;
     flush_is_nan := f32_flush_is_nan;
     flush_nan := f32_flush_nan;
     flush_flush := f32_flush_flush;
     ltb_flush_l := f32_ltb_flush_l;
     ltb_flush_r := f32_ltb_flush_r;
     leb_flush_l := f32_leb_flush_l;
     leb_flush_r := f32_leb_flush_r |}.

End F32.

(** ** Exact arithmetic *)

Module Exact.

(** Floats without rounding: rationals with the special values of IEEE
    arithmetic (one zero, no overflow, no subnormal number: nothing is
    flushed). *)
Inductive xreal : Type :=
| XNaN
| XInf (neg : bool)
| XFin (q : Qc).

Definition x_is_nan (x : xreal) : bool :=
  match x with
  | XNaN => true
  | _ => false
  end.

Definition negative (q : Qc) : bool :=
  match (q ?= 0)%Qc with
  | Lt => true
  | _ => false
  end.

Definition is_zero (q : Qc) : bool :=
  match (q ?= 0)%Qc with
  | Eq => true
  | _ => false
  end.

Definition x_opp (x : xreal) : xreal :=
  match x with
  | XNaN => XNaN
  | XInf s => XInf (negb s)
  | XFin q => XFin (- q)%Qc
  end.

Definition x_add (x y : xreal) : xreal :=
  match x, y with
  | XNaN, _ | _, XNaN => XNaN
  | XInf s, XInf s' => if Bool.eqb s s' then XInf s else XNaN
  | XInf s, XFin _ => XInf s
  | XFin _, XInf s => XInf s
  | XFin p, XFin q => XFin (p + q)%Qc
  end.

Definition x_sub (x y : xreal) : xreal := x_add x (x_opp y).

Definition x_mul (x y : xreal) : xreal :=
  match x, y with
  | XNaN, _ | _, XNaN => XNaN
  | XInf s, XInf s' => XInf (xorb s s')
  | XInf s, XFin q | XFin q, XInf s =>
      if is_zero q then XNaN else XInf (xorb s (negative q))
  | XFin p, XFin q => XFin (p * q)%Qc
  end.

Definition x_div (x y : xreal) : xreal :=
  match x, y with
  | XNaN, _ | _, XNaN => XNaN
  | XInf _, XInf _ => XNaN
  | XInf s, XFin q => XInf (xorb s (negative q))
  | XFin _, XInf _ => XFin 0%Qc
  | XFin p, XFin q =>
      if is_zero q then (if is_zero p then XNaN else XInf (negative p))
      else XFin (p / q)%Qc
  end.

Definition x_compare (x y : xreal) : option comparison :=
  match x, y with
  | XNaN, _ | _, XNaN => None
  | XInf s, XInf s' =>
      Some match s, s' with
           | true, true | false, false => Eq
           | true, false => Lt
           | false, true => Gt
           end
  | XInf s, XFin _ => Some (if s then Lt else Gt)
  | XFin _, XInf s => Some (if s then Gt else Lt)
  | XFin p, XFin q => Some (p ?= q)%Qc
  end.

Definition x_ltb (x y : xreal) : bool :=
  match x_compare x y with
  | Some Lt => true
  | _ => false
  end.

Definition x_leb (x y : xreal) : bool :=
  match x_compare x y with
  | Some (Lt | Eq) => true
  | _ => false
  end.

Definition x_flush (x : xreal) : xreal := x.

Definition of_Q (q : Q) : xreal := XFin (Q2Qc q).

Lemma x_nan_is_nan : x_is_nan XNaN = true.
Proof. reflexivity. Qed.

Lemma x_mul_nan_l (a b : xreal) :
  x_is_nan a = true -> x_is_nan (x_mul a b) = true.
Proof. destruct a; try discriminate. reflexivity. Qed.

Lemma x_compare_nan_l (a b : xreal) :
  x_is_nan a = true -> x_compare a b = None.
Proof. destruct a; try discriminate. reflexivity. Qed.

Lemma x_compare_nan_r (a b : xreal) :
  x_is_nan b = true -> x_compare a b = None.
Proof. destruct b; try discriminate. destruct a; reflexivity. Qed.

Lemma x_compare_refl (a : xreal) :
  x_is_nan a = false -> x_compare a a = Some Eq.
Proof.
  destruct a as [| s | q]; simpl; try discriminate; intros _.
  - destruct s; reflexivity.
  - f_equal. now apply Qceq_alt.
Qed.

Lemma x_compare_antisym (a b : xreal) :
  x_compare b a = option_map CompOpp (x_compare a b).
Proof.
  destruct a as [| sa | p], b as [| sb | q]; simpl; try reflexivity;
    try (destruct sa; reflexivity); try (destruct sb; reflexivity);
    try (destruct sa, sb; reflexivity).
  f_equal. unfold Qccompare. symmetry. apply Qcompare_antisym.
Qed.

Lemma x_ltb_nan_l a b : x_is_nan a = true -> x_ltb a b = false.
Proof. intros H. unfold x_ltb. now rewrite x_compare_nan_l. Qed.

Lemma x_ltb_nan_r a b : x_is_nan b = true -> x_ltb a b = false.
Proof. intros H. unfold x_ltb. now rewrite x_compare_nan_r. Qed.

Lemma x_leb_nan_l a b : x_is_nan a = true -> x_leb a b = false.
Proof. intros H. unfold x_leb. now rewrite x_compare_nan_l. Qed.

Lemma x_leb_nan_r a b : x_is_nan b = true -> x_leb a b = false.
Proof. intros H. unfold x_leb. now rewrite x_compare_nan_r. Qed.

Lemma x_ltb_leb a b : x_ltb a b = true -> x_leb a b = true.
Proof. unfold x_ltb, x_leb. now destruct (x_compare a b) as [[]|]. Qed.

Lemma x_leb_refl a : x_is_nan a = false -> x_leb a a = true.
Proof. intros H. unfold x_leb. now rewrite x_compare_refl. Qed.

Lemma x_leb_not_ltb a b : x_leb a b = true -> x_ltb b a = false.
Proof.
  unfold x_ltb, x_leb. rewrite (x_compare_antisym a b).
  now destruct (x_compare a b) as [[]|].
Qed.

Lemma x_leb_total a b :
  x_is_nan a = false -> x_is_nan b = false ->
  x_ltb a b = false -> x_leb b a = true.
Proof.
  unfold x_ltb, x_leb. rewrite (x_compare_antisym a b).
  destruct a as [| sa | p], b as [| sb | q]; try discriminate; intros _ _;
    match goal with |- context [x_compare ?x ?y] =>
      destruct (x_compare x y) as [[]|] eqn:E end;
    try discriminate; try reflexivity; simpl in E;
    try (destruct sa; discriminate); try (destruct sb; discriminate).
Qed.

Definition dt : dtype :=
  {| T := xreal;
     add := x_add;
     sub := x_sub;
     mul := x_mul;
     div := x_div;
     ltb := x_ltb;
     leb := x_leb;
     is_nan := x_is_nan;
     flush := x_flush;
     nan := XNaN;
     neg_inf := XInf true;
     one := of_Q 1;
     two := of_Q 2;
     c1_01 := of_Q (101 # 100);
     nan_is_nan := x_nan_is_nan;
     mul_nan_l := x_mul_nan_l;
     ltb_nan_l := x_ltb_nan_l;
     ltb_nan_r := x_ltb_nan_r;
     leb_nan_l := x_leb_nan_l;
     leb_nan_r := x_leb_nan_r;
     ltb_leb := x_ltb_leb;
     leb_refl := x_leb_refl;
     leb_not_ltb := x_leb_not_ltb;
     leb_total := x_leb_total;
     flush_is_nan := fun a => eq_refl;
     flush_nan := fun a _ => eq_refl;
     flush_flush := fun a => eq_refl;
     ltb_flush_l := fun a b => eq_refl;
     ltb_flush_r := fun a b => eq_refl;
     leb_flush_l := fun a b => eq_refl;
     leb_flush_r := fun a b => eq_refl |}.

End Exact.

(** The element type is found from the type of the elements. *)
Canonical Structure F32.dt.
Canonical Structure Exact.dt.

(** ** Facts about tensors *)

Section TensorFacts.
Context {A B C : Type}.

Lemma shape_tmap (f : A -> B) (t : tensor A) : shape (tmap f t) = shape t.
Proof. reflexivity. Qed.

Lemma tget_tmap (f : A -> B) (t : tensor A) (i k : nat) :
  tget (tmap f t) i k = option_map f (tget t i k).
Proof.
  unfold tget, tmap; simpl. rewrite nth_error_map.
  destruct (nth_error (rows t) i) as [r |]; simpl; [| reflexivity].
  apply nth_error_map.
Qed.

Lemma tmap_ext (f g : A -> B) (t : tensor A) :
  (forall a, f a = g a) -> tmap f t = tmap g t.
Proof.
  intros H. unfold tmap. f_equal.
  apply map_ext. intros r. now apply map_ext.
Qed.

Lemma wf_tmap (f : A -> B) (t : tensor A) : wf t -> wf (tmap f t).
Proof.
  intros [H0 H1]. split; simpl.
  - now rewrite length_map.
  - apply Forall_map. eapply Forall_impl; [| exact H1].
    simpl. intros r Hr. now rewrite length_map.
Qed.

Lemma column_map (f : A -> B) (k : nat) (rs : list (list A)) :
  column k (map (map f) rs) = map f (column k rs).
Proof.
  unfold column. induction rs as [| r rs IH]; simpl; [reflexivity |].
  rewrite map_app, IH, nth_error_map.
  now destruct (nth_error r k).
Qed.

Lemma tf_transpose_tmap (f : A -> B) (t : tensor A) :
  tf_transpose (tmap f t) = tmap f (tf_transpose t).
Proof.
  unfold tf_transpose, tmap; simpl. f_equal.
  rewrite map_map. apply map_ext. intros k. apply column_map.
Qed.

End TensorFacts.

Section TensorFacts1.
Context {A : Type}.

Lemma tmap_tmap {B C} (f : A -> B) (g : B -> C) (t : tensor A) :
  tmap g (tmap f t) = tmap (fun a => g (f a)) t.
Proof.
  unfold tmap; simpl. f_equal. rewrite map_map.
  apply map_ext. intros r. apply map_map.
Qed.

Lemma map_combine_map {B C E} (f : B -> C -> E) (g : A -> B) (h : A -> C)
  (l : list A) :
  map (fun bc => f (fst bc) (snd bc)) (combine (map g l) (map h l))
  = map (fun a => f (g a) (h a)) l.
Proof.
  induction l as [| a l IH]; simpl; [reflexivity | now rewrite IH].
Qed.

Lemma tmap2_tmap {B C E} (f : B -> C -> E) (g : A -> B) (h : A -> C)
  (t : tensor A) :
  tmap2 f (tmap g t) (tmap h t) = tmap (fun a => f (g a) (h a)) t.
Proof.
  unfold tmap2, tmap; simpl. f_equal.
  induction (rows t) as [| r rs IH]; simpl; [reflexivity |].
  now rewrite IH, map_combine_map.
Qed.

Lemma tmap_id (f : A -> A) (t : tensor A) :
  (forall a, f a = a) -> tmap f t = t.
Proof.
  intros H. destruct t as [n k rs]. unfold tmap; simpl. f_equal.
  induction rs as [| r rs IH]; simpl; [reflexivity |].
  rewrite IH. f_equal.
  induction r as [| a r IHr]; simpl; [reflexivity | now rewrite H, IHr].
Qed.

Lemma wfb_wf (t : tensor A) : wfb t = true <-> wf t.
Proof.
  unfold wfb, wf. rewrite andb_true_iff, Nat.eqb_eq, forallb_forall, Forall_forall.
  split; intros [H0 H1]; split; auto; intros r Hr.
  - apply Nat.eqb_eq; auto.
  - apply Nat.eqb_eq; auto.
Qed.

(** Cell [i] of column [k] is cell [k] of row [i]. *)
Lemma nth_error_column (rs : list (list A)) (K k i : nat) :
  Forall (fun r => length r = K) rs -> k < K ->
  nth_error (column k rs) i
  = match nth_error rs i with Some r => nth_error r k | None => None end.
Proof.
  intros Hrs Hk. revert i.
  induction Hrs as [| r rs Hr Hrs IH]; intros i; simpl.
  - now destruct i.
  - destruct (nth_error r k) as [a |] eqn:Ea.
    + destruct i; simpl; [now rewrite Ea | apply IH].
    + apply nth_error_None in Ea. lia.
Qed.

Lemma length_column (rs : list (list A)) (K k : nat) :
  Forall (fun r => length r = K) rs -> k < K ->
  length (column k rs) = length rs.
Proof.
  intros Hrs Hk. induction Hrs as [| r rs Hr Hrs IH]; simpl; [reflexivity |].
  destruct (nth_error r k) as [a |] eqn:Ea.
  - simpl. now rewrite IH.
  - apply nth_error_None in Ea. lia.
Qed.

Lemma wf_tf_transpose (t : tensor A) : wf t -> wf (tf_transpose t).
Proof.
  intros [H0 H1]. split; simpl.
  - now rewrite length_map, length_seq.
  - apply Forall_map, Forall_forall. intros k Hk. simpl.
    apply in_seq in Hk.
    rewrite (length_column H1); [exact H0 | lia].
Qed.

Lemma tget_tf_transpose (t : tensor A) (i k : nat) :
  wf t -> tget (tf_transpose t) k i = tget t i k.
Proof.
  intros [H0 H1]. unfold tget, tf_transpose; simpl.
  rewrite nth_error_map.
  destruct (Nat.lt_ge_cases k (dim1 t)) as [Hk | Hk].
  - rewrite nth_error_seq.
    destruct (Nat.ltb_spec k (dim1 t)) as [_ | Hk']; [| lia]. simpl.
    now apply nth_error_column with (K := dim1 t).
  - rewrite (proj2 (nth_error_None (seq 0 (dim1 t)) k))
      by (now rewrite length_seq).
    simpl. destruct (nth_error (rows t) i) as [r |] eqn:Er; [| reflexivity].
    symmetry. apply nth_error_None.
    rewrite Forall_forall in H1. rewrite (H1 r); [exact Hk |].
    eapply nth_error_In; eauto.
Qed.

(** Two tensors of one shape with the same cells are equal. *)
Lemma tensor_ext (t1 t2 : tensor A) :
  wf t1 -> wf t2 -> shape t1 = shape t2 ->
  (forall i k, tget t1 i k = tget t2 i k) -> t1 = t2.
Proof.
  destruct t1 as [n1 k1 rs1], t2 as [n2 k2 rs2].
  unfold wf, shape, tget; simpl.
  intros [L1 F1] [L2 F2] Hs Hg. injection Hs as -> ->. f_equal.
  apply nth_error_ext. intros i. specialize (Hg i).
  destruct (nth_error rs1 i) as [r1 |] eqn:E1,
           (nth_error rs2 i) as [r2 |] eqn:E2.
  - f_equal. apply nth_error_ext. exact Hg.
  - apply nth_error_None in E2.
    assert (i < length rs1) by (apply nth_error_Some; congruence). lia.
  - apply nth_error_None in E1.
    assert (i < length rs2) by (apply nth_error_Some; congruence). lia.
  - reflexivity.
Qed.

Lemma tf_transpose_involutive (t : tensor A) :
  wf t -> tf_transpose (tf_transpose t) = t.
Proof.
  intros Ht. apply tensor_ext; auto using wf_tf_transpose.
  intros i k. rewrite tget_tf_transpose by auto using wf_tf_transpose.
  now apply tget_tf_transpose.
Qed.

End TensorFacts1.

Section TensorFacts2.
Context {A B C : Type}.

Lemma nth_error_combine {X Y} (la : list X) (lb : list Y) (n : nat) :
  nth_error (combine la lb) n
  = match nth_error la n, nth_error lb n with
    | Some a, Some b => Some (a, b)
    | _, _ => None
    end.
Proof.
  revert lb n. induction la as [| a la IH]; intros lb n; simpl.
  - now destruct n.
  - destruct lb as [| b lb]; simpl.
    + destruct n; simpl; [reflexivity | now destruct (nth_error la n)].
    + destruct n; simpl; [reflexivity | apply IH].
Qed.

Lemma tget_tmap2 (f : A -> B -> C) (ta : tensor A) (tb : tensor B) (i k : nat) :
  tget (tmap2 f ta tb) i k
  = match tget ta i k, tget tb i k with
    | Some a, Some b => Some (f a b)
    | _, _ => None
    end.
Proof.
  unfold tget, tmap2; simpl.
  rewrite nth_error_map, nth_error_combine.
  destruct (nth_error (rows ta) i) as [ra |]; simpl; [| reflexivity].
  destruct (nth_error (rows tb) i) as [rb |]; cbn.
  - rewrite nth_error_map, nth_error_combine.
    destruct (nth_error ra k), (nth_error rb k); reflexivity.
  - now destruct (nth_error ra k).
Qed.

End TensorFacts2.

(** ** The transforms, cell by cell *)

Section CellByCell.
Variable D : dtype.
Implicit Types (K : keypoints D) (W : window D) (p : D * D).

(** The inclusive bounds test of a keypoint against a window. *)
Definition in_window W p : bool :=
  (leb (win_y_min W) (fst p) && leb (fst p) (win_y_max W))
  && (leb (win_x_min W) (snd p) && leb (snd p) (win_x_max W)).

(** What the transforms do to one cell. *)
Definition clip_value (lo hi v : D) : D := tf_maximum (tf_minimum v hi) lo.

Definition clip_cell W p : D * D :=
  (clip_value (win_y_min W) (win_y_max W) (fst p),
   clip_value (win_x_min W) (win_x_max W) (snd p)).

Definition prune_cell W p : D * D :=
  if in_window W p then p else (mul nan one, mul nan one).

Definition frame_cell W p : D * D :=
  (mul (sub (fst p) (win_y_min W))
       (div one (sub (win_y_max W) (win_y_min W))),
   mul (sub (snd p) (win_x_min W))
       (div one (sub (win_x_max W) (win_x_min W)))).

Definition flip_horizontal_cell (flip_point : D) p : D * D :=
  (fst p, sub (mul flip_point two) (snd p)).

Definition rot90_cell p : D * D := (sub one (snd p), fst p).

(** A keypoint as a kernel reads it. *)
Definition flush_cell p : D * D := (flush (fst p), flush (snd p)).

Lemma clip_to_window_cells K W :
  clip_to_window K W = tmap (clip_cell W) K.
Proof.
  unfold clip_to_window, tf_split, tf_concat.
  now rewrite !tmap_tmap, tmap2_tmap.
Qed.

Lemma prune_outside_window_cells K W :
  prune_outside_window K W = tmap (prune_cell W) K.
Proof.
  unfold prune_outside_window, tf_split, tf_concat, tf_where, tf_ones_like,
    greater_equal.
  rewrite !tmap_tmap. repeat rewrite tmap2_tmap.
  apply tmap_ext. intros [y x].
  unfold prune_cell, in_window. simpl.
  now destruct (_ && _)%bool.
Qed.

Lemma change_coordinate_frame_cells K W :
  change_coordinate_frame K W = tmap (frame_cell W) K.
Proof. unfold change_coordinate_frame, scale. now rewrite tmap_tmap. Qed.

Lemma flip_horizontal_cells K (flip_point : D) :
  wf K ->
  flip_horizontal K flip_point None
  = Ok (tmap (flip_horizontal_cell flip_point) K).
Proof.
  intros HK. unfold flip_horizontal, permute, bind, tf_split, tf_concat.
  rewrite tmap_tmap, tmap2_tmap.
  rewrite tf_transpose_tmap, tf_transpose_involutive by exact HK.
  reflexivity.
Qed.

Lemma rot90_cells K :
  wf K -> rot90 K None = Ok (tmap rot90_cell K).
Proof.
  intros HK.
  unfold rot90, permute, bind, tf_split, tf_concat, reverse_last.
  rewrite !tmap_tmap, tmap2_tmap.
  rewrite tf_transpose_tmap, tf_transpose_involutive by exact HK.
  reflexivity.
Qed.

(** [tf.maximum] and [tf.minimum] answer NaN on a NaN first operand. *)
Lemma tf_minimum_nan (a b : D) :
  is_nan a = true -> is_nan (tf_minimum a b) = true.
Proof. intros H. unfold tf_minimum. now rewrite H. Qed.

Lemma tf_maximum_nan (a b : D) :
  is_nan a = true -> is_nan (tf_maximum a b) = true.
Proof. intros H. unfold tf_maximum. now rewrite H. Qed.

Lemma clip_value_nan (lo hi v : D) :
  is_nan v = true -> is_nan (clip_value lo hi v) = true.
Proof. intros H. now apply tf_maximum_nan, tf_minimum_nan. Qed.

(** A value that is not NaN is clamped into a window whose bounds are in
    order. *)
Lemma clip_value_bounds (lo hi v : D) :
  leb lo hi = true -> is_nan v = false ->
  leb lo (clip_value lo hi v) = true /\ leb (clip_value lo hi v) hi = true.
Proof.
  intros Hw Hv.
  assert (Hlo : is_nan lo = false).
  { destruct (is_nan lo) eqn:E; [| reflexivity].
    now rewrite (leb_nan_l D lo hi E) in Hw. }
  assert (Hhi : is_nan hi = false).
  { destruct (is_nan hi) eqn:E; [| reflexivity].
    now rewrite (leb_nan_r D lo hi E) in Hw. }
  assert (Hm : is_nan (tf_minimum v hi) = false
               /\ leb (tf_minimum v hi) hi = true).
  { unfold tf_minimum. rewrite Hv, Hhi.
    destruct (ltb hi v) eqn:E; rewrite flush_is_nan, leb_flush_l.
    - split; [exact Hhi | now apply leb_refl].
    - split; [exact Hv | now apply leb_total]. }
  destruct Hm as [Hmn Hmh].
  unfold clip_value, tf_maximum. rewrite Hmn, Hlo.
  destruct (ltb (tf_minimum v hi) lo) eqn:E;
    rewrite leb_flush_l, leb_flush_r.
  - split; [now apply leb_refl | exact Hw].
  - split; [now apply leb_total | exact Hmh].
Qed.

End CellByCell.

Arguments in_window {D}. Arguments clip_value {D}. Arguments clip_cell {D}.
Arguments prune_cell {D}. Arguments frame_cell {D}.
Arguments flip_horizontal_cell {D}. Arguments rot90_cell {D}.
Arguments flush_cell {D}.

(** ** Concrete inputs *)

(** Floats used in the examples: 0, 1/2, 1, 2 and 2^-30 are floats, 0.1
    and 0.2 are rounded. *)
Definition f_0 : F32.dt := F32.of_Z 0.
Definition f_half : F32.dt := F32.of_bits 1 (-1).
Definition f_1 : F32.dt := F32.of_Z 1.
Definition f_2 : F32.dt := F32.of_Z 2.
Definition f_3 : F32.dt := F32.of_Z 3.
Definition f_5 : F32.dt := F32.of_Z 5.
Definition f_tiny : F32.dt := F32.of_bits 1 (-30).
Definition f_0_1 : F32.dt := SFdiv F32.prec F32.emax (F32.of_Z 1) (F32.of_Z 10).
Definition f_0_2 : F32.dt := SFdiv F32.prec F32.emax (F32.of_Z 2) (F32.of_Z 10).
Definition f_nan : F32.dt := S754_nan.

(** The smallest positive float [2^-149] and its opposite, subnormal
    numbers; [2^100] and [2^-100]. *)
Definition f_min : F32.dt := S754_finite false 1 (-149).
Definition f_neg_min : F32.dt := S754_finite true 1 (-149).
Definition f_big : F32.dt := F32.of_bits 1 100.
Definition f_small : F32.dt := F32.of_bits 1 (-100).

(** The window [0, 0, 1, 1]. *)
Definition unit_window : window F32.dt := Window f_0 f_0 f_1 f_1.

(** A float of binary32, and a number that is not subnormal. *)
Definition f32_float (x : F32.dt) : bool := valid_binary F32.prec F32.emax x.
Definition f32_normal (x : F32.dt) : bool := negb (F32.tiny x).

(** The four bounds of a window pass the test [ok]. *)
Definition window_numbers (ok : F32.dt -> bool) (W : window F32.dt) : bool :=
  ok (win_y_min W) && ok (win_x_min W) && ok (win_y_max W)
  && ok (win_x_max W).

(** One instance with one keypoint. *)
Definition one_keypoint (y x : F32.dt) : keypoints F32.dt :=
  {| dim0 := 1; dim1 := 1; rows := [[(y, x)]] |}.

(** ** [clip_to_window] *)

(** C10.  Clipping keeps the NaN mark: a coordinate of [K] that is NaN is
    still NaN in [clip_to_window K W], whatever the window; a pruned
    keypoint is never moved into the window. *)
Theorem clip_to_window_preserves_nan (D : dtype) (K : keypoints D)
  (W : window D) (i k : nat) (y x : D) :
  tget K i k = Some (y, x) ->
  exists y' x',
    tget (clip_to_window K W) i k = Some (y', x')
    /\ (is_nan y = true -> is_nan y' = true)
    /\ (is_nan x = true -> is_nan x' = true).
Proof.
  intros Hget. rewrite clip_to_window_cells, tget_tmap, Hget. simpl.
  eexists _, _. split; [reflexivity |].
  split; intros H; now apply clip_value_nan.
Qed.

Lemma clip_to_window_preserves_nan_witness :
  exists y' x',
    tget (clip_to_window (one_keypoint f_nan f_half) unit_window) 0 0
    = Some (y', x')
    /\ (is_nan f_nan = true -> is_nan y' = true)
    /\ (is_nan f_half = true -> is_nan x' = true).
Proof.
  apply (@clip_to_window_preserves_nan F32.dt
           (one_keypoint f_nan f_half) unit_window 0 0 f_nan f_half).
  reflexivity.
Defined.

(** C2, as stated, fails on a pruned keypoint: in the window [0, 0, 1, 1]
    the keypoint [(NaN, 1/2)] is clipped to [(NaN, 1/2)], and NaN is within
    no bounds. *)
Lemma clip_to_window_nan_not_within_window :
  leb (win_y_min unit_window) (win_y_max unit_window) = true
  /\ leb (win_x_min unit_window) (win_x_max unit_window) = true
  /\ tget (clip_to_window (one_keypoint f_nan f_half) unit_window) 0 0
     = Some (f_nan, f_half)
  /\ leb (win_y_min unit_window) f_nan = false
  /\ in_window unit_window (f_nan, f_half) = false.
Proof. repeat split; vm_compute; reflexivity. Qed.

(** What the clamp answers for a number that is not NaN, a bound or the
    number, is as the kernels read it: it is no subnormal number. *)
Lemma clip_value_flushed (D : dtype) (lo hi v : D) :
  leb lo hi = true -> is_nan v = false ->
  flush (clip_value lo hi v) = clip_value lo hi v.
Proof.
  intros Hw Hv.
  assert (Hlo : is_nan lo = false).
  { destruct (is_nan lo) eqn:E; [| reflexivity].
    now rewrite (leb_nan_l D lo hi E) in Hw. }
  assert (Hhi : is_nan hi = false).
  { destruct (is_nan hi) eqn:E; [| reflexivity].
    now rewrite (leb_nan_r D lo hi E) in Hw. }
  unfold clip_value, tf_maximum, tf_minimum. rewrite Hv, Hhi.
  destruct (ltb hi v); rewrite flush_is_nan, ?Hv, ?Hhi, Hlo;
    destruct (ltb _ lo); apply flush_flush.
Qed.

(** C2, amended.  In a window whose bounds are in order, every coordinate
    of [clip_to_window K W] that comes from a coordinate of [K] other than
    NaN lies within the bounds of the window, inclusive, in the
    comparisons of the element type.  On floats of binary32, whose
    comparisons read subnormal numbers as zero, it lies within the bounds
    in the order of the numbers themselves when no bound of the window is
    subnormal. *)
Theorem clip_to_window_within_window :
  (forall (D : dtype) (K : keypoints D) (W : window D) (i k : nat) (y x : D),
     leb (win_y_min W) (win_y_max W) = true ->
     leb (win_x_min W) (win_x_max W) = true ->
     tget K i k = Some (y, x) ->
     exists y' x',
       tget (clip_to_window K W) i k = Some (y', x')
       /\ (is_nan y = false ->
           leb (win_y_min W) y' = true /\ leb y' (win_y_max W) = true)
       /\ (is_nan x = false ->
           leb (win_x_min W) x' = true /\ leb x' (win_x_max W) = true))
  /\ (forall (K : keypoints F32.dt) (W : window F32.dt) (i k : nat)
             (y x : F32.dt),
        window_numbers f32_normal W = true ->
        SFleb (win_y_min W) (win_y_max W) = true ->
        SFleb (win_x_min W) (win_x_max W) = true ->
        tget K i k = Some (y, x) ->
        exists y' x',
          tget (clip_to_window K W) i k = Some (y', x')
          /\ (is_nan y = false ->
              SFleb (win_y_min W) y' = true /\ SFleb y' (win_y_max W) = true)
          /\ (is_nan x = false ->
              SFleb (win_x_min W) x' = true
              /\ SFleb x' (win_x_max W) = true)).
Proof.
  split.
  - intros D K W i k y x Hy Hx Hget.
    rewrite clip_to_window_cells, tget_tmap, Hget. simpl.
    eexists _, _. split; [reflexivity |].
    split; intros H; now apply clip_value_bounds.
  - intros K W i k y x Hn Hy Hx Hget.
    unfold window_numbers, f32_normal in Hn.
    rewrite !andb_true_iff, !negb_true_iff in Hn.
    destruct Hn as [[[N1 N2] N3] N4].
    assert (Hy' : leb (win_y_min W) (win_y_max W) = true).
    { change (SFleb (F32.f32_flush (win_y_min W))
                    (F32.f32_flush (win_y_max W)) = true).
      now rewrite !F32.f32_flush_not_tiny. }
    assert (Hx' : leb (win_x_min W) (win_x_max W) = true).
    { change (SFleb (F32.f32_flush (win_x_min W))
                    (F32.f32_flush (win_x_max W)) = true).
      now rewrite !F32.f32_flush_not_tiny. }
    rewrite clip_to_window_cells, tget_tmap, Hget. simpl.
    eexists _, _. split; [reflexivity |].
    split; intros H.
    + destruct (clip_value_bounds F32.dt _ _ _ Hy' H) as [B1 B2].
      pose proof (clip_value_flushed F32.dt _ _ _ Hy' H) as F.
      change (SFleb (F32.f32_flush (win_y_min W))
                (F32.f32_flush (clip_value (win_y_min W) (win_y_max W) y))
              = true) in B1.
      change (SFleb (F32.f32_flush
                       (clip_value (win_y_min W) (win_y_max W) y))
                (F32.f32_flush (win_y_max W)) = true) in B2.
      change (F32.f32_flush (clip_value (win_y_min W) (win_y_max W) y)
              = clip_value (win_y_min W) (win_y_max W) y) in F.
      rewrite F in B1, B2.
      rewrite (F32.f32_flush_not_tiny _ N1) in B1.
      rewrite (F32.f32_flush_not_tiny _ N3) in B2. now split.
    + destruct (clip_value_bounds F32.dt _ _ _ Hx' H) as [B1 B2].
      pose proof (clip_value_flushed F32.dt _ _ _ Hx' H) as F.
      change (SFleb (F32.f32_flush (win_x_min W))
                (F32.f32_flush (clip_value (win_x_min W) (win_x_max W) x))
              = true) in B1.
      change (SFleb (F32.f32_flush
                       (clip_value (win_x_min W) (win_x_max W) x))
                (F32.f32_flush (win_x_max W)) = true) in B2.
      change (F32.f32_flush (clip_value (win_x_min W) (win_x_max W) x)
              = clip_value (win_x_min W) (win_x_max W) x) in F.
      rewrite F in B1, B2.
      rewrite (F32.f32_flush_not_tiny _ N2) in B1.
      rewrite (F32.f32_flush_not_tiny _ N4) in B2. now split.
Qed.

Lemma clip_to_window_within_window_witness :
  exists y' x',
    tget (clip_to_window (one_keypoint f_2 f_half) unit_window) 0 0
    = Some (y', x')
    /\ (is_nan f_2 = false ->
        SFleb (win_y_min unit_window) y' = true
        /\ SFleb y' (win_y_max unit_window) = true)
    /\ (is_nan f_half = false ->
        SFleb (win_x_min unit_window) x' = true
        /\ SFleb x' (win_x_max unit_window) = true).
Proof.
  apply (proj2 clip_to_window_within_window
           (one_keypoint f_2 f_half) unit_window 0 0 f_2 f_half);
    reflexivity.
Defined.

(** A subnormal bound is read as a zero: in the window
    [2^-149, 0, 1, 1] the keypoint [(0, 1/2)], whose [y] is below
    [y_min], is left where it is. *)
Example clip_to_window_subnormal_bound :
  clip_to_window (one_keypoint f_0 f_half) (Window f_min f_0 f_1 f_1)
  = one_keypoint f_0 f_half
  /\ SFltb f_0 (win_y_min (Window f_min f_0 f_1 f_1)) = true.
Proof. split; reflexivity. Qed.

(** A keypoint above the window is clipped to its upper bound. *)
Example clip_to_window_example :
  clip_to_window (one_keypoint f_2 f_half) unit_window
  = one_keypoint f_1 f_half.
Proof. reflexivity. Qed.

(** ** [prune_outside_window] *)

(** The value written over a pruned coordinate, [np.nan * 1.0], is NaN. *)
Lemma pruned_value_is_nan (D : dtype) : is_nan (mul (@nan D) one) = true.
Proof. apply mul_nan_l, nan_is_nan. Qed.

(** A keypoint with a NaN coordinate fails the bounds test. *)
Lemma in_window_nan_y (D : dtype) (W : window D) (y x : D) :
  is_nan y = true -> in_window W (y, x) = false.
Proof.
  intros H. unfold in_window. simpl. now rewrite (leb_nan_r D _ y H).
Qed.

Lemma prune_cell_idempotent (D : dtype) (W : window D) (p : D * D) :
  prune_cell W (prune_cell W p) = prune_cell W p.
Proof.
  unfold prune_cell at 2. destruct (in_window W p) eqn:E.
  - unfold prune_cell. now rewrite E.
  - unfold prune_cell. rewrite E.
    now rewrite in_window_nan_y by apply pruned_value_is_nan.
Qed.

(** C9.  Pruning twice is pruning once: a keypoint already set to
    [(NaN, NaN)] fails the bounds test and is set to [(NaN, NaN)] again.
    This holds for every window, with NaN bounds too. *)
Theorem prune_outside_window_idempotent (D : dtype) (K : keypoints D)
  (W : window D) :
  prune_outside_window (prune_outside_window K W) W
  = prune_outside_window K W.
Proof.
  rewrite !prune_outside_window_cells, tmap_tmap.
  apply tmap_ext. intros p. apply prune_cell_idempotent.
Qed.

(** ** [set_keypoint_visibilities] *)

(** The mask computed from a keypoint and its initial visibility. *)
Definition visible_cell {D : dtype} (p : D * D) (v : bool) : bool :=
  if (is_nan (fst p) || is_nan (snd p))%bool then false else v.

Lemma set_keypoint_visibilities_some (D : dtype) (K : keypoints D)
  (V : tensor bool) :
  shape V = shape K ->
  set_keypoint_visibilities K (Some V)
  = Ok (tf_where (tmap (fun p => is_nan (fst p) || is_nan (snd p))%bool K)
                 (tmap (fun _ => false) V) V).
Proof.
  unfold shape. intros H. injection H as H0 H1.
  unfold set_keypoint_visibilities, tf_where_checked. simpl.
  now rewrite H0, H1, !Nat.eqb_refl.
Qed.

Lemma tget_tf_where_mask (D : dtype) (K : keypoints D) (V : tensor bool)
  (i k : nat) (p : D * D) (v : bool) :
  tget K i k = Some p -> tget V i k = Some v ->
  tget (tf_where (tmap (fun p => is_nan (fst p) || is_nan (snd p))%bool K)
                 (tmap (fun _ => false) V) V) i k
  = Some (visible_cell p v).
Proof.
  intros HK HV. unfold tf_where.
  rewrite !tget_tmap2, !tget_tmap, HK, HV. simpl.
  unfold visible_cell. now destruct (_ || _)%bool.
Qed.

(** C7.  With an initial mask [V] of the shape of [K], the mask returned
    is false at [[i, k]] when a coordinate of keypoint [[i, k]] is NaN and
    [V[i, k]] otherwise, so that no entry goes from false to true; without
    an initial mask it is false exactly at the keypoints with a NaN
    coordinate. *)
Theorem set_keypoint_visibilities_spec (D : dtype) (K : keypoints D) :
  (forall V : tensor bool, shape V = shape K ->
     exists M,
       set_keypoint_visibilities K (Some V) = Ok M
       /\ shape M = shape K
       /\ forall i k p v,
            tget K i k = Some p -> tget V i k = Some v ->
            tget M i k
            = Some (if (is_nan (fst p) || is_nan (snd p))%bool
                    then false else v)
            /\ (v = false -> tget M i k = Some false))
  /\ (exists M,
        set_keypoint_visibilities K None = Ok M
        /\ shape M = shape K
        /\ forall i k p,
             tget K i k = Some p ->
             tget M i k
             = Some (negb (is_nan (fst p) || is_nan (snd p)))).
Proof.
  split.
  - intros V HV. eexists. split; [now apply set_keypoint_visibilities_some |].
    split; [reflexivity |].
    intros i k p v HKp HVv.
    rewrite (tget_tf_where_mask K V i k HKp HVv). unfold visible_cell.
    split; [reflexivity |]. intros ->. now destruct (_ || _)%bool.
  - eexists. split.
    + apply set_keypoint_visibilities_some. reflexivity.
    + split; [reflexivity |].
      intros i k p HKp.
      rewrite (@tget_tf_where_mask D K _ i k p true HKp).
      * unfold visible_cell. now destruct (_ || _)%bool.
      * unfold tf_ones_like. now rewrite !tget_tmap, HKp.
Qed.

(** The keypoints [[[NaN, NaN], [0.1, 0.2]]] with the initial mask
    [[True, True]] give [[False, True]]. *)
Definition K_nan_first : keypoints F32.dt :=
  {| dim0 := 1; dim1 := 2; rows := [[(f_nan, f_nan); (f_0_1, f_0_2)]] |}.

Definition all_visible : tensor bool :=
  {| dim0 := 1; dim1 := 2; rows := [[true; true]] |}.

Lemma set_keypoint_visibilities_spec_witness :
  exists M,
    set_keypoint_visibilities K_nan_first (Some all_visible) = Ok M
    /\ shape M = shape K_nan_first
    /\ forall i k p v,
         tget K_nan_first i k = Some p -> tget all_visible i k = Some v ->
         tget M i k
         = Some (if (is_nan (fst p) || is_nan (snd p))%bool then false else v)
         /\ (v = false -> tget M i k = Some false).
Proof.
  apply (proj1 (@set_keypoint_visibilities_spec F32.dt K_nan_first)).
  reflexivity.
Defined.

Example set_keypoint_visibilities_example :
  set_keypoint_visibilities K_nan_first (Some all_visible)
  = Ok {| dim0 := 1; dim1 := 2; rows := [[false; true]] |}.
Proof. reflexivity. Qed.

(** An initial mask of another shape is refused. *)
Example set_keypoint_visibilities_shape_example :
  set_keypoint_visibilities K_nan_first
    (Some {| dim0 := 1; dim1 := 1; rows := [[true]] |})
  = Err (ShapeMismatch (1, 2) (1, 1)).
Proof. reflexivity. Qed.

(** ** The range check of [to_normalized_coordinates] *)

(** The switch is on exactly when the variable is set to ["1"]. *)
Lemma ASSERT_ACTIVE_iff (getenv : option string) :
  ASSERT_ACTIVE getenv = true <-> getenv = Some "1"%string.
Proof.
  unfold ASSERT_ACTIVE. destruct getenv as [v |].
  - rewrite String.eqb_eq. split; congruence.
  - split; discriminate.
Qed.

(** C1, as stated, fails where the switch is off, as it is when the
    variable [ASSERT_ACTIVE] is not set: the keypoint [(1/2, 1/2)] has
    maximum 1/2, below 1.01, and is scaled by 1/2 without any error. *)
Lemma to_normalized_coordinates_unchecked_by_default :
  leb (tf_reduce_max (one_keypoint f_half f_half)) c1_01 = true
  /\ to_normalized_coordinates None (one_keypoint f_half f_half) f_2 f_2 true
     = Ok (one_keypoint (F32.of_bits 1 (-2)) (F32.of_bits 1 (-2))).
Proof. split; vm_compute; reflexivity. Qed.

(** C1, amended.  With [check_range] set: when the switch [ASSERT_ACTIVE]
    is on and the maximum coordinate is at most 1.01, the call fails with
    the range error, whose data hold the maximum; when the switch is off
    the check is skipped and the scaled keypoints are returned. *)
Theorem to_normalized_coordinates_check_range (D : dtype)
  (getenv : option string) (K : keypoints D) (height width : D) :
  (ASSERT_ACTIVE getenv = true ->
   leb (tf_reduce_max K) c1_01 = true ->
   to_normalized_coordinates getenv K height width true
   = Err (InvalidArgumentError
            [Msg "max value is lower than 1.01: "; Val (tf_reduce_max K)]))
  /\ (ASSERT_ACTIVE getenv = false ->
      to_normalized_coordinates getenv K height width true
      = Ok (scale K (div one height) (div one width))).
Proof.
  unfold to_normalized_coordinates, assert_control_dependencies. split.
  - intros -> Hmax. unfold greater, tf_Assert.
    now rewrite (leb_not_ltb D _ _ Hmax).
  - intros ->. reflexivity.
Qed.

Lemma to_normalized_coordinates_check_range_witness :
  to_normalized_coordinates (Some "1"%string) (one_keypoint f_half f_half)
                            f_2 f_2 true
  = Err (InvalidArgumentError
           [Msg "max value is lower than 1.01: ";
            Val (tf_reduce_max (one_keypoint f_half f_half))]).
Proof.
  apply (proj1 (@to_normalized_coordinates_check_range F32.dt
                  (Some "1"%string) (one_keypoint f_half f_half) f_2 f_2));
    reflexivity.
Defined.

(** Absolute coordinates pass the check. *)
Example to_normalized_coordinates_example :
  to_normalized_coordinates (Some "1"%string) (one_keypoint f_5 f_3)
                            f_2 f_2 true
  = Ok (scale (one_keypoint f_5 f_3) f_half f_half).
Proof. vm_compute. reflexivity. Qed.

(** ** Arithmetic without rounding *)

Section ExactArithmetic.
Import Exact.
Local Open Scope Qc_scope.

Lemma is_zero_iff (q : Qc) : is_zero q = true <-> q = 0.
Proof.
  unfold is_zero. rewrite (Qceq_alt q 0).
  destruct (q ?= 0); split; congruence.
Qed.

Lemma is_zero_false (q : Qc) : q <> 0 -> is_zero q = false.
Proof.
  intros H. destruct (is_zero q) eqn:E; [| reflexivity].
  now apply is_zero_iff in E.
Qed.

Lemma negative_iff (q : Qc) : negative q = true <-> q < 0.
Proof.
  unfold negative. rewrite (Qclt_alt q 0).
  destruct (q ?= 0); split; congruence.
Qed.

Lemma Qc_0_lt_1 : 0 < 1.
Proof. reflexivity. Qed.

(** The inverse of a rational has the sign of the rational. *)
Lemma Qcinv_neg (q : Qc) : q < 0 -> / q < 0.
Proof.
  intros Hq.
  assert (Hq0 : q <> 0) by (now apply Qclt_not_eq).
  destruct (Qclt_le_dec (/ q) 0) as [H | H]; [exact H | exfalso].
  apply Qcle_lt_or_eq in H. destruct H as [H | H].
  - pose proof (Qcmult_lt_compat_r q 0 (/ q) H Hq) as Hm.
    rewrite Qcmult_inv_r, Qcmult_0_l in Hm by exact Hq0.
    now apply (Qclt_not_le _ _ Hm), Qclt_le_weak, Qc_0_lt_1.
  - pose proof (Qcmult_inv_r q Hq0) as Hm.
    rewrite <- H, Qcmult_0_r in Hm. discriminate.
Qed.

Lemma Qcinv_not_neg (q : Qc) : 0 < q -> ~ / q < 0.
Proof.
  intros Hq H.
  assert (Hq0 : q <> 0) by (apply not_eq_sym; now apply Qclt_not_eq).
  pose proof (Qcmult_lt_compat_r (/ q) 0 q Hq H) as Hm.
  rewrite Qcmult_inv_l, Qcmult_0_l in Hm by exact Hq0.
  now apply (Qclt_not_le _ _ Hm), Qclt_le_weak, Qc_0_lt_1.
Qed.

Lemma negative_inv (q : Qc) : q <> 0 -> negative (/ q) = negative q.
Proof.
  intros Hq0.
  destruct (negative q) eqn:E.
  - apply negative_iff. apply Qcinv_neg. now apply negative_iff.
  - destruct (negative (/ q)) eqn:E'; [exfalso | reflexivity].
    apply negative_iff in E'.
    destruct (Qc_dec q 0) as [[H | H] | H].
    + apply negative_iff in H. congruence.
    + now apply (Qcinv_not_neg H).
    + contradiction.
Qed.

Lemma negative_pos (q : Qc) : 0 < q -> negative q = false.
Proof.
  intros H. destruct (negative q) eqn:E; [| reflexivity].
  apply negative_iff in E. exfalso.
  now apply (Qclt_not_le _ _ E), Qclt_le_weak.
Qed.

Lemma x_div_one (q : Qc) : q <> 0 -> x_div (of_Q 1) (XFin q) = XFin (/ q).
Proof.
  intros H. unfold x_div, of_Q. rewrite (is_zero_false H).
  f_equal. unfold Qcdiv. apply Qcmult_1_l.
Qed.

(** Multiplying by the reciprocal is dividing. *)
Lemma x_mul_reciprocal (a h : xreal) :
  h <> of_Q 0 -> x_mul a (x_div (of_Q 1) h) = x_div a h.
Proof.
  intros Hh. destruct h as [| s | q].
  - now destruct a.
  - destruct a as [| sa | p]; simpl; try reflexivity.
    f_equal. apply Qcmult_0_r.
  - assert (Hq : q <> 0) by (intros ->; now apply Hh).
    rewrite (x_div_one Hq).
    assert (Hi : / q <> 0).
    { intros E. pose proof (Qcmult_inv_r q Hq) as Hm.
      rewrite E, Qcmult_0_r in Hm. discriminate. }
    destruct a as [| sa | p]; simpl.
    + reflexivity.
    + now rewrite (is_zero_false Hi), (negative_inv Hq).
    + now rewrite (is_zero_false Hq).
Qed.

(** Scaling by [1 / h] and then by [h] is the identity, for [h > 0]. *)
Lemma x_mul_div_mul (a : xreal) (h : Qc) :
  0 < h -> x_mul (x_mul a (x_div (of_Q 1) (XFin h))) (XFin h) = a.
Proof.
  intros Hh.
  assert (Hh0 : h <> 0) by (apply not_eq_sym; now apply Qclt_not_eq).
  rewrite (x_div_one Hh0).
  assert (Hi : / h <> 0).
  { intros E. pose proof (Qcmult_inv_r h Hh0) as Hm.
    rewrite E, Qcmult_0_r in Hm. discriminate. }
  destruct a as [| s | p]; simpl.
  - reflexivity.
  - rewrite (is_zero_false Hi), (negative_inv Hh0), (negative_pos Hh).
    simpl. rewrite (is_zero_false Hh0), (negative_pos Hh).
    now rewrite !xorb_false_r.
  - f_equal. field. exact Hh0.
Qed.

(** Reflecting twice about a finite point is the identity. *)
Lemma x_sub_sub (c : Qc) (a : xreal) :
  x_sub (XFin c) (x_sub (XFin c) a) = a.
Proof.
  destruct a as [| s | p]; simpl.
  - reflexivity.
  - now rewrite negb_involutive.
  - f_equal. ring.
Qed.

End ExactArithmetic.

(** ** [change_coordinate_frame] *)

Definition window_0_3 : window F32.dt := Window f_0 f_0 f_3 f_3.

(** C4, as stated, fails on floats: the source multiplies by the rounded
    reciprocal of the extent.  In the window [0, 0, 3, 3] the coordinate 5
    becomes 5 * fl(1/3) = 13981014 * 2^-23, while the quotient 5 / 3 is
    13981013 * 2^-23. *)
Lemma change_coordinate_frame_not_quotient :
  sub (win_y_max window_0_3) (win_y_min window_0_3) <> f_0
  /\ sub (win_x_max window_0_3) (win_x_min window_0_3) <> f_0
  /\ tget (change_coordinate_frame (one_keypoint f_5 f_5) window_0_3) 0 0
     = Some (F32.of_bits 13981014 (-23), F32.of_bits 13981014 (-23))
  /\ div (sub f_5 (win_y_min window_0_3))
         (sub (win_y_max window_0_3) (win_y_min window_0_3))
     = F32.of_bits 13981013 (-23)
  /\ F32.of_bits 13981014 (-23) <> F32.of_bits 13981013 (-23).
Proof.
  repeat split; try (vm_compute; reflexivity); vm_compute; discriminate.
Qed.

(** C4, amended.  [change_coordinate_frame K W] is [scale] applied to the
    translated keypoints, with the factors [1 / height] and [1 / width]:
    each keypoint [(y, x)] maps to
    [((y - y_min) * (1 / (y_max - y_min)), (x - x_min) * (1 / (x_max - x_min)))].
    Without rounding, and for a height and a width other than 0, these
    products are the quotients [(y - y_min) / (y_max - y_min)] and
    [(x - x_min) / (x_max - x_min)]. *)
Theorem change_coordinate_frame_spec :
  (forall (D : dtype) (K : keypoints D) (W : window D),
     change_coordinate_frame K W
     = scale (tmap (fun p => (sub (fst p) (win_y_min W),
                              sub (snd p) (win_x_min W))) K)
             (div one (sub (win_y_max W) (win_y_min W)))
             (div one (sub (win_x_max W) (win_x_min W)))
     /\ forall i k y x,
          tget K i k = Some (y, x) ->
          tget (change_coordinate_frame K W) i k
          = Some (mul (sub y (win_y_min W))
                      (div one (sub (win_y_max W) (win_y_min W))),
                  mul (sub x (win_x_min W))
                      (div one (sub (win_x_max W) (win_x_min W)))))
  /\ (forall (K : keypoints Exact.dt) (W : window Exact.dt),
        sub (win_y_max W) (win_y_min W) <> Exact.of_Q 0 ->
        sub (win_x_max W) (win_x_min W) <> Exact.of_Q 0 ->
        forall i k y x,
          tget K i k = Some (y, x) ->
          tget (change_coordinate_frame K W) i k
          = Some (div (sub y (win_y_min W))
                      (sub (win_y_max W) (win_y_min W)),
                  div (sub x (win_x_min W))
                      (sub (win_x_max W) (win_x_min W)))).
Proof.
  split.
  - intros D K W. split; [reflexivity |].
    intros i k y x H.
    now rewrite change_coordinate_frame_cells, tget_tmap, H.
  - intros K W Hh Hw i k y x H.
    rewrite change_coordinate_frame_cells, tget_tmap, H. simpl.
    unfold frame_cell. simpl.
    now rewrite (x_mul_reciprocal _ Hh), (x_mul_reciprocal _ Hw).
Qed.

(** Exact keypoints and windows used below. *)
Definition x_keypoint (y x : Q) : keypoints Exact.dt :=
  {| dim0 := 1; dim1 := 1; rows := [[(Exact.of_Q y, Exact.of_Q x)]] |}.

Definition x_window_0_3 : window Exact.dt :=
  Window (Exact.of_Q 0) (Exact.of_Q 0) (Exact.of_Q 3) (Exact.of_Q 3).

Lemma x_window_0_3_extent : Exact.x_sub (Exact.of_Q 3) (Exact.of_Q 0) <> Exact.of_Q 0.
Proof.
  intros H. injection H as H. discriminate.
Qed.

Lemma change_coordinate_frame_spec_witness :
  tget (change_coordinate_frame (x_keypoint 5 5) x_window_0_3) 0 0
  = Some (div (sub (Exact.of_Q 5) (win_y_min x_window_0_3))
              (sub (win_y_max x_window_0_3) (win_y_min x_window_0_3)),
          div (sub (Exact.of_Q 5) (win_x_min x_window_0_3))
              (sub (win_x_max x_window_0_3) (win_x_min x_window_0_3))).
Proof.
  apply (proj2 change_coordinate_frame_spec (x_keypoint 5 5) x_window_0_3
           x_window_0_3_extent x_window_0_3_extent 0 0).
  reflexivity.
Defined.

(** ** [flip_horizontal] *)

(** C6, as stated, fails on floats: about the point 1/2, the coordinate
    [x = 2^-30] is sent to [1 - 2^-30], which rounds to 1, and 1 is sent
    back to 0, not to [2^-30]. *)
Lemma flip_horizontal_twice_rounds :
  flip_horizontal (one_keypoint f_0 f_tiny) f_half None
  = Ok (one_keypoint f_0 f_1)
  /\ (K1 <- flip_horizontal (one_keypoint f_0 f_tiny) f_half None ;;
      flip_horizontal K1 f_half None)
     = Ok (one_keypoint f_0 f_0)
  /\ one_keypoint f_0 f_0 <> one_keypoint f_0 f_tiny.
Proof.
  repeat split; try (vm_compute; reflexivity). vm_compute. discriminate.
Qed.

(** Two flips, for every element type. *)
Lemma flip_horizontal_twice_cells (D : dtype) (K : keypoints D)
  (flip_point : D) :
  wf K ->
  (K1 <- flip_horizontal K flip_point None ;;
   flip_horizontal K1 flip_point None)
  = Ok (tmap (fun p => flip_horizontal_cell flip_point
                         (flip_horizontal_cell flip_point p)) K).
Proof.
  intros HK. rewrite (flip_horizontal_cells _ HK), bind_Ok.
  rewrite flip_horizontal_cells by (now apply wf_tmap).
  now rewrite tmap_tmap.
Qed.

(** C6, amended.  Without permutation, [flip_horizontal] maps each
    x-coordinate to [flip_point * 2 - x] and leaves each y-coordinate
    unchanged, for every element type; applied twice it leaves each
    y-coordinate unchanged and maps each x-coordinate to
    [flip_point * 2 - (flip_point * 2 - x)], which without rounding, and
    for a finite flip point, is [x]: then the two flips return [K]. *)
Theorem flip_horizontal_involutive :
  (forall (D : dtype) (K : keypoints D) (flip_point : D),
     wf K ->
     exists K' K'',
       flip_horizontal K flip_point None = Ok K'
       /\ flip_horizontal K' flip_point None = Ok K''
       /\ shape K' = shape K /\ shape K'' = shape K
       /\ forall i k y x,
            tget K i k = Some (y, x) ->
            tget K' i k = Some (y, sub (mul flip_point two) x)
            /\ tget K'' i k
               = Some (y, sub (mul flip_point two)
                              (sub (mul flip_point two) x)))
  /\ (forall (K : keypoints Exact.dt) (p : Qc),
        wf K ->
        (K1 <- flip_horizontal K (Exact.XFin p) None ;;
         flip_horizontal K1 (Exact.XFin p) None)
        = Ok K).
Proof.
  split.
  - intros D K flip_point HK. eexists _, _.
    split; [now apply flip_horizontal_cells |].
    split; [apply flip_horizontal_cells; now apply wf_tmap |].
    split; [reflexivity |]. split; [reflexivity |].
    intros i k y x H. now rewrite !tget_tmap, H.
  - intros K p HK. rewrite (flip_horizontal_twice_cells _ HK).
    f_equal. apply tmap_id. intros [y x].
    unfold flip_horizontal_cell. simpl. f_equal. apply x_sub_sub.
Qed.

Lemma wf_x_keypoint (y x : Q) : wf (x_keypoint y x).
Proof. split; [reflexivity | repeat constructor]. Qed.

Lemma flip_horizontal_involutive_witness :
  (K1 <- flip_horizontal (x_keypoint (1 # 5) (3 # 10))
                         (Exact.XFin (Q2Qc (1 # 2))) None ;;
   flip_horizontal K1 (Exact.XFin (Q2Qc (1 # 2))) None)
  = Ok (x_keypoint (1 # 5) (3 # 10)).
Proof.
  apply (proj2 flip_horizontal_involutive (x_keypoint (1 # 5) (3 # 10))
           (Q2Qc (1 # 2)) (wf_x_keypoint (1 # 5) (3 # 10))).
Defined.

(** ** Rounding of [1 - (1 - x)] in binary32 *)

(** The subtraction [1 - x] of the rotation is followed through
    [SpecFloat]'s rounding: for a float [x] in [[0, 1]] it is exact when
    [x >= 1/2], and rounded to a multiple of [2^-24] otherwise; the second
    subtraction is always exact. *)

Section Binary32Rounding.
Local Open Scope Z_scope.

Lemma digits2_pos_size (p : positive) : digits2_pos p = Pos.size p.
Proof. induction p; simpl; congruence. Qed.

(** [2^(d-1) <= p < 2^d] for [d] the number of digits of [p]. *)
Lemma digits2_pos_bounds (p : positive) :
  2 ^ (Zpos (digits2_pos p) - 1) <= Zpos p < 2 ^ Zpos (digits2_pos p).
Proof.
  rewrite digits2_pos_size. split.
  - pose proof (Pos.size_le p) as H.
    apply Pos2Z.pos_le_pos in H. rewrite Pos2Z.inj_pow in H.
    change (Z.pos p~0) with (2 * Z.pos p) in H.
    replace (Z.pos (Pos.size p)) with (Z.succ (Z.pos (Pos.size p) - 1)) in H by lia.
    rewrite Z.pow_succ_r in H by lia. lia.
  - pose proof (Pos.size_gt p) as H.
    apply Pos2Z.pos_lt_pos in H. now rewrite Pos2Z.inj_pow in H.
Qed.

Lemma digits2_pos_unique (p : positive) (d : Z) :
  2 ^ (d - 1) <= Zpos p < 2 ^ d -> Zpos (digits2_pos p) = d.
Proof.
  intros [Hl Hu]. pose proof (digits2_pos_bounds p) as [Hl' Hu'].
  assert (0 < d).
  { destruct (Z.lt_ge_cases 0 d); [assumption |].
    assert (2 ^ d <= 2 ^ 0) by (apply Z.pow_le_mono_r; lia).
    simpl in *. lia. }
  destruct (Z.lt_trichotomy (Zpos (digits2_pos p)) d) as [H1 | [H1 | H1]].
  - assert (2 ^ Zpos (digits2_pos p) <= 2 ^ (d - 1))
      by (apply Z.pow_le_mono_r; lia). lia.
  - assumption.
  - assert (2 ^ d <= 2 ^ (Zpos (digits2_pos p) - 1))
      by (apply Z.pow_le_mono_r; lia). lia.
Qed.

Lemma iter_xO (m k : positive) : Zpos (Pos.iter xO m k) = Zpos m * 2 ^ Zpos k.
Proof.
  revert m. induction k using Pos.peano_ind; intros m.
  - simpl. lia.
  - rewrite Pos.iter_succ, Pos2Z.inj_succ, Z.pow_succ_r by lia.
    change (Zpos (Pos.iter xO m k)~0) with (2 * Zpos (Pos.iter xO m k)).
    rewrite IHk. ring.
Qed.

Lemma shr_1_nonneg (m : Z) (r s : bool) :
  0 <= m ->
  shr_1 (Build_shr_record m r s) = Build_shr_record (Z.div2 m) (Z.odd m) (r || s).
Proof.
  intros Hm. destruct m as [| [p | p |] | p]; try reflexivity. lia.
Qed.

Lemma iter_pos_nat {A} (f : A -> A) (p : positive) (x : A) :
  iter_pos f p x = Nat.iter (Pos.to_nat p) f x.
Proof.
  revert x. induction p as [p IH | p IH |]; intros x; cbn [iter_pos].
  - rewrite !IH, Pos2Nat.inj_xI.
    replace (S (2 * Pos.to_nat p))%nat
      with (Pos.to_nat p + (Pos.to_nat p + 1))%nat by lia.
    rewrite !Nat.iter_add. reflexivity.
  - rewrite !IH, Pos2Nat.inj_xO.
    replace (2 * Pos.to_nat p)%nat
      with (Pos.to_nat p + Pos.to_nat p)%nat by lia.
    now rewrite Nat.iter_add.
  - reflexivity.
Qed.

(** The state after [n >= 1] shifts of [m]: the quotient, the bit below
    it, and whether anything lies below that bit. *)
Definition shifted (m : Z) (n : Z) (mrs : shr_record) : Prop :=
  exists t,
    0 <= shr_m mrs
    /\ 0 <= t < 2 ^ (n - 1)
    /\ m = shr_m mrs * 2 ^ n + (if shr_r mrs then 2 ^ (n - 1) else 0) + t
    /\ (shr_s mrs = false <-> t = 0).

Lemma shifted_step (m n : Z) (mrs : shr_record) :
  1 <= n -> shifted m n mrs -> shifted m (n + 1) (shr_1 mrs).
Proof.
  intros Hn (t & Hq & Ht & Hm & Hs). destruct mrs as [q r s].
  cbn [shr_m shr_r shr_s] in Hq, Ht, Hm, Hs.
  rewrite shr_1_nonneg by assumption.
  exists ((if r then 2 ^ (n - 1) else 0) + t). cbn [shr_m shr_r shr_s].
  assert (Hp : 2 ^ n = 2 * 2 ^ (n - 1)).
  { replace n with (Z.succ (n - 1)) at 1 by lia. apply Z.pow_succ_r. lia. }
  assert (Hp' : 2 ^ (n + 1) = 2 * 2 ^ n) by (apply Z.pow_succ_r; lia).
  replace (n + 1 - 1) with n by lia.
  assert (0 < 2 ^ (n - 1)) by (apply Z.pow_pos_nonneg; lia).
  pose proof (Z.div2_odd q) as Hq2.
  split; [apply Z.div2_nonneg; assumption |].
  split; [destruct r; lia |].
  split.
  - rewrite Hm, Hp'. rewrite Hq2 at 1.
    destruct (Z.odd q), r; simpl Z.b2z; lia.
  - destruct r, s; simpl; split; intros; try discriminate; try lia;
      try (apply Hs; lia).
Qed.

Lemma shifted_iter (m : Z) (n : nat) :
  0 <= m ->
  shifted m (Z.of_nat (S n)) (Nat.iter (S n) shr_1 (Build_shr_record m false false)).
Proof.
  intros Hm. induction n as [| n IH].
  - change (Nat.iter 1 shr_1 (Build_shr_record m false false))
      with (shr_1 (Build_shr_record m false false)).
    rewrite shr_1_nonneg by assumption.
    exists 0. cbn [shr_m shr_r shr_s orb]. pose proof (Z.div2_odd m).
    split; [apply Z.div2_nonneg; assumption |].
    split; [lia |]. split; [destruct (Z.odd m); simpl Z.b2z in *; lia | tauto].
  - replace (Z.of_nat (S (S n))) with (Z.of_nat (S n) + 1) by lia.
    change (Nat.iter (S (S n)) shr_1 ?x) with (shr_1 (Nat.iter (S n) shr_1 x)).
    apply shifted_step; [lia | exact IH].
Qed.

Lemma shifted_iter_pos (m : Z) (n : positive) :
  0 <= m ->
  shifted m (Zpos n) (iter_pos shr_1 n (Build_shr_record m false false)).
Proof.
  intros Hm. rewrite iter_pos_nat.
  destruct (Pos2Nat.is_succ n) as [k Hk]. rewrite Hk.
  replace (Zpos n) with (Z.of_nat (S k)) by lia.
  now apply shifted_iter.
Qed.

(** Rounding the shifted state to nearest, ties to even. *)
Lemma round_shifted (m n : Z) (mrs : shr_record) :
  1 <= n -> shifted m n mrs ->
  let m1 := round_nearest_even (shr_m mrs) (loc_of_shr_record mrs) in
  shr_m mrs <= m1 <= shr_m mrs + 1
  /\ Z.abs (m1 * 2 ^ n - m) <= 2 ^ (n - 1)
  /\ ((2 ^ n | m) -> m1 * 2 ^ n = m).
Proof.
  intros Hn (t & Hq & Ht & Hm & Hs). destruct mrs as [q r s].
  cbn [shr_m shr_r shr_s] in Hq, Ht, Hm, Hs. cbn [shr_m].
  assert (Hp : 2 ^ n = 2 * 2 ^ (n - 1)).
  { replace n with (Z.succ (n - 1)) at 1 by lia. apply Z.pow_succ_r. lia. }
  assert (H0 : 0 < 2 ^ (n - 1)) by (apply Z.pow_pos_nonneg; lia).
  assert (Hdiv : (2 ^ n | m) -> (if r then 2 ^ (n - 1) else 0) + t = 0).
  { intros [c Hc].
    assert (E : (if r then 2 ^ (n - 1) else 0) + t = (c - q) * 2 ^ n) by lia.
    assert (0 <= (if r then 2 ^ (n - 1) else 0) + t < 2 ^ n) by (destruct r; lia).
    assert (c - q = 0) by nia. nia. }
  destruct r, s; simpl.
  - split; [lia |]. split; [nia |]. intros Hd. apply Hdiv in Hd. lia.
  - assert (t = 0) by (now apply Hs). subst t.
    destruct (Z.even q); (split; [lia |]); (split; [nia |]);
      intros Hd; apply Hdiv in Hd; lia.
  - split; [lia |]. split; [nia |]. intros Hd. apply Hdiv in Hd. lia.
  - assert (t = 0) by (now apply Hs). subst t.
    split; [lia |]. split; [nia |]. intros _. lia.
Qed.


Lemma fexp_eq (z : Z) : fexp F32.prec F32.emax z = Z.max (z - 24) (-149).
Proof. reflexivity. Qed.

Lemma shr_fexp_no_shift (m : positive) (e : Z) :
  Zpos (digits2_pos m) = 24 -> -149 <= e ->
  shr_fexp F32.prec F32.emax (Zpos m) e loc_Exact
  = (Build_shr_record (Zpos m) false false, e).
Proof.
  intros Hd He. unfold shr_fexp. rewrite fexp_eq. cbn [Zdigits2]. rewrite Hd.
  replace (Z.max (24 + e - 24) (-149) - e) with 0 by lia.
  reflexivity.
Qed.

(** A mantissa of 24 digits with an exponent in range needs no rounding. *)
Lemma binary_round_aux_canonical (s : bool) (m : positive) (e : Z) :
  Zpos (digits2_pos m) = 24 -> -149 <= e <= 104 ->
  binary_round_aux F32.prec F32.emax s (Zpos m) e loc_Exact = S754_finite s m e.
Proof.
  intros Hd He. unfold binary_round_aux.
  rewrite (shr_fexp_no_shift m Hd) by lia.
  cbn [shr_m loc_of_shr_record round_nearest_even].
  rewrite (shr_fexp_no_shift m Hd) by lia.
  cbn [shr_m].
  replace (e <=? F32.emax - F32.prec) with true; [reflexivity |].
  symmetry. apply Z.leb_le. unfold F32.emax, F32.prec. lia.
Qed.

(** The float 1. *)
Definition f32_one : F32.dt := S754_finite false 8388608 (-23).

Lemma pow2_split (a b : Z) : 0 <= a -> 0 <= b -> 2 ^ (a + b) = 2 ^ a * 2 ^ b.
Proof. intros. now apply Z.pow_add_r. Qed.

(** [1 - y] is exact for [1/2 <= y < 1]. *)
Lemma sub_one_upper (m : positive) :
  2 ^ 23 <= Zpos m < 2 ^ 24 ->
  exists m' e',
    SFsub F32.prec F32.emax f32_one (S754_finite false m (-24))
    = S754_finite false m' e'
    /\ Zpos (digits2_pos m') = 24
    /\ -47 <= e' <= -24
    /\ Zpos m' = (2 ^ 24 - Zpos m) * 2 ^ (-24 - e').
Proof.
  intros Hm.
  assert (HN : exists pN, Zpos pN = 2 ^ 24 - Zpos m).
  { destruct (2 ^ 24 - Zpos m) as [| p | p] eqn:E; try lia. now exists p. }
  destruct HN as [pN HN].
  assert (Hsub : SFsub F32.prec F32.emax f32_one (S754_finite false m (-24))
                 = binary_round F32.prec F32.emax false pN (-24)).
  { unfold SFsub, f32_one. cbn [Z.min Z.compare Pos.compare Pos.compare_cont].
    change (Z.min (-23) (-24)) with (-24).
    change (fst (shl_align 8388608 (-23) (-24))) with 16777216%positive.
    change (fst (shl_align m (-24) (-24))) with m.
    cbn [cond_Zopp].
    change (Z.pos 16777216) with (2 ^ 24). rewrite <- HN. reflexivity. }
  rewrite Hsub. unfold binary_round. rewrite fexp_eq.
  pose proof (digits2_pos_bounds pN) as Hd.
  set (d := Zpos (digits2_pos pN)) in *.
  assert (Hd1 : 1 <= d) by (unfold d; lia).
  assert (Hd24 : d <= 24).
  { destruct (Z.le_gt_cases d 24); [assumption |].
    assert (2 ^ 24 <= 2 ^ (d - 1)) by (apply Z.pow_le_mono_r; lia). lia. }
  replace (Z.max (d + -24 - 24) (-149)) with (d - 48) by lia.
  unfold shl_align.
  destruct (d - 48 - -24) as [| k | k] eqn:Ek; try lia.
  - (* d = 24 *)
    exists pN, (-24). split; [apply binary_round_aux_canonical; lia |].
    split; [fold d; lia |]. split; [lia |].
    rewrite HN. change (-24 - -24) with 0. lia.
  - (* d < 24 *)
    assert (Hk : Zpos k = 24 - d) by lia.
    assert (Hmz : Zpos (Pos.iter xO pN k) = Zpos pN * 2 ^ (24 - d))
      by (rewrite iter_xO; now rewrite Hk).
    assert (Hdz : Zpos (digits2_pos (Pos.iter xO pN k)) = 24).
    { apply digits2_pos_unique. rewrite Hmz.
      assert (E1 : 2 ^ (24 - 1) = 2 ^ (d - 1) * 2 ^ (24 - d))
        by (rewrite <- pow2_split by lia; f_equal; lia).
      assert (E2 : 2 ^ 24 = 2 ^ d * 2 ^ (24 - d))
        by (rewrite <- pow2_split by lia; f_equal; lia).
      assert (0 < 2 ^ (24 - d)) by (apply Z.pow_pos_nonneg; lia).
      rewrite E1, E2.
      split; [apply Z.mul_le_mono_nonneg_r | apply Z.mul_lt_mono_pos_r]; lia. }
    exists (Pos.iter xO pN k), (d - 48).
    split; [apply binary_round_aux_canonical; lia |].
    split; [assumption |]. split; [lia |].
    rewrite Hmz, HN. f_equal. f_equal. lia.
Qed.

(** Rounding a mantissa that is shifted down to the exponent -24. *)
Lemma binary_round_aux_shift (pN : positive) (e : Z) (n : positive) :
  fexp F32.prec F32.emax (Zdigits2 (Zpos pN) + e) - e = Zpos n ->
  e + Zpos n = -24 ->
  forall m1,
    m1 = (let mrs := iter_pos shr_1 n (Build_shr_record (Zpos pN) false false) in
          round_nearest_even (shr_m mrs) (loc_of_shr_record mrs)) ->
    2 ^ 23 <= m1 <= 2 ^ 24 ->
    binary_round_aux F32.prec F32.emax false (Zpos pN) e loc_Exact
    = if m1 =? 2 ^ 24 then f32_one else S754_finite false (Z.to_pos m1) (-24).
Proof.
  intros Hn He m1 Hm1 Hr.
  unfold binary_round_aux, shr_fexp at 1.
  rewrite Hn. cbn [shr_record_of_loc shr]. rewrite He.
  cbv zeta in Hm1. rewrite <- Hm1.
  destruct (Z.eqb_spec m1 (2 ^ 24)) as [E | E].
  - rewrite E. reflexivity.
  - assert (Hp : exists p1, m1 = Zpos p1).
    { destruct m1 as [| p | p]; try lia. now exists p. }
    destruct Hp as [p1 Hp]. rewrite Hp.
    assert (Hd : Zpos (digits2_pos p1) = 24)
      by (apply digits2_pos_unique; lia).
    rewrite (shr_fexp_no_shift _ Hd) by lia.
    reflexivity.
Qed.

(** [1 - y] for [0 < y < 1/2]: the difference is rounded to a multiple
    [m1 * 2^-24]. *)
Lemma sub_one_lower (m : positive) (e : Z) :
  -149 <= e <= -25 -> Zpos m < 2 ^ 24 ->
  exists m1 : Z,
    2 ^ 23 <= m1 <= 2 ^ 24
    /\ Z.abs (m1 * 2 ^ (-24 - e) - (2 ^ (- e) - Zpos m)) <= 2 ^ (-25 - e)
    /\ ((2 ^ (-24 - e) | 2 ^ (- e) - Zpos m) ->
        m1 * 2 ^ (-24 - e) = 2 ^ (- e) - Zpos m)
    /\ SFsub F32.prec F32.emax f32_one (S754_finite false m e)
       = if m1 =? 2 ^ 24 then f32_one
         else S754_finite false (Z.to_pos m1) (-24).
Proof.
  intros He Hm.
  assert (Hhalf : 2 ^ (- e) = 2 * 2 ^ (- e - 1)).
  { replace (- e) with (Z.succ (- e - 1)) at 1 by lia.
    apply Z.pow_succ_r. lia. }
  assert (H24 : 2 ^ 24 <= 2 ^ (- e - 1)) by (apply Z.pow_le_mono_r; lia).
  assert (HN : exists pN, Zpos pN = 2 ^ (- e) - Zpos m).
  { destruct (2 ^ (- e) - Zpos m) as [| p | p] eqn:E; try lia. now exists p. }
  destruct HN as [pN HN].
  assert (HdN : Zpos (digits2_pos pN) = - e)
    by (apply digits2_pos_unique; lia).
  assert (Hn : exists n, Zpos n = -24 - e).
  { destruct (-24 - e) as [| p | p] eqn:E; try lia. now exists p. }
  destruct Hn as [n Hn].
  assert (Hsub : SFsub F32.prec F32.emax f32_one (S754_finite false m e)
                 = binary_round_aux F32.prec F32.emax false (Zpos pN) e
                                    loc_Exact).
  { unfold SFsub, f32_one. rewrite Z.min_r by lia.
    unfold shl_align at 2. rewrite Z.sub_diag. cbn [fst].
    unfold shl_align at 1.
    destruct (e - -23) as [| k | k] eqn:Ek; try lia.
    cbn [fst cond_Zopp]. rewrite iter_xO.
    replace (Z.pos 8388608 * 2 ^ Z.pos k) with (2 ^ (- e)).
    2:{ change (Z.pos 8388608) with (2 ^ 23). rewrite <- pow2_split by lia.
        f_equal. lia. }
    rewrite <- HN. cbn [binary_normalize]. unfold binary_round.
    rewrite HdN. replace (- e + e) with 0 by lia.
    change (fexp F32.prec F32.emax 0) with (-24).
    unfold shl_align. rewrite <- Hn. reflexivity. }
  set (mrs := iter_pos shr_1 n (Build_shr_record (Zpos pN) false false)).
  pose proof (@shifted_iter_pos (Zpos pN) n ltac:(lia)) as Hsh. fold mrs in Hsh.
  pose proof (@round_shifted (Zpos pN) (Zpos n) mrs ltac:(lia) Hsh) as Hrd.
  cbv zeta in Hrd.
  set (m1 := round_nearest_even (shr_m mrs) (loc_of_shr_record mrs)) in *.
  destruct Hrd as (Hq & Habs & Hex).
  assert (Hqr : 2 ^ 23 <= shr_m mrs < 2 ^ 24).
  { destruct Hsh as (t & Hq0 & Ht & HmN & _).
    assert (Hp : 2 ^ Zpos n = 2 * 2 ^ (Zpos n - 1)).
    { replace (Zpos n) with (Z.succ (Zpos n - 1)) at 1 by lia.
      apply Z.pow_succ_r. lia. }
    assert (E1 : 2 ^ (- e - 1) = 2 ^ 23 * 2 ^ Zpos n)
      by (rewrite <- pow2_split by lia; f_equal; lia).
    assert (0 < 2 ^ (Zpos n - 1)) by (apply Z.pow_pos_nonneg; lia).
    assert (0 <= (if shr_r mrs then 2 ^ (Zpos n - 1) else 0) + t < 2 ^ Zpos n)
      by (destruct (shr_r mrs); lia).
    split; nia. }
  exists m1. rewrite Hn in *.
  split; [lia |]. split.
  - replace (-25 - e) with (-24 - e - 1) by lia. rewrite <- HN. exact Habs.
  - split; [rewrite <- HN; exact Hex |].
    rewrite Hsub. apply binary_round_aux_shift with (n := n).
    + cbn [Zdigits2]. rewrite HdN, fexp_eq. lia.
    + lia.
    + reflexivity.
    + lia.
Qed.

(** A float as a multiple of [2^-149], the smallest positive float. *)
Definition ulps (x : spec_float) : Z :=
  match x with
  | S754_finite s m e => (if s then -1 else 1) * Zpos m * 2 ^ (e + 149)
  | _ => 0
  end.

Definition is_finite (x : spec_float) : bool :=
  match x with
  | S754_zero _ | S754_finite _ _ _ => true
  | _ => false
  end.

Lemma valid_finite (s : bool) (m : positive) (e : Z) :
  valid_binary F32.prec F32.emax (S754_finite s m e) = true ->
  Z.max (Zpos (digits2_pos m) + e - 24) (-149) = e /\ e <= 104.
Proof.
  cbn [valid_binary]. unfold bounded, canonical_mantissa.
  rewrite andb_true_iff, Z.eqb_eq, Z.leb_le, fexp_eq.
  unfold F32.emax, F32.prec. lia.
Qed.

Lemma sub_one_one :
  SFsub F32.prec F32.emax f32_one f32_one = S754_zero false.
Proof. reflexivity. Qed.

(** A float with a mantissa of 24 digits is in the normal range. *)
Lemma tiny_false (s : bool) (m : positive) (e : Z) :
  Zpos (digits2_pos m) = 24 -> -149 <= e ->
  F32.tiny (S754_finite s m e) = false.
Proof. intros Hd He. cbn [F32.tiny]. rewrite Hd. apply Z.leb_gt. lia. Qed.

(** For a float [x] in [[0, 1]], [1 - (1 - x)] is a float within [2^-25]
    of [x]; neither difference is a subnormal number. *)
Theorem sub_one_sub_one (x : spec_float) :
  valid_binary F32.prec F32.emax x = true ->
  SFleb (S754_zero false) x = true ->
  SFleb x f32_one = true ->
  let r := SFsub F32.prec F32.emax f32_one
                 (SFsub F32.prec F32.emax f32_one x) in
  is_finite r = true /\ Z.abs (ulps r - ulps x) <= 2 ^ 124
  /\ F32.tiny (SFsub F32.prec F32.emax f32_one x) = false
  /\ F32.tiny r = false.
Proof.
  intros Hv H0 H1. cbv zeta.
  destruct x as [s | s | | s m e]; try (destruct s; discriminate);
    try discriminate.
  - (* zero *)
    destruct s;
      (split; [reflexivity | split; [simpl; lia | split; reflexivity]]).
  - destruct s; [discriminate |].
    apply valid_finite in Hv. destruct Hv as [Hc He].
    pose proof (digits2_pos_bounds m) as Hd.
    set (d := Zpos (digits2_pos m)) in *.
    assert (Hd1 : 1 <= d) by (unfold d; lia).
    unfold SFleb, SFcompare, f32_one in H1.
    destruct (Z.compare_spec e (-23)) as [E | E | E]; try discriminate.
    + (* e = -23: x = 1 *)
      assert (d = 24) by lia.
      assert (Zpos m = 2 ^ 23).
      { assert (Hle : (m <= 8388608)%positive).
        { unfold Pos.le, Pos.compare.
          destruct (Pos.compare_cont Eq m 8388608); congruence. }
        replace (d - 1) with 23 in Hd by lia.
        change (2 ^ 23) with (Zpos 8388608) in *. lia. }
      assert (m = 8388608%positive) by (change (2 ^ 23) with (Zpos 8388608) in *; lia).
      subst m e.
      split; [reflexivity | split; [simpl; lia | split; reflexivity]].
    + destruct (Z.eq_dec e (-24)) as [E24 | E24].
      * (* 1/2 <= x < 1: both subtractions are exact *)
        subst e. assert (Hd24 : d = 24) by lia.
        rewrite Hd24 in Hd. change (24 - 1) with 23 in Hd.
        destruct (sub_one_upper Hd) as (m' & e' & Hy & Hd' & He' & Hm').
        rewrite Hy.
        assert (Hr : SFsub F32.prec F32.emax f32_one (S754_finite false m' e')
                     = S754_finite false m (-24)).
        { destruct (Z.eq_dec e' (-24)) as [E' | E'].
          - subst e'. change (-24 - -24) with 0 in Hm'.
            assert (Hb : 2 ^ 23 <= Zpos m' < 2 ^ 24).
            { pose proof (digits2_pos_bounds m') as Hb. rewrite Hd' in Hb.
              exact Hb. }
            destruct (sub_one_upper Hb) as (m'' & e'' & Hr & Hd'' & He'' & Hm'').
            rewrite Hr.
            assert (Em : Zpos m'' = Zpos m * 2 ^ (-24 - e'')) by (rewrite Hm''; f_equal; lia).
            pose proof (digits2_pos_bounds m'') as Hb''. rewrite Hd'' in Hb''.
            assert (e'' = -24).
            { destruct (Z.eq_dec e'' (-24)); [assumption | exfalso].
              assert (2 ^ 1 <= 2 ^ (-24 - e'')) by (apply Z.pow_le_mono_r; lia).
              change (2 ^ 1) with 2 in *. nia. }
            subst e''. change (-24 - -24) with 0 in Em.
            f_equal. lia.
          - destruct (@sub_one_lower m' e' ltac:(lia)) as (m1 & Hr1 & _ & Hex & Hr).
            { pose proof (digits2_pos_bounds m') as Hb. rewrite Hd' in Hb. lia. }
            rewrite Hr.
            assert (Ep : 2 ^ (- e') = 2 ^ 24 * 2 ^ (-24 - e'))
              by (rewrite <- pow2_split by lia; f_equal; lia).
            assert (0 < 2 ^ (-24 - e')) by (apply Z.pow_pos_nonneg; lia).
            assert (Em1 : m1 = Zpos m).
            { assert (Hdv : (2 ^ (-24 - e') | 2 ^ (- e') - Zpos m')).
              { exists (Zpos m). rewrite Ep, Hm'. ring. }
              apply Hex in Hdv. rewrite Ep, Hm' in Hdv. nia. }
            rewrite Em1.
            destruct (Z.eqb_spec (Zpos m) (2 ^ 24)); [lia | reflexivity]. }
        rewrite Hr. split; [reflexivity |].
        split; [| split; apply tiny_false; (assumption || lia)].
        rewrite Z.sub_diag. simpl. lia.
      * (* 0 < x < 1/2: the first subtraction rounds, the second is exact *)
        assert (He25 : -149 <= e <= -25) by lia.
        assert (Hm24 : Zpos m < 2 ^ 24).
        { assert (d <= 24) by lia.
          assert (2 ^ d <= 2 ^ 24) by (apply Z.pow_le_mono_r; lia). lia. }
        destruct (sub_one_lower He25 Hm24) as (m1 & Hr1 & Habs & _ & Hy).
        rewrite Hy.
        assert (Ea : 2 ^ 124 = 2 ^ (e + 149) * 2 ^ (-25 - e))
          by (rewrite <- pow2_split by lia; f_equal; lia).
        assert (Eb : 2 ^ (-24 - e) = 2 * 2 ^ (-25 - e)).
        { replace (-24 - e) with (Z.succ (-25 - e)) by lia.
          apply Z.pow_succ_r. lia. }
        assert (Ec : 2 ^ (- e) = 2 ^ 24 * 2 ^ (-24 - e))
          by (rewrite <- pow2_split by lia; f_equal; lia).
        assert (Hpa : 0 < 2 ^ (e + 149)) by (apply Z.pow_pos_nonneg; lia).
        assert (Hpc : 0 < 2 ^ (-25 - e)) by (apply Z.pow_pos_nonneg; lia).
        destruct (Z.eqb_spec m1 (2 ^ 24)) as [E1 | E1].
        -- rewrite sub_one_one. split; [reflexivity |].
           split; [| split; reflexivity].
           cbn [ulps]. rewrite E1, <- Ec in Habs.
           rewrite Ea. nia.
        -- assert (Hb : 2 ^ 23 <= Zpos (Z.to_pos m1) < 2 ^ 24)
             by (rewrite Z2Pos.id; lia).
           destruct (sub_one_upper Hb) as (m'' & e'' & Hr & Hd'' & He'' & Hm'').
           rewrite Hr. split; [reflexivity |].
           split;
             [| split; apply tiny_false;
                  (assumption || lia
                   || (apply digits2_pos_unique; exact Hb))].
           cbn [ulps]. rewrite Hm'', Z2Pos.id by lia.
           assert (Ed : 2 ^ (-24 - e'') * 2 ^ (e'' + 149) = 2 ^ 125)
             by (rewrite <- pow2_split by lia; f_equal; lia).
           assert (Ee : 2 ^ 125 = 2 ^ (e + 149) * 2 ^ (-24 - e))
             by (rewrite <- pow2_split by lia; f_equal; lia).
           replace (1 * ((2 ^ 24 - m1) * 2 ^ (-24 - e'')) * 2 ^ (e'' + 149))
             with ((2 ^ 24 - m1) * 2 ^ 125) by (rewrite <- Ed; ring).
           rewrite Ee, Ea.
           replace ((2 ^ 24 - m1) * (2 ^ (e + 149) * 2 ^ (-24 - e))
                    - 1 * Z.pos m * 2 ^ (e + 149))
             with (- (2 ^ (e + 149)
                      * (m1 * 2 ^ (-24 - e) - (2 ^ (- e) - Z.pos m))))
             by (rewrite Ec; ring).
           rewrite Z.abs_opp, Z.abs_mul, (Z.abs_eq (2 ^ (e + 149))) by lia.
           apply Z.mul_le_mono_nonneg_l; lia.
Qed.

(** A subnormal float has the smallest exponent and a short mantissa;
    every other finite float other than zero has a mantissa of 24
    digits. *)
Lemma valid_tiny (s : bool) (m : positive) (e : Z) :
  valid_binary F32.prec F32.emax (S754_finite s m e) = true ->
  F32.tiny (S754_finite s m e) = true ->
  e = -149 /\ Zpos m < 2 ^ 23.
Proof.
  intros Hv Ht. apply valid_finite in Hv. destruct Hv as [Hc _].
  cbn [F32.tiny] in Ht. apply Z.leb_le in Ht.
  pose proof (digits2_pos_bounds m) as [_ Hd].
  split; [lia |].
  assert (2 ^ Zpos (digits2_pos m) <= 2 ^ 23) by (apply Z.pow_le_mono_r; lia).
  lia.
Qed.

Lemma valid_normal (s : bool) (m : positive) (e : Z) :
  valid_binary F32.prec F32.emax (S754_finite s m e) = true ->
  F32.tiny (S754_finite s m e) = false ->
  -149 <= e /\ 2 ^ 23 <= Zpos m.
Proof.
  intros Hv Ht. apply valid_finite in Hv. destruct Hv as [Hc _].
  cbn [F32.tiny] in Ht. apply Z.leb_gt in Ht.
  pose proof (digits2_pos_bounds m) as [Hd _].
  split; [lia |].
  replace (Zpos (digits2_pos m)) with 24 in Hd by lia. exact Hd.
Qed.

(** Flushing keeps the order of floats: what is below stays below or
    becomes equal. *)
Lemma SFleb_flush (a b : spec_float) :
  valid_binary F32.prec F32.emax a = true ->
  valid_binary F32.prec F32.emax b = true ->
  SFleb a b = true -> SFleb (F32.f32_flush a) (F32.f32_flush b) = true.
Proof.
  intros Va Vb H. unfold F32.f32_flush.
  destruct (F32.tiny a) eqn:Ta, (F32.tiny b) eqn:Tb.
  - reflexivity.
  - destruct a as [sa | sa | | sa ma ea]; try discriminate.
    cbn [F32.sign_of]. unfold SFleb, SFcompare in H |- *.
    destruct b as [sb | sb | | sb mb eb]; try reflexivity; try discriminate.
    + destruct sb; [discriminate | reflexivity].
    + destruct (valid_tiny _ _ _ Va Ta) as [Ea Ma].
      destruct (valid_normal _ _ _ Vb Tb) as [Eb Mb].
      destruct sb; [exfalso | reflexivity].
      destruct sa; [| discriminate].
      change (Pos.compare_cont Eq ma mb) with (Pos.compare ma mb) in H.
      destruct (Z.compare_spec ea eb); try discriminate; try lia.
      destruct (Pos.compare_spec ma mb); simpl in H; try discriminate; lia.
  - destruct b as [sb | sb | | sb mb eb]; try discriminate.
    cbn [F32.sign_of]. unfold SFleb, SFcompare in H |- *.
    destruct a as [sa | sa | | sa ma ea]; try reflexivity; try discriminate.
    + destruct sa; [reflexivity | discriminate].
    + destruct (valid_tiny _ _ _ Vb Tb) as [Eb Mb].
      destruct (valid_normal _ _ _ Va Ta) as [Ea Ma].
      destruct sa; [reflexivity | exfalso].
      destruct sb; [discriminate |].
      change (Pos.compare_cont Eq ma mb) with (Pos.compare ma mb) in H.
      destruct (Z.compare_spec ea eb); try discriminate; try lia.
      destruct (Pos.compare_spec ma mb); simpl in H; try discriminate; lia.
  - exact H.
Qed.

End Binary32Rounding.

(** ** [prune_outside_window] and subnormal numbers *)

(** The inclusive bounds test in the order of the numbers themselves,
    where a subnormal number is not zero. *)
Definition ieee_in_window (W : window F32.dt) (p : F32.dt * F32.dt) : bool :=
  (SFleb (win_y_min W) (fst p) && SFleb (fst p) (win_y_max W))
  && (SFleb (win_x_min W) (snd p) && SFleb (snd p) (win_x_max W)).

(** The bounds of the window and the coordinates of the keypoint all pass
    the test [ok]. *)
Definition all_numbers (ok : F32.dt -> bool) (W : window F32.dt)
  (p : F32.dt * F32.dt) : bool :=
  window_numbers ok W && ok (fst p) && ok (snd p).

Lemma all_numbers_true (ok : F32.dt -> bool) (W : window F32.dt)
  (p : F32.dt * F32.dt) :
  all_numbers ok W p = true ->
  (ok (win_y_min W) = true /\ ok (win_x_min W) = true
   /\ ok (win_y_max W) = true /\ ok (win_x_max W) = true)
  /\ ok (fst p) = true /\ ok (snd p) = true.
Proof.
  unfold all_numbers, window_numbers. rewrite !andb_true_iff. tauto.
Qed.

(** A keypoint of floats that is in the window is in the window for the
    kernels too ... *)
Lemma in_window_of_ieee (W : window F32.dt) (p : F32.dt * F32.dt) :
  all_numbers f32_float W p = true ->
  ieee_in_window W p = true -> in_window W p = true.
Proof.
  intros Hv. apply all_numbers_true in Hv.
  destruct Hv as ((V1 & V2 & V3 & V4) & V5 & V6).
  unfold ieee_in_window, in_window. rewrite !andb_true_iff.
  intros [[H1 H2] [H3 H4]].
  repeat split; now apply SFleb_flush.
Qed.

(** ... and without subnormal numbers the two tests are one. *)
Lemma in_window_normal (W : window F32.dt) (p : F32.dt * F32.dt) :
  all_numbers f32_normal W p = true -> in_window W p = ieee_in_window W p.
Proof.
  intros Hn. apply all_numbers_true in Hn.
  destruct Hn as ((N1 & N2 & N3 & N4) & N5 & N6).
  unfold f32_normal in *. apply negb_true_iff in N1, N2, N3, N4, N5, N6.
  unfold in_window, ieee_in_window.
  change (@leb F32.dt) with F32.f32_leb. unfold F32.f32_leb.
  now rewrite !F32.f32_flush_not_tiny by assumption.
Qed.

(** C3, as stated, fails on a subnormal number: in the window
    [0, 0, 1, 1] the keypoint [(1/2, -2^-149)] has its [x] below [x_min],
    and is returned unchanged, for the comparison [x >= x_min] reads
    [-2^-149] as zero. *)
Lemma prune_outside_window_keeps_subnormal :
  SFltb f_neg_min (win_x_min unit_window) = true
  /\ ieee_in_window unit_window (f_half, f_neg_min) = false
  /\ prune_outside_window (one_keypoint f_half f_neg_min) unit_window
     = one_keypoint f_half f_neg_min.
Proof. repeat split. Qed.

(** C3, amended.  [prune_outside_window K W] has the shape of [K]; a
    keypoint that passes the inclusive bounds test of the window as the
    kernels compute it, subnormal numbers being read as zero, is returned
    unchanged, and every other keypoint is returned with both coordinates
    NaN.  On floats of binary32: a keypoint whose [y] lies in
    [[y_min, y_max]] and whose [x] lies in [[x_min, x_max]] is returned
    unchanged; a keypoint outside these bounds is returned with both
    coordinates NaN when neither its coordinates nor the bounds are
    subnormal. *)
Theorem prune_outside_window_spec :
  (forall (D : dtype) (K : keypoints D) (W : window D),
     shape (prune_outside_window K W) = shape K
     /\ (forall i k, tget K i k = None ->
                     tget (prune_outside_window K W) i k = None)
     /\ (forall i k p, tget K i k = Some p ->
           (in_window W p = true ->
            tget (prune_outside_window K W) i k = Some p)
           /\ (in_window W p = false ->
               exists y' x',
                 tget (prune_outside_window K W) i k = Some (y', x')
                 /\ is_nan y' = true /\ is_nan x' = true)))
  /\ (forall (K : keypoints F32.dt) (W : window F32.dt) i k p,
        tget K i k = Some p ->
        all_numbers f32_float W p = true ->
        (ieee_in_window W p = true ->
         tget (prune_outside_window K W) i k = Some p)
        /\ (ieee_in_window W p = false ->
            all_numbers f32_normal W p = true ->
            exists y' x',
              tget (prune_outside_window K W) i k = Some (y', x')
              /\ is_nan y' = true /\ is_nan x' = true)).
Proof.
  assert (Hcell : forall (D : dtype) (K : keypoints D) (W : window D) i k p,
            tget K i k = Some p ->
            (in_window W p = true ->
             tget (prune_outside_window K W) i k = Some p)
            /\ (in_window W p = false ->
                exists y' x',
                  tget (prune_outside_window K W) i k = Some (y', x')
                  /\ is_nan y' = true /\ is_nan x' = true)).
  { intros D K W i k p H.
    rewrite prune_outside_window_cells, tget_tmap, H. simpl.
    unfold prune_cell. split.
    - intros E. now rewrite E.
    - intros E. rewrite E. eexists _, _. split; [reflexivity |].
      split; apply pruned_value_is_nan. }
  split.
  - intros D K W. split; [now rewrite prune_outside_window_cells |]. split.
    + intros i k H. now rewrite prune_outside_window_cells, tget_tmap, H.
    + intros i k p H. now apply Hcell.
  - intros K W i k p H Hv. destruct (Hcell F32.dt K W i k p H) as [Hin Hout].
    split.
    + intros E. apply Hin. now apply in_window_of_ieee.
    + intros E Hn. apply Hout. now rewrite in_window_normal.
Qed.

(** In the window [0, 0, 1, 1], of the keypoints [(1/2, 1)] and [(1/2, 2)]
    the first is kept and the second becomes [(NaN, NaN)]. *)
Lemma prune_outside_window_spec_witness :
  tget (prune_outside_window
          {| dim0 := 1; dim1 := 2;
             rows := [[(f_half, f_1); (f_half, f_2)]] |} unit_window) 0 0
  = Some (f_half, f_1)
  /\ exists y' x',
       tget (prune_outside_window
               {| dim0 := 1; dim1 := 2;
                  rows := [[(f_half, f_1); (f_half, f_2)]] |} unit_window) 0 1
       = Some (y', x')
       /\ is_nan y' = true /\ is_nan x' = true.
Proof.
  pose proof (proj2 prune_outside_window_spec
                {| dim0 := 1; dim1 := 2;
                   rows := [[(f_half, f_1); (f_half, f_2)]] |} unit_window)
    as H.
  split.
  - apply (H 0 0 (f_half, f_1)); reflexivity.
  - apply (H 0 1 (f_half, f_2)); reflexivity.
Defined.

(** ** [rot90] *)

(** Both coordinates of every keypoint pass the test [in_unit]. *)
Definition in_unit_square {D : dtype} (in_unit : D -> bool) (K : keypoints D)
  : bool :=
  forallb (forallb (fun p => in_unit (fst p) && in_unit (snd p))%bool)
          (rows K).

(** The test for [[0, 1]] without rounding, and on floats, where the
    element has to be a float of binary32 as well. *)
Definition x_in_unit (v : Exact.dt) : bool :=
  (leb (Exact.of_Q 0) v && leb v (Exact.of_Q 1))%bool.

Definition f32_in_unit (v : F32.dt) : bool :=
  (valid_binary F32.prec F32.emax v && leb f_0 v && leb v f_1)%bool.

(** The float [a] is within [2^-25] of the float [b]: [2^124] times the
    smallest positive float [2^-149]. *)
Definition f32_close (a b : F32.dt) : Prop :=
  is_finite a = true /\ (Z.abs (ulps a - ulps b) <= 2 ^ 124)%Z.

Lemma in_unit_square_tget (D : dtype) (in_unit : D -> bool) (K : keypoints D)
  (i k : nat) (p : D * D) :
  in_unit_square in_unit K = true -> tget K i k = Some p ->
  in_unit (fst p) = true /\ in_unit (snd p) = true.
Proof.
  unfold in_unit_square, tget. intros H Hget.
  destruct (nth_error (rows K) i) as [r |] eqn:Er; [| discriminate].
  rewrite forallb_forall in H. specialize (H r (nth_error_In _ _ Er)).
  rewrite forallb_forall in H. specialize (H p (nth_error_In _ _ Hget)).
  now apply andb_true_iff in H.
Qed.

(** Four rotations, for every element type. *)
Definition rot90_cell_4 {D : dtype} (p : D * D) : D * D :=
  (sub one (sub one (fst p)), sub one (sub one (snd p))).

Lemma rot90_four_times_cells (D : dtype) (K : keypoints D) :
  wf K ->
  (K1 <- rot90 K None ;; K2 <- rot90 K1 None ;;
   K3 <- rot90 K2 None ;; rot90 K3 None)
  = Ok (tmap rot90_cell_4 K).
Proof.
  intros HK. rewrite (rot90_cells HK), bind_Ok.
  rewrite rot90_cells, bind_Ok by (now apply wf_tmap).
  rewrite rot90_cells, bind_Ok by (now repeat apply wf_tmap).
  rewrite rot90_cells by (now repeat apply wf_tmap).
  now rewrite !tmap_tmap.
Qed.

(** Without rounding four rotations return the keypoints, whatever their
    coordinates. *)
Lemma rot90_four_times_exact (K : keypoints Exact.dt) :
  wf K ->
  (K1 <- rot90 K None ;; K2 <- rot90 K1 None ;;
   K3 <- rot90 K2 None ;; rot90 K3 None)
  = Ok K.
Proof.
  intros HK. rewrite (rot90_four_times_cells HK).
  f_equal. apply tmap_id. intros [y x]. unfold rot90_cell_4. cbn [fst snd].
  change (@sub Exact.dt) with Exact.x_sub.
  change (@one Exact.dt) with (Exact.XFin 1%Qc).
  now rewrite !x_sub_sub.
Qed.

(** The two differences as the kernels compute them: [x] is read
    flushed, and nothing else is. *)
Lemma f32_sub_one_sub_one (x : F32.dt) :
  valid_binary F32.prec F32.emax x = true ->
  leb f_0 x = true -> leb x f_1 = true ->
  f32_close (sub one (sub one x)) x.
Proof.
  intros Hv H0 H1.
  change (SFleb (S754_zero false) (F32.f32_flush x) = true) in H0.
  change (SFleb (F32.f32_flush x) f32_one = true) in H1.
  change (f32_close
            (F32.f32_flush
               (SFsub F32.prec F32.emax f32_one
                  (F32.f32_flush
                     (F32.f32_flush
                        (SFsub F32.prec F32.emax f32_one
                               (F32.f32_flush x)))))) x).
  assert (Hvf : valid_binary F32.prec F32.emax (F32.f32_flush x) = true).
  { unfold F32.f32_flush. now destruct (F32.tiny x). }
  destruct (@sub_one_sub_one (F32.f32_flush x) Hvf H0 H1)
    as (Hfin & Habs & Ht1 & Ht2).
  rewrite !(F32.f32_flush_not_tiny _ Ht1), (F32.f32_flush_not_tiny _ Ht2).
  destruct (F32.tiny x) eqn:Et.
  - destruct x as [s | s | | s m e]; try discriminate.
    unfold F32.f32_flush. rewrite Et. cbn [F32.sign_of].
    replace (SFsub F32.prec F32.emax f32_one
               (SFsub F32.prec F32.emax f32_one (S754_zero s)))
      with (S754_zero false) by (now destruct s).
    split; [reflexivity |]. cbn [ulps].
    apply valid_finite in Hv. destruct Hv as [Hc _].
    cbn [F32.tiny] in Et. apply Z.leb_le in Et.
    pose proof (digits2_pos_bounds m) as [_ Hd].
    set (d := Zpos (digits2_pos m)) in *.
    assert (Hd1 : (1 <= d)%Z) by (unfold d; lia).
    assert (Hp : (2 ^ d * 2 ^ (e + 149) = 2 ^ (d + e + 149))%Z)
      by (rewrite <- Z.pow_add_r by lia; f_equal; lia).
    assert (Hq : (2 ^ (d + e + 149) <= 2 ^ 23)%Z)
      by (apply Z.pow_le_mono_r; lia).
    assert (H0' : (0 < 2 ^ (e + 149))%Z) by (apply Z.pow_pos_nonneg; lia).
    assert (Hr : (2 ^ 23 <= 2 ^ 124)%Z) by (apply Z.pow_le_mono_r; lia).
    destruct s; nia.
  - rewrite (F32.f32_flush_not_tiny _ Et) in Hfin, Habs |- *.
    exact (conj Hfin Habs).
Qed.

(** On floats in [[0, 1]] four rotations return each coordinate within
    [2^-25]. *)
Lemma rot90_four_times_f32_close (K : keypoints F32.dt) :
  wf K -> in_unit_square f32_in_unit K = true ->
  exists K',
    (K1 <- rot90 K None ;; K2 <- rot90 K1 None ;;
     K3 <- rot90 K2 None ;; rot90 K3 None)
    = Ok K'
    /\ shape K' = shape K
    /\ forall i k y x,
         tget K i k = Some (y, x) ->
         exists y' x',
           tget K' i k = Some (y', x') /\ f32_close y' y /\ f32_close x' x.
Proof.
  intros HK Hu. eexists. split; [now apply rot90_four_times_cells |].
  split; [reflexivity |].
  intros i k y x Hget. rewrite tget_tmap, Hget. simpl.
  eexists _, _. split; [reflexivity |].
  destruct (in_unit_square_tget _ _ _ _ Hu Hget) as [Hy Hx].
  unfold f32_in_unit in Hy, Hx. cbn [fst snd] in Hy, Hx.
  apply andb_true_iff in Hy, Hx. destruct Hy as [Hy Hy1], Hx as [Hx Hx1].
  apply andb_true_iff in Hy, Hx. destruct Hy as [Hyv Hy0], Hx as [Hxv Hx0].
  split; [exact (@f32_sub_one_sub_one y Hyv Hy0 Hy1)
         | exact (@f32_sub_one_sub_one x Hxv Hx0 Hx1)].
Qed.

(** C5.  Without permutation, [rot90] maps each keypoint [(y, x)] to
    [(1 - x, y)], for every element type.  Applied four times to keypoints
    with coordinates in [[0, 1]] it returns them: exactly without
    rounding, and on floats of binary32 with each coordinate within
    [2^-25] of the original. *)
Theorem rot90_four_times :
  (forall (D : dtype) (K : keypoints D),
     wf K ->
     exists K',
       rot90 K None = Ok K'
       /\ shape K' = shape K
       /\ forall i k y x,
            tget K i k = Some (y, x) ->
            tget K' i k = Some (sub one x, y))
  /\ (forall K : keypoints Exact.dt,
        wf K -> in_unit_square x_in_unit K = true ->
        (K1 <- rot90 K None ;; K2 <- rot90 K1 None ;;
         K3 <- rot90 K2 None ;; rot90 K3 None)
        = Ok K)
  /\ (forall K : keypoints F32.dt,
        wf K -> in_unit_square f32_in_unit K = true ->
        exists K',
          (K1 <- rot90 K None ;; K2 <- rot90 K1 None ;;
           K3 <- rot90 K2 None ;; rot90 K3 None)
          = Ok K'
          /\ shape K' = shape K
          /\ forall i k y x,
               tget K i k = Some (y, x) ->
               exists y' x',
                 tget K' i k = Some (y', x')
                 /\ f32_close y' y /\ f32_close x' x).
Proof.
  split; [| split].
  - intros D K HK. eexists.
    split; [now apply rot90_cells |]. split; [reflexivity |].
    intros i k y x H. now rewrite tget_tmap, H.
  - intros K HK _. now apply rot90_four_times_exact.
  - exact rot90_four_times_f32_close.
Qed.

Lemma wf_one_keypoint (y x : F32.dt) : wf (one_keypoint y x).
Proof. split; [reflexivity | repeat constructor]. Qed.

Lemma rot90_four_times_witness :
  (K1 <- rot90 (x_keypoint (1 # 5) (3 # 10)) None ;;
   K2 <- rot90 K1 None ;; K3 <- rot90 K2 None ;; rot90 K3 None)
  = Ok (x_keypoint (1 # 5) (3 # 10))
  /\ exists K',
       (K1 <- rot90 (one_keypoint f_tiny f_half) None ;;
        K2 <- rot90 K1 None ;; K3 <- rot90 K2 None ;; rot90 K3 None)
       = Ok K'
       /\ shape K' = shape (one_keypoint f_tiny f_half)
       /\ forall i k y x,
            tget (one_keypoint f_tiny f_half) i k = Some (y, x) ->
            exists y' x',
              tget K' i k = Some (y', x')
              /\ f32_close y' y /\ f32_close x' x.
Proof.
  split.
  - apply (proj1 (proj2 rot90_four_times) (x_keypoint (1 # 5) (3 # 10))
             (wf_x_keypoint (1 # 5) (3 # 10))).
    reflexivity.
  - apply (proj2 (proj2 rot90_four_times) (one_keypoint f_tiny f_half)
             (wf_one_keypoint f_tiny f_half)).
    reflexivity.
Defined.

(** ** Products and quotients in binary32 *)

Section Binary32RoundTrip.
Local Open Scope Z_scope.

(** The lemmas on rounding are proved for every upper bound [emx] of the
    exponents: they are used with that of binary32 and with the wide one
    through which the kernels look at a product or a quotient. *)

(** A mantissa at its canonical exponent is not shifted. *)
Lemma shr_fexp_canonical (emx : Z) (m : positive) (e : Z) :
  fexp F32.prec emx (Zpos (digits2_pos m) + e) = e ->
  shr_fexp F32.prec emx (Zpos m) e loc_Exact
  = (Build_shr_record (Zpos m) false false, e).
Proof.
  intros Hc. unfold shr_fexp. cbn [Zdigits2].
  rewrite Hc, Z.sub_diag. reflexivity.
Qed.

(** The mantissa [P] shifted down by [n] bits and rounded to nearest,
    ties to even. *)
Definition round_shift (P : Z) (n : positive) : Z :=
  let mrs := iter_pos shr_1 n (Build_shr_record P false false) in
  round_nearest_even (shr_m mrs) (loc_of_shr_record mrs).

Lemma round_shift_spec (P n : positive) :
  Zpos (digits2_pos P) = 24 + Zpos n ->
  2 ^ 23 <= round_shift (Zpos P) n <= 2 ^ 24
  /\ Z.abs (round_shift (Zpos P) n * 2 ^ Zpos n - Zpos P) <= 2 ^ (Zpos n - 1).
Proof.
  intros Hd. unfold round_shift.
  set (mrs := iter_pos shr_1 n (Build_shr_record (Zpos P) false false)).
  pose proof (@shifted_iter_pos (Zpos P) n ltac:(lia)) as Hsh. fold mrs in Hsh.
  pose proof (@round_shifted (Zpos P) (Zpos n) mrs ltac:(lia) Hsh) as Hrd.
  cbv zeta in Hrd. destruct Hrd as (Hq & Habs & _).
  split; [| exact Habs].
  pose proof (digits2_pos_bounds P) as Hb. rewrite Hd in Hb.
  destruct Hsh as (t & Hq0 & Ht & HmN & _).
  assert (Hp : 2 ^ Zpos n = 2 * 2 ^ (Zpos n - 1)).
  { replace (Zpos n) with (Z.succ (Zpos n - 1)) at 1 by lia.
    apply Z.pow_succ_r. lia. }
  assert (E1 : 2 ^ (24 + Zpos n - 1) = 2 ^ 23 * 2 ^ Zpos n)
    by (rewrite <- pow2_split by lia; f_equal; lia).
  assert (E2 : 2 ^ (24 + Zpos n) = 2 ^ 24 * 2 ^ Zpos n)
    by (rewrite <- pow2_split by lia; f_equal; lia).
  assert (0 < 2 ^ (Zpos n - 1)) by (apply Z.pow_pos_nonneg; lia).
  assert (0 <= (if shr_r mrs then 2 ^ (Zpos n - 1) else 0) + t < 2 ^ Zpos n)
    by (destruct (shr_r mrs); lia).
  assert (2 ^ 23 <= shr_m mrs < 2 ^ 24) by (split; nia).
  lia.
Qed.

(** Rounding a mantissa of [24 + n] digits where neither bound of the
    exponents is met: the result has the exponent [E + n], or [E + n + 1]
    when the mantissa is rounded up to [2^24]. *)
Lemma binary_round_aux_normal (emx : Z) (s : bool) (P : positive) (E : Z)
  (n : positive) :
  Zpos (digits2_pos P) = 24 + Zpos n ->
  3 - emx - 24 <= E + Zpos n ->
  E + Zpos n + 1 <= emx - 24 ->
  binary_round_aux F32.prec emx s (Zpos P) E loc_Exact
  = if round_shift (Zpos P) n =? 2 ^ 24
    then S754_finite s 8388608 (E + Zpos n + 1)
    else S754_finite s (Z.to_pos (round_shift (Zpos P) n)) (E + Zpos n).
Proof.
  intros Hd Hlo Hhi.
  destruct (@round_shift_spec P n Hd) as [Hr _].
  unfold binary_round_aux, shr_fexp at 1. cbn [Zdigits2]. rewrite Hd.
  replace (fexp F32.prec emx (24 + Zpos n + E) - E) with (Zpos n)
    by (unfold fexp, emin, F32.prec; lia).
  cbn [shr_record_of_loc shr].
  fold (round_shift (Zpos P) n).
  set (m1 := round_shift (Zpos P) n) in *.
  destruct (Z.eqb_spec m1 (2 ^ 24)) as [E1 | E1].
  - rewrite E1. change (2 ^ 24) with (Zpos 16777216).
    unfold shr_fexp. cbn [Zdigits2].
    change (Zpos (digits2_pos 16777216)) with 25.
    replace (fexp F32.prec emx (25 + (E + Zpos n)) - (E + Zpos n)) with 1
      by (unfold fexp, emin, F32.prec; lia).
    cbn. replace (E + Zpos n + 1 <=? emx - F32.prec) with true; [reflexivity |].
    symmetry. apply Z.leb_le. unfold F32.prec. lia.
  - assert (Hp : exists p1, m1 = Zpos p1).
    { destruct m1 as [| p | p]; try lia. now exists p. }
    destruct Hp as [p1 Hp]. rewrite Hp.
    assert (Hd1 : Zpos (digits2_pos p1) = 24)
      by (apply digits2_pos_unique; lia).
    rewrite (@shr_fexp_canonical emx p1).
    2:{ rewrite Hd1. unfold fexp, emin, F32.prec. lia. }
    cbn [shr_m Z.to_pos].
    replace (E + Zpos n <=? emx - F32.prec) with true; [reflexivity |].
    symmetry. apply Z.leb_le. unfold F32.prec. lia.
Qed.

Definition sgn (s : bool) : Z := if s then -1 else 1.

Lemma sgn_xorb (a b : bool) : sgn (xorb a b) = sgn a * sgn b.
Proof. now destruct a, b. Qed.

Lemma abs_sgn (s : bool) (x : Z) : Z.abs (sgn s * x) = Z.abs x.
Proof. destruct s; unfold sgn; lia. Qed.

(** The float that [round_shift] stands for. *)
Definition rounded (s : bool) (m1 e : Z) : spec_float :=
  if m1 =? 2 ^ 24 then S754_finite s 8388608 (e + 1)
  else S754_finite s (Z.to_pos m1) e.

Lemma ulps_rounded (s : bool) (m1 e : Z) :
  2 ^ 23 <= m1 <= 2 ^ 24 -> -149 <= e ->
  ulps (rounded s m1 e) = sgn s * m1 * 2 ^ (e + 149).
Proof.
  intros Hm He. unfold rounded, sgn.
  destruct (Z.eqb_spec m1 (2 ^ 24)) as [E | E]; cbn [ulps].
  - rewrite E. replace (e + 1 + 149) with (Z.succ (e + 149)) by lia.
    rewrite Z.pow_succ_r by lia. change (Z.pos 8388608) with (2 ^ 23).
    change (2 ^ 24) with (2 * 2 ^ 23). ring.
  - rewrite Z2Pos.id by lia. reflexivity.
Qed.

Lemma rounded_normal (s : bool) (m1 e : Z) :
  2 ^ 23 <= m1 <= 2 ^ 24 -> -149 <= e ->
  exists m' e', rounded s m1 e = S754_finite s m' e'
    /\ Zpos (digits2_pos m') = 24 /\ e <= e' <= e + 1.
Proof.
  intros Hm He. unfold rounded.
  destruct (Z.eqb_spec m1 (2 ^ 24)) as [E | E].
  - eexists _, _. split; [reflexivity |]. split; [reflexivity | lia].
  - eexists _, _. split; [reflexivity |].
    split; [| lia]. apply digits2_pos_unique. rewrite Z2Pos.id by lia. lia.
Qed.

Lemma digits_mul (ma mb : positive) :
  Zpos (digits2_pos ma) = 24 -> Zpos (digits2_pos mb) = 24 ->
  exists n : positive,
    (Zpos n = 23 \/ Zpos n = 24)
    /\ Zpos (digits2_pos (ma * mb)) = 24 + Zpos n.
Proof.
  intros Ha Hb.
  pose proof (digits2_pos_bounds ma) as Ba. rewrite Ha in Ba.
  pose proof (digits2_pos_bounds mb) as Bb. rewrite Hb in Bb.
  pose proof (digits2_pos_bounds (ma * mb)) as Bp.
  rewrite Pos2Z.inj_mul in Bp.
  set (d := Zpos (digits2_pos (ma * mb))) in *.
  assert (Hd1 : 1 <= d) by (unfold d; lia).
  assert (L : 2 ^ 46 <= Zpos ma * Zpos mb).
  { change (2 ^ 46) with (2 ^ (24 - 1) * 2 ^ (24 - 1)). nia. }
  assert (U : Zpos ma * Zpos mb < 2 ^ 48).
  { change (2 ^ 48) with (2 ^ 24 * 2 ^ 24). nia. }
  assert (46 < d).
  { apply (Z.pow_lt_mono_r_iff 2); lia. }
  assert (d - 1 < 48).
  { apply (Z.pow_lt_mono_r_iff 2); lia. }
  assert (Hn : exists n, Zpos n = d - 24).
  { destruct (d - 24) as [| p | p] eqn:E; try lia. now exists p. }
  destruct Hn as [n Hn]. exists n. split; lia.
Qed.

Lemma SFmul_normal (emx : Z) (sa sb : bool) (ma mb : positive) (ea eb : Z)
  (n : positive) :
  Zpos (digits2_pos (ma * mb)) = 24 + Zpos n ->
  3 - emx - 24 <= ea + eb + Zpos n -> ea + eb + Zpos n + 1 <= emx - 24 ->
  SFmul F32.prec emx (S754_finite sa ma ea) (S754_finite sb mb eb)
  = rounded (xorb sa sb) (round_shift (Zpos (ma * mb)) n) (ea + eb + Zpos n).
Proof.
  intros Hd Hlo Hhi. unfold SFmul, rounded.
  now rewrite (@binary_round_aux_normal emx _ _ _ n Hd Hlo Hhi).
Qed.

(** The product of two normal floats through the kernel, when it stays
    in the normal range. *)
Lemma f32_mul_normal (sa sb : bool) (ma mb : positive) (ea eb : Z)
  (n : positive) :
  Zpos (digits2_pos ma) = 24 -> Zpos (digits2_pos mb) = 24 ->
  -149 <= ea -> -149 <= eb ->
  Zpos (digits2_pos (ma * mb)) = 24 + Zpos n ->
  -149 <= ea + eb + Zpos n -> ea + eb + Zpos n + 1 <= 104 ->
  @mul F32.dt (S754_finite sa ma ea) (S754_finite sb mb eb)
  = rounded (xorb sa sb) (round_shift (Zpos (ma * mb)) n) (ea + eb + Zpos n).
Proof.
  intros Ha Hb Ea Eb Hd Hlo Hhi.
  change (F32.flushed SFmul (F32.f32_flush (S754_finite sa ma ea))
                      (F32.f32_flush (S754_finite sb mb eb))
          = rounded (xorb sa sb) (round_shift (Zpos (ma * mb)) n)
                    (ea + eb + Zpos n)).
  rewrite !F32.f32_flush_not_tiny by (now apply tiny_false).
  unfold F32.flushed.
  rewrite (@SFmul_normal F32.wide_emax sa sb ma mb ea eb n Hd)
    by (unfold F32.wide_emax; lia).
  rewrite (@SFmul_normal F32.emax sa sb ma mb ea eb n Hd)
    by (unfold F32.emax; lia).
  destruct (@round_shift_spec (ma * mb) n Hd) as [Hr _].
  destruct (@rounded_normal (xorb sa sb) _ _ Hr Hlo) as (m' & e' & -> & Hd' & He').
  rewrite tiny_false by (assumption || lia). reflexivity.
Qed.

(** The rounding error of that product is at most [2^-24] of it: in
    units of [2^-149], with [2^149] for 1. *)
Lemma f32_mul_error (sa sb : bool) (ma mb : positive) (ea eb : Z)
  (n : positive) :
  Zpos (digits2_pos ma) = 24 -> Zpos (digits2_pos mb) = 24 ->
  -149 <= ea -> -149 <= eb ->
  Zpos (digits2_pos (ma * mb)) = 24 + Zpos n ->
  -149 <= ea + eb + Zpos n ->
  let a := S754_finite sa ma ea in
  let b := S754_finite sb mb eb in
  let r := rounded (xorb sa sb) (round_shift (Zpos (ma * mb)) n)
                   (ea + eb + Zpos n) in
  Z.abs (ulps r * 2 ^ 149 - ulps a * ulps b) * 2 ^ 24
  <= Z.abs (ulps a * ulps b).
Proof.
  intros Ha Hb Ea Eb Hd Hlo. cbv zeta.
  destruct (@round_shift_spec (ma * mb) n Hd) as [Hr Habs].
  rewrite (@ulps_rounded _ _ _ Hr Hlo). cbn [ulps]. fold (sgn sa) (sgn sb).
  set (m1 := round_shift (Zpos (ma * mb)) n) in *.
  rewrite sgn_xorb. rewrite Pos2Z.inj_mul in Habs.
  pose proof (digits2_pos_bounds (ma * mb)) as [Bp _].
  rewrite Hd, Pos2Z.inj_mul in Bp.
  replace (24 + Zpos n - 1) with (Zpos n - 1 + 24) in Bp by lia.
  rewrite pow2_split in Bp by lia.
  set (E := ea + eb + 298).
  assert (HE : 0 <= E) by (unfold E; lia).
  assert (P1 : 2 ^ (ea + eb + Zpos n + 149) * 2 ^ 149 = 2 ^ Zpos n * 2 ^ E).
  { rewrite <- !pow2_split by lia. f_equal. unfold E. lia. }
  assert (P2 : 2 ^ (ea + 149) * 2 ^ (eb + 149) = 2 ^ E).
  { rewrite <- pow2_split by lia. f_equal. unfold E. lia. }
  replace (sgn sa * sgn sb * m1 * 2 ^ (ea + eb + Zpos n + 149) * 2 ^ 149
           - sgn sa * Zpos ma * 2 ^ (ea + 149)
             * (sgn sb * Zpos mb * 2 ^ (eb + 149)))
    with (sgn sa * (sgn sb * ((m1 * 2 ^ Zpos n - Zpos ma * Zpos mb) * 2 ^ E))).
  2:{ transitivity (sgn sa * sgn sb
                     * (m1 * (2 ^ (ea + eb + Zpos n + 149) * 2 ^ 149)
                        - Zpos ma * Zpos mb
                          * (2 ^ (ea + 149) * 2 ^ (eb + 149)))).
      - rewrite P1, P2. ring.
      - ring. }
  replace (sgn sa * Zpos ma * 2 ^ (ea + 149)
           * (sgn sb * Zpos mb * 2 ^ (eb + 149)))
    with (sgn sa * (sgn sb * (Zpos ma * Zpos mb * 2 ^ E)))
    by (rewrite <- P2; ring).
  rewrite !abs_sgn.
  assert (HpE : 0 < 2 ^ E) by (apply Z.pow_pos_nonneg; lia).
  rewrite Z.abs_mul, (Z.abs_eq (2 ^ E)) by lia.
  rewrite (Z.abs_eq (Zpos ma * Zpos mb * 2 ^ E)) by nia.
  assert (Hh : 0 < 2 ^ (Zpos n - 1)) by (apply Z.pow_pos_nonneg; lia).
  assert (Hn : 2 ^ (Zpos n - 1) * 2 ^ 24 <= Zpos ma * Zpos mb) by lia.
  nia.
Qed.

(** The last step of a rounding: a mantissa of 24 digits is kept, the
    mantissa [2^24] becomes [2^23] at the next exponent. *)
Lemma binary_round_aux_finish (emx : Z) (s : bool) (m1 e : Z) :
  2 ^ 23 <= m1 <= 2 ^ 24 ->
  3 - emx - 24 <= e -> e + 1 <= emx - 24 ->
  (let '(mrs, e') := shr_fexp F32.prec emx m1 e loc_Exact in
   match shr_m mrs with
   | Z0 => S754_zero s
   | Zpos m => if e' <=? emx - F32.prec then S754_finite s m e'
               else S754_infinity s
   | Zneg _ => S754_nan
   end)
  = rounded s m1 e.
Proof.
  intros Hr Hlo Hhi. unfold rounded.
  destruct (Z.eqb_spec m1 (2 ^ 24)) as [E1 | E1].
  - rewrite E1. change (2 ^ 24) with (Zpos 16777216).
    unfold shr_fexp. cbn [Zdigits2].
    change (Zpos (digits2_pos 16777216)) with 25.
    replace (fexp F32.prec emx (25 + e) - e) with 1
      by (unfold fexp, emin, F32.prec; lia).
    cbn. replace (e + 1 <=? emx - F32.prec) with true; [reflexivity |].
    symmetry. apply Z.leb_le. unfold F32.prec. lia.
  - assert (Hp : exists p1, m1 = Zpos p1).
    { destruct m1 as [| p | p]; try lia. now exists p. }
    destruct Hp as [p1 Hp]. rewrite Hp.
    assert (Hd1 : Zpos (digits2_pos p1) = 24)
      by (apply digits2_pos_unique; lia).
    rewrite (@shr_fexp_canonical emx p1).
    2:{ rewrite Hd1. unfold fexp, emin, F32.prec. lia. }
    cbn [shr_m Z.to_pos].
    replace (e <=? emx - F32.prec) with true; [reflexivity |].
    symmetry. apply Z.leb_le. unfold F32.prec. lia.
Qed.

(** The quotient [2^47 / mh] rounded to nearest, ties to even. *)
Definition div_round (mh : positive) : Z :=
  let '(q, r) := Z.div_eucl (2 ^ 47) (Zpos mh) in
  round_nearest_even q (new_location (Zpos mh) r).

Lemma div_round_spec (mh : positive) :
  Zpos (digits2_pos mh) = 24 ->
  2 ^ 23 <= div_round mh <= 2 ^ 24
  /\ 2 * Z.abs (div_round mh * Zpos mh - 2 ^ 47) <= Zpos mh.
Proof.
  intros Hd. pose proof (digits2_pos_bounds mh) as Hb. rewrite Hd in Hb.
  change (24 - 1) with 23 in Hb.
  unfold div_round.
  pose proof (Z_div_mod (2 ^ 47) (Zpos mh) ltac:(lia)) as Hdiv.
  destruct (Z.div_eucl (2 ^ 47) (Zpos mh)) as [q r].
  destruct Hdiv as [Hq Hr].
  assert (E47 : 2 ^ 47 = 2 ^ 23 * 2 ^ 24) by reflexivity.
  assert (Hq1 : 2 ^ 23 <= q <= 2 ^ 24) by (split; nia).
  assert (Hq2 : q = 2 ^ 24 -> r = 0) by nia.
  assert (Hq3 : r <> 0 -> q < 2 ^ 24).
  { intros R0. destruct (Z.eq_dec q (2 ^ 24)); [tauto | lia]. }
  unfold new_location.
  destruct (Z.even (Zpos mh)) eqn:Ev;
    unfold new_location_even, new_location_odd;
    destruct (Z.eqb_spec r 0) as [R0 | R0].
  - subst r. cbn [round_nearest_even]. split; [lia | nia].
  - specialize (Hq3 R0).
    destruct (Z.compare_spec (2 * r) (Zpos mh)); cbn [round_nearest_even];
      try destruct (Z.even q); (split; [lia | nia]).
  - subst r. cbn [round_nearest_even]. split; [lia | nia].
  - specialize (Hq3 R0).
    assert (Hodd : 2 * r <> Zpos mh).
    { intros Heq. rewrite <- Heq, Z.even_mul in Ev. discriminate. }
    destruct (Z.compare_spec (2 * r + 1) (Zpos mh)); cbn [round_nearest_even];
      (split; [lia | nia]).
Qed.

Lemma shr_record_of_loc_inv (m : Z) (l : location) :
  shr_m (shr_record_of_loc m l) = m
  /\ loc_of_shr_record (shr_record_of_loc m l) = l.
Proof. destruct l as [| []]; now split. Qed.

(** [1 / h] for a normal [h]: the quotient of [2^47] by the mantissa,
    rounded, at the exponent [-47 - eh]. *)
Lemma SFdiv_one_normal (emx : Z) (sh : bool) (mh : positive) (eh : Z) :
  Zpos (digits2_pos mh) = 24 ->
  3 - emx - 24 <= -47 - eh -> -47 - eh + 2 <= emx - 24 ->
  SFdiv F32.prec emx f32_one (S754_finite sh mh eh)
  = rounded sh (div_round mh) (-47 - eh).
Proof.
  intros Hd Hlo Hhi.
  pose proof (digits2_pos_bounds mh) as Hb. rewrite Hd in Hb.
  change (24 - 1) with 23 in Hb.
  destruct (div_round_spec mh Hd) as [Hr _].
  unfold f32_one, SFdiv, SFdiv_core_binary. cbn [xorb Zdigits2].
  rewrite Hd. change (Zpos (digits2_pos 8388608)) with 24.
  cbv zeta.
  replace (Z.min (fexp F32.prec emx (24 + -23 - (24 + eh))) (-23 - eh))
    with (-47 - eh) by (unfold fexp, emin, F32.prec; lia).
  replace (-23 - eh - (-47 - eh)) with 24 by lia.
  change (Z.shiftl 8388608 24) with (2 ^ 47).
  unfold div_round in *.
  pose proof (Z_div_mod (2 ^ 47) (Zpos mh) ltac:(lia)) as Hdiv.
  destruct (Z.div_eucl (2 ^ 47) (Zpos mh)) as [q r].
  destruct Hdiv as [Hq Hrr].
  assert (E47 : 2 ^ 47 = 2 ^ 23 * 2 ^ 24) by reflexivity.
  assert (Hq1 : 2 ^ 23 <= q <= 2 ^ 24) by (split; nia).
  destruct (Z.eq_dec q (2 ^ 24)) as [Q | Q].
  - assert (R0 : r = 0) by nia. subst q r.
    assert (El : new_location (Zpos mh) 0 = loc_Exact).
    { unfold new_location. now destruct (Z.even (Zpos mh)). }
    rewrite El. cbn [round_nearest_even].
    change (2 ^ 24) with (Zpos 16777216) at 1.
    rewrite (@binary_round_aux_normal emx sh 16777216 (-47 - eh) 1);
      [reflexivity | reflexivity | lia | lia].
  - assert (Hp : exists pq, q = Zpos pq).
    { destruct q as [| p | p]; try lia. now exists p. }
    destruct Hp as [pq Hp]. subst q.
    assert (Hdq : Zpos (digits2_pos pq) = 24)
      by (apply digits2_pos_unique; lia).
    unfold binary_round_aux, shr_fexp at 1. cbn [Zdigits2].
    rewrite Hdq.
    replace (fexp F32.prec emx (24 + (-47 - eh)) - (-47 - eh)) with 0
      by (unfold fexp, emin, F32.prec; lia).
    cbn [shr].
    destruct (shr_record_of_loc_inv (Zpos pq) (new_location (Zpos mh) r))
      as [-> ->].
    apply binary_round_aux_finish; lia.
Qed.

Lemma sgn_sgn (s : bool) : sgn s * sgn s = 1.
Proof. now destruct s. Qed.

(** [1 / h] through the kernel, for a normal [h] whose inverse is
    normal. *)
Lemma f32_div_one_normal (sh : bool) (mh : positive) (eh : Z) :
  Zpos (digits2_pos mh) = 24 -> -149 <= eh <= 102 ->
  @div F32.dt one (S754_finite sh mh eh)
  = rounded sh (div_round mh) (-47 - eh).
Proof.
  intros Hd He.
  change (F32.flushed SFdiv (F32.f32_flush f32_one)
                      (F32.f32_flush (S754_finite sh mh eh))
          = rounded sh (div_round mh) (-47 - eh)).
  change (F32.f32_flush f32_one) with f32_one.
  rewrite F32.f32_flush_not_tiny by (apply tiny_false; [assumption | lia]).
  unfold F32.flushed.
  rewrite (@SFdiv_one_normal F32.wide_emax sh mh eh Hd)
    by (unfold F32.wide_emax; lia).
  rewrite (@SFdiv_one_normal F32.emax sh mh eh Hd)
    by (unfold F32.emax; lia).
  destruct (@div_round_spec mh Hd) as [Hr _].
  destruct (@rounded_normal sh _ (-47 - eh) Hr ltac:(lia))
    as (m' & e' & -> & Hd' & He').
  rewrite tiny_false by (assumption || lia). reflexivity.
Qed.

(** The inverse is normal and within [2^-24] of [1 / h]: in units of
    [2^-149], [1] is [2^149] and [1 * 1] is [2^298]. *)
Lemma f32_div_one_close (sh : bool) (mh : positive) (eh : Z) :
  Zpos (digits2_pos mh) = 24 -> -149 <= eh <= 102 ->
  exists m' e',
    @div F32.dt one (S754_finite sh mh eh) = S754_finite sh m' e'
    /\ Zpos (digits2_pos m') = 24
    /\ -47 - eh <= e' <= -46 - eh
    /\ Z.abs (ulps (S754_finite sh m' e') * ulps (S754_finite sh mh eh)
              - 2 ^ 298) * 2 ^ 24 <= 2 ^ 298.
Proof.
  intros Hd He.
  rewrite (@f32_div_one_normal sh mh eh Hd He).
  destruct (@div_round_spec mh Hd) as [Hr Habs].
  pose proof (@ulps_rounded sh _ (-47 - eh) Hr ltac:(lia)) as Hu.
  destruct (@rounded_normal sh _ (-47 - eh) Hr ltac:(lia))
    as (m' & e' & E & Hd' & He').
  rewrite E in Hu |- *. exists m', e'.
  split; [reflexivity |]. split; [assumption |]. split; [lia |].
  rewrite Hu. cbn [ulps]. fold (sgn sh).
  set (m1 := div_round mh) in *.
  pose proof (digits2_pos_bounds mh) as Hb. rewrite Hd in Hb.
  change (24 - 1) with 23 in Hb.
  assert (P : 2 ^ (-47 - eh + 149) * 2 ^ (eh + 149) = 2 ^ 251).
  { rewrite <- pow2_split by lia. f_equal. lia. }
  replace (sgn sh * m1 * 2 ^ (-47 - eh + 149)
           * (sgn sh * Zpos mh * 2 ^ (eh + 149)) - 2 ^ 298)
    with ((m1 * Zpos mh - 2 ^ 47) * 2 ^ 251).
  2:{ transitivity ((sgn sh * sgn sh) * (m1 * Zpos mh)
                    * (2 ^ (-47 - eh + 149) * 2 ^ (eh + 149)) - 2 ^ 298).
      - rewrite P, sgn_sgn. change (2 ^ 298) with (2 ^ 47 * 2 ^ 251). ring.
      - ring. }
  rewrite Z.abs_mul, (Z.abs_eq (2 ^ 251)) by (apply Z.pow_nonneg; lia).
  change (2 ^ 298) with (2 ^ 23 * 2 ^ 251 * 2 ^ 24).
  apply Z.mul_le_mono_nonneg_r; [apply Z.pow_nonneg; lia |].
  apply Z.mul_le_mono_nonneg_r; [apply Z.pow_nonneg; lia |].
  change (2 ^ 24) with (2 * 2 ^ 23) in Hb. lia.
Qed.

(** The product of two normal floats through the kernel is normal and
    within [2^-24] of the product of the numbers, when the exponents stay
    in the normal range. *)
Lemma f32_mul_close (sa sb : bool) (ma mb : positive) (ea eb : Z) :
  Zpos (digits2_pos ma) = 24 -> Zpos (digits2_pos mb) = 24 ->
  -149 <= ea -> -149 <= eb ->
  -149 <= ea + eb + 23 -> ea + eb + 25 <= 104 ->
  exists m' e',
    @mul F32.dt (S754_finite sa ma ea) (S754_finite sb mb eb)
    = S754_finite (xorb sa sb) m' e'
    /\ Zpos (digits2_pos m') = 24
    /\ ea + eb + 23 <= e' <= ea + eb + 25
    /\ Z.abs (ulps (S754_finite (xorb sa sb) m' e') * 2 ^ 149
              - ulps (S754_finite sa ma ea) * ulps (S754_finite sb mb eb))
       * 2 ^ 24
       <= Z.abs (ulps (S754_finite sa ma ea) * ulps (S754_finite sb mb eb)).
Proof.
  intros Ha Hb Ea Eb Hlo Hhi.
  destruct (@digits_mul ma mb Ha Hb) as (n & Hn & Hd).
  rewrite (@f32_mul_normal sa sb ma mb ea eb n Ha Hb Ea Eb Hd)
    by (destruct Hn; lia).
  pose proof (@f32_mul_error sa sb ma mb ea eb n Ha Hb Ea Eb Hd
                ltac:(destruct Hn; lia)) as Herr.
  cbv zeta in Herr.
  destruct (@round_shift_spec (ma * mb) n Hd) as [Hr _].
  destruct (@rounded_normal (xorb sa sb) _ (ea + eb + Zpos n) Hr
              ltac:(destruct Hn; lia))
    as (m' & e' & E & Hd' & He').
  rewrite E in Herr |- *. exists m', e'.
  split; [reflexivity |]. split; [assumption |].
  split; [destruct Hn; lia | exact Herr].
Qed.

(** Three roundings of relative error [1/N] each make a relative error
    of at most [4/N]: [r] is near [u^2 / h], [z] near [y * r / u] and [t]
    near [z * h / u]. *)
Lemma round_trip_chain (y h r z t u n : Z) :
  0 < u -> 4 <= n ->
  Z.abs (r * h - u * u) * n <= u * u ->
  Z.abs (z * u - y * r) * n <= Z.abs (y * r) ->
  Z.abs (t * u - z * h) * n <= Z.abs (z * h) ->
  Z.abs (t - y) * n <= 4 * Z.abs y.
Proof.
  intros Hu Hn Hc Hb Ha.
  rewrite Z.abs_mul in Hb, Ha.
  assert (Hrh : Z.abs r * Z.abs h * n <= (n + 1) * (u * u)).
  { rewrite <- Z.abs_mul. 
    pose proof (Z.abs_triangle (r * h - u * u) (u * u)) as Ht.
    replace (r * h - u * u + u * u) with (r * h) in Ht by ring.
    rewrite (Z.abs_eq (u * u)) in Ht by nia. nia. }
  assert (Hzu : Z.abs z * u * n <= (n + 1) * (Z.abs y * Z.abs r)).
  { pose proof (Z.abs_triangle (z * u - y * r) (y * r)) as Ht.
    replace (z * u - y * r + y * r) with (z * u) in Ht by ring.
    rewrite !Z.abs_mul, (Z.abs_eq u) in Ht by lia.
    nia. }
  assert (Hsum : Z.abs (t - y) * (u * u)
                 <= u * Z.abs (t * u - z * h) + Z.abs h * Z.abs (z * u - y * r)
                    + Z.abs y * Z.abs (r * h - u * u)).
  { replace ((t - y) * (u * u))
      with (u * (t * u - z * h) + h * (z * u - y * r) + y * (r * h - u * u))
      by ring.
    rewrite <- (Z.abs_eq (u * u)) at 1 by nia.
    rewrite <- Z.abs_mul.
    replace ((t - y) * (u * u))
      with (u * (t * u - z * h) + h * (z * u - y * r) + y * (r * h - u * u))
      by ring.
    eapply Z.le_trans; [apply Z.abs_triangle |].
    eapply Z.le_trans; [apply Z.add_le_mono_r, Z.abs_triangle |].
    rewrite !Z.abs_mul, (Z.abs_eq u) by lia. lia. }
  set (A := Z.abs (t * u - z * h)) in *.
  set (B := Z.abs (z * u - y * r)) in *.
  set (C := Z.abs (r * h - u * u)) in *.
  set (Y := Z.abs y) in *. set (H := Z.abs h) in *.
  set (R := Z.abs r) in *. set (Zz := Z.abs z) in *.
  set (D := Z.abs (t - y)) in *.
  assert (0 <= A /\ 0 <= B /\ 0 <= C /\ 0 <= Y /\ 0 <= H /\ 0 <= R
          /\ 0 <= Zz /\ 0 <= D)
    by (unfold A, B, C, Y, H, R, Zz, D; repeat split; apply Z.abs_nonneg).
  clearbody A B C Y H R Zz D.
  assert (U2 : 0 < u * u) by nia.
  (* n^2 * each term, bounded by a multiple of Y * u^2 *)
  assert (HW : 0 <= Y * (u * u)) by nia.
  assert (T3 : n * n * n * (Y * C) <= n * n * (Y * (u * u))).
  { replace (n * n * n * (Y * C)) with (n * n * (Y * (n * C))) by ring.
    apply Z.mul_le_mono_nonneg_l; nia. }
  assert (E3 : n * (Y * (R * H)) <= (n + 1) * (Y * (u * u))) by nia.
  assert (T2 : n * n * n * (H * B) <= n * (n + 1) * (Y * (u * u))).
  { apply Z.le_trans with (n * (n * (Y * (R * H)))).
    - replace (n * n * n * (H * B)) with (n * (n * (H * (n * B)))) by ring.
      apply Z.mul_le_mono_nonneg_l; [lia |].
      apply Z.mul_le_mono_nonneg_l; [lia | nia].
    - replace (n * (n + 1) * (Y * (u * u)))
        with (n * ((n + 1) * (Y * (u * u)))) by ring.
      apply Z.mul_le_mono_nonneg_l; lia. }
  assert (T1 : n * n * n * (u * A) <= (n + 1) * (n + 1) * (Y * (u * u))).
  { assert (E1 : n * (u * A) <= (Zz * u) * H) by nia.
    assert (E2 : n * ((Zz * u) * H) <= (n + 1) * (Y * (R * H))) by nia.
    assert (E4 : n * n * ((Zz * u) * H) <= (n + 1) * (n + 1) * (Y * (u * u))).
    { apply Z.le_trans with (n * ((n + 1) * (Y * (R * H)))).
      - replace (n * n * (Zz * u * H)) with (n * (n * (Zz * u * H))) by ring.
        apply Z.mul_le_mono_nonneg_l; lia.
      - replace (n * ((n + 1) * (Y * (R * H))))
          with ((n + 1) * (n * (Y * (R * H)))) by ring.
        replace ((n + 1) * (n + 1) * (Y * (u * u)))
          with ((n + 1) * ((n + 1) * (Y * (u * u)))) by ring.
        apply Z.mul_le_mono_nonneg_l; lia. }
    apply Z.le_trans with (n * n * ((Zz * u) * H)); [| exact E4].
    replace (n * n * n * (u * A)) with (n * n * (n * (u * A))) by ring.
    apply Z.mul_le_mono_nonneg_l; nia. }
  assert (Hall : n * n * n * (D * (u * u))
                 <= (4 * n * n) * (Y * (u * u))).
  { apply Z.le_trans
      with (n * n * n * (u * A) + n * n * n * (H * B)
            + n * n * n * (Y * C)).
    - replace (n * n * n * (u * A) + n * n * n * (H * B)
               + n * n * n * (Y * C))
        with (n * n * n * (u * A + H * B + Y * C)) by ring.
      apply Z.mul_le_mono_nonneg_l; nia.
    - assert (Hn4 : (n + 1) * (n + 1) + n * (n + 1) + n * n <= 4 * n * n)
        by nia.
      pose proof (Z.mul_le_mono_nonneg_r _ _ (Y * (u * u)) HW Hn4) as HK.
      set (W := Y * (u * u)) in *. clearbody W.
      replace (((n + 1) * (n + 1) + n * (n + 1) + n * n) * W)
        with ((n + 1) * (n + 1) * W + n * (n + 1) * W + n * n * W)
        in HK by ring.
      lia. }
  assert (Hfin : (n * n * (u * u)) * (D * n) <= (n * n * (u * u)) * (4 * Y)).
  { replace (n * n * (u * u) * (D * n)) with (n * n * n * (D * (u * u)))
      by ring.
    replace (n * n * (u * u) * (4 * Y)) with (4 * n * n * (Y * (u * u)))
      by ring.
    exact Hall. }
  apply Z.mul_le_mono_pos_l in Hfin; [exact Hfin | nia].
Qed.

(** A float of binary32 of magnitude in [[2^-62, 2^62)]. *)
Definition moderate (x : F32.dt) : bool :=
  match x with
  | S754_finite _ m e =>
      (Zpos (digits2_pos m) =? 24) && (-85 <=? e) && (e <=? 38)
  | _ => false
  end.

Definition moderate_or_zero (x : F32.dt) : bool :=
  match x with
  | S754_zero _ => true
  | _ => moderate x
  end.

(** Both coordinates of every keypoint are zero or moderate. *)
Definition moderate_keypoints (K : keypoints F32.dt) : bool :=
  in_unit_square moderate_or_zero K.

(** The float [a] is within [2^-22] of the float [b], relative to [b]. *)
Definition f32_near (a b : F32.dt) : Prop :=
  is_finite a = true
  /\ Z.abs (ulps a - ulps b) * 2 ^ 22 <= Z.abs (ulps b).

Lemma moderate_finite (x : F32.dt) :
  moderate x = true ->
  exists s m e, x = S754_finite s m e
    /\ Zpos (digits2_pos m) = 24 /\ -85 <= e <= 38.
Proof.
  destruct x as [s | s | | s m e]; try discriminate.
  cbn [moderate]. rewrite !andb_true_iff, Z.eqb_eq, !Z.leb_le.
  intros [[Hd Hlo] Hhi]. now exists s, m, e.
Qed.

Lemma f32_mul_zero_l (s sb : bool) (mb : positive) (eb : Z) :
  Zpos (digits2_pos mb) = 24 -> -149 <= eb ->
  @mul F32.dt (S754_zero s) (S754_finite sb mb eb) = S754_zero (xorb s sb).
Proof.
  intros Hd He.
  change (F32.flushed SFmul (S754_zero s)
                      (F32.f32_flush (S754_finite sb mb eb))
          = S754_zero (xorb s sb)).
  now rewrite F32.f32_flush_not_tiny by (now apply tiny_false).
Qed.

(** A coordinate normalized by a moderate height and made absolute again
    is within [2^-22] of itself. *)
Lemma round_trip_near (y h : F32.dt) :
  moderate h = true -> moderate_or_zero y = true ->
  f32_near (mul (mul y (div one h)) h) y.
Proof.
  intros Hh Hy.
  destruct (moderate_finite h Hh) as (sh & mh & eh & -> & Hdh & Heh).
  destruct (@f32_div_one_close sh mh eh Hdh ltac:(lia))
    as (mr & er & -> & Hdr & Her & Hc).
  destruct y as [s | s | | sy my ey]; try discriminate.
  - rewrite (@f32_mul_zero_l s sh mr er Hdr) by lia.
    rewrite (@f32_mul_zero_l _ sh mh eh Hdh) by lia.
    split; [reflexivity |]. cbn [ulps]. cbn. lia.
  - destruct (moderate_finite _ Hy) as (s' & m' & e' & E & Hdy & Hey).
    injection E as <- <- <-.
    destruct (@f32_mul_close sy sh my mr ey er Hdy Hdr
                ltac:(lia) ltac:(lia) ltac:(lia) ltac:(lia))
      as (mz & ez & -> & Hdz & Hez & Hb).
    destruct (@f32_mul_close (xorb sy sh) sh mz mh ez eh Hdz Hdh
                ltac:(lia) ltac:(lia) ltac:(lia) ltac:(lia))
      as (mt & et & -> & Hdt & Het & Ha).
    split; [reflexivity |].
    set (Y := ulps (S754_finite sy my ey)) in *.
    set (H := ulps (S754_finite sh mh eh)) in *.
    set (R := ulps (S754_finite sh mr er)) in *.
    set (Zz := ulps (S754_finite (xorb sy sh) mz ez)) in *.
    set (T := ulps (S754_finite (xorb (xorb sy sh) sh) mt et)) in *.
    clearbody Y H R Zz T.
    change (2 ^ 298) with (2 ^ 149 * 2 ^ 149) in Hc.
    pose proof (@round_trip_chain Y H R Zz T (2 ^ 149) (2 ^ 24)
                  ltac:(reflexivity) ltac:(discriminate) Hc Hb Ha) as Hfin.
    change (2 ^ 24) with (4 * 2 ^ 22) in Hfin. lia.
Qed.

(** On binary32, for moderate coordinates, height and width, the round
    trip through normalized coordinates returns every coordinate within
    [2^-22] of itself. *)
Lemma to_absolute_to_normalized_f32_near (getenv : option string)
  (K : keypoints F32.dt) (h w : F32.dt) :
  moderate h = true -> moderate w = true ->
  moderate_keypoints K = true ->
  exists K',
    (Kn <- to_normalized_coordinates getenv K h w false ;;
     to_absolute_coordinates getenv Kn h w false)
    = Ok K'
    /\ shape K' = shape K
    /\ forall i k y x,
         tget K i k = Some (y, x) ->
         exists y' x',
           tget K' i k = Some (y', x')
           /\ f32_near y' y /\ f32_near x' x.
Proof.
  intros Hh Hw HK.
  unfold to_normalized_coordinates, to_absolute_coordinates.
  rewrite !bind_Ok. eexists. split; [reflexivity |].
  split; [reflexivity |].
  intros i k y x H.
  destruct (in_unit_square_tget _ K i k HK H) as [Hy Hx].
  cbn [fst snd] in Hy, Hx.
  unfold scale. rewrite !tget_tmap, H. cbn [option_map fst snd].
  eexists _, _. split; [reflexivity |].
  split; now apply round_trip_near.
Qed.

End Binary32RoundTrip.

(** ** Round trip through normalized coordinates *)

(** C8, as stated, fails on floats when a product leaves their range:
    the coordinate [2^100] normalized by the height [2^-100] is
    [2^100 * 2^100], which is infinite, and stays infinite; the coordinate
    [2^-100] normalized by the height [2^100] is [2^-100 * 2^-100], which
    is zero, and stays zero.  Neither is near the coordinate it comes
    from. *)
Lemma to_absolute_to_normalized_out_of_range :
  ltb f_0 f_small = true /\ ltb f_0 f_big = true
  /\ (Kn <- to_normalized_coordinates None (one_keypoint f_big f_small)
              f_small f_big false ;;
      to_absolute_coordinates None Kn f_small f_big false)
     = Ok (one_keypoint (S754_infinity false) (S754_zero false)).
Proof. repeat split; vm_compute; reflexivity. Qed.

(** C8, amended.  With [check_range=False], [to_normalized_coordinates]
    followed by [to_absolute_coordinates] returns keypoints of the shape
    of [K], each [(y, x)] as
    [((y * (1 / h)) * h, (x * (1 / w)) * w)], for every element type.
    Without rounding, and for a positive height and width, these are [y]
    and [x]: the round trip returns [K].  On binary32, when the height,
    the width and every coordinate other than zero are floats of
    magnitude in [[2^-62, 2^62)], no product leaves the range of the
    normal floats, and every coordinate comes back within [2^-22] of
    itself, relative to itself. *)
Theorem to_absolute_to_normalized :
  (forall (D : dtype) (getenv : option string) (K : keypoints D) (h w : D),
     exists Kn K',
       to_normalized_coordinates getenv K h w false = Ok Kn
       /\ to_absolute_coordinates getenv Kn h w false = Ok K'
       /\ shape K' = shape K
       /\ forall i k y x,
            tget K i k = Some (y, x) ->
            tget K' i k
            = Some (mul (mul y (div one h)) h, mul (mul x (div one w)) w))
  /\ (forall (getenv : option string) (K : keypoints Exact.dt) (h w : Qc),
        (0 < h)%Qc -> (0 < w)%Qc ->
        (Kn <- to_normalized_coordinates getenv K (Exact.XFin h)
                                         (Exact.XFin w) false ;;
         to_absolute_coordinates getenv Kn (Exact.XFin h) (Exact.XFin w)
                                 false)
        = Ok K)
  /\ (forall (getenv : option string) (K : keypoints F32.dt) (h w : F32.dt),
        moderate h = true -> moderate w = true ->
        moderate_keypoints K = true ->
        exists K',
          (Kn <- to_normalized_coordinates getenv K h w false ;;
           to_absolute_coordinates getenv Kn h w false)
          = Ok K'
          /\ shape K' = shape K
          /\ forall i k y x,
               tget K i k = Some (y, x) ->
               exists y' x',
                 tget K' i k = Some (y', x')
                 /\ f32_near y' y /\ f32_near x' x).
Proof.
  split; [| split].
  - intros D getenv K h w. eexists _, _.
    split; [reflexivity |]. split; [reflexivity |]. split; [reflexivity |].
    intros i k y x H. unfold scale. now rewrite !tget_tmap, H.
  - intros getenv K h w Hh Hw.
    unfold to_normalized_coordinates, to_absolute_coordinates.
    rewrite !bind_Ok. f_equal. unfold scale. rewrite tmap_tmap.
    apply tmap_id. intros [y x]. cbn [fst snd].
    change (@mul Exact.dt) with Exact.x_mul.
    change (@div Exact.dt) with Exact.x_div.
    change (@one Exact.dt) with (Exact.of_Q 1).
    now rewrite (x_mul_div_mul y Hh), (x_mul_div_mul x Hw).
  - exact to_absolute_to_normalized_f32_near.
Qed.

Lemma to_absolute_to_normalized_witness :
  (Kn <- to_normalized_coordinates None (x_keypoint 5 7)
           (Exact.XFin (Q2Qc 3)) (Exact.XFin (Q2Qc 4)) false ;;
   to_absolute_coordinates None Kn (Exact.XFin (Q2Qc 3))
                           (Exact.XFin (Q2Qc 4)) false)
  = Ok (x_keypoint 5 7)
  /\ exists K',
       (Kn <- to_normalized_coordinates None
                (one_keypoint (F32.of_Z 7) f_0) f_3 f_3 false ;;
        to_absolute_coordinates None Kn f_3 f_3 false)
       = Ok K'
       /\ shape K' = shape (one_keypoint (F32.of_Z 7) f_0)
       /\ forall i k y x,
            tget (one_keypoint (F32.of_Z 7) f_0) i k = Some (y, x) ->
            exists y' x',
              tget K' i k = Some (y', x')
              /\ f32_near y' y /\ f32_near x' x.
Proof.
  split.
  - apply (proj1 (proj2 to_absolute_to_normalized) None (x_keypoint 5 7)
             (Q2Qc 3) (Q2Qc 4)); reflexivity.
  - apply (proj2 (proj2 to_absolute_to_normalized) None
             (one_keypoint (F32.of_Z 7) f_0) f_3 f_3); reflexivity.
Defined.

(** ** Rounding at work *)

(** On floats the round trips above hold up to rounding only.  The
    coordinate 7 normalized by 3 and made absolute again is the float just
    above 7. *)
Example to_absolute_to_normalized_f32 :
  (Kn <- to_normalized_coordinates None (one_keypoint (F32.of_Z 7) f_1)
                                   f_3 f_3 false ;;
   to_absolute_coordinates None Kn f_3 f_3 false)
  = Ok (one_keypoint (F32.of_bits 14680065 (-21)) f_1)
  /\ F32.of_Z 7 = F32.of_bits 14680064 (-21).
Proof. split; vm_compute; reflexivity. Qed.

(** Four rotations send the coordinate [2^-30] to 0 and keep 1/2. *)
Example rot90_four_times_f32 :
  (K1 <- rot90 (one_keypoint f_tiny f_half) None ;;
   K2 <- rot90 K1 None ;; K3 <- rot90 K2 None ;; rot90 K3 None)
  = Ok (one_keypoint f_0 f_half).
Proof. vm_compute. reflexivity. Qed.

(** The keypoints [[[0.2, 0.3], [0.5, 0.9]]] flipped about 0.5 are
    [[[0.2, 0.7], [0.5, 0.1]]]. *)
Example flip_horizontal_example :
  exists K',
    flip_horizontal
      {| dim0 := 1; dim1 := 2;
         rows := [[(Exact.of_Q (2 # 10), Exact.of_Q (3 # 10));
                   (Exact.of_Q (5 # 10), Exact.of_Q (9 # 10))]] |}
      (Exact.of_Q (5 # 10)) None
    = Ok K'
    /\ tget K' 0 0 = Some (Exact.of_Q (2 # 10), Exact.of_Q (7 # 10))
    /\ tget K' 0 1 = Some (Exact.of_Q (5 # 10), Exact.of_Q (1 # 10)).
Proof.
  eexists. split; [reflexivity |].
  split; cbn; repeat f_equal; apply Qc_is_canon; reflexivity.
Qed.

(** * Further properties of the transforms *)

(** ** Clipping and pruning together *)

Section ClipAndPrune.
Variable D : dtype.
Implicit Types (K : keypoints D) (W : window D) (p : D * D).

(** A value that passes the bounds test goes through the clamp: it comes
    out as the kernels read it. *)
Lemma clip_value_fixed (lo hi v : D) :
  leb lo v = true -> leb v hi = true -> clip_value lo hi v = flush v.
Proof.
  intros Hlo Hhi.
  assert (Hv : is_nan v = false).
  { destruct (is_nan v) eqn:E; [| reflexivity].
    now rewrite (leb_nan_l D v hi E) in Hhi. }
  assert (Hl : is_nan lo = false).
  { destruct (is_nan lo) eqn:E; [| reflexivity].
    now rewrite (leb_nan_l D lo v E) in Hlo. }
  assert (Hh : is_nan hi = false).
  { destruct (is_nan hi) eqn:E; [| reflexivity].
    now rewrite (leb_nan_r D v hi E) in Hhi. }
  unfold clip_value, tf_minimum. rewrite Hv, Hh, (leb_not_ltb D _ _ Hhi).
  unfold tf_maximum.
  rewrite flush_is_nan, Hv, Hl, ltb_flush_l, (leb_not_ltb D _ _ Hlo).
  apply flush_flush.
Qed.

Lemma clip_cell_fixed W p :
  in_window W p = true -> clip_cell W p = flush_cell p.
Proof.
  unfold in_window. rewrite !andb_true_iff. intros [[H1 H2] [H3 H4]].
  destruct p as [y x]. unfold clip_cell, flush_cell. cbn [fst snd] in *.
  now rewrite !clip_value_fixed.
Qed.

Lemma ltb_irrefl (a : D) : ltb a a = false.
Proof.
  destruct (is_nan a) eqn:E.
  - now apply ltb_nan_l.
  - now apply leb_not_ltb, leb_refl.
Qed.

(** Clamping twice is clamping once, whatever the bounds: in order or not,
    NaN or not. *)
Lemma clip_value_idempotent (lo hi v : D) :
  clip_value lo hi (clip_value lo hi v) = clip_value lo hi v.
Proof.
  pose proof (ltb_irrefl hi) as E4. pose proof (ltb_irrefl lo) as E5.
  unfold clip_value, tf_maximum, tf_minimum.
  destruct (is_nan v) eqn:Hv, (is_nan hi) eqn:Hh, (is_nan lo) eqn:Hl,
    (ltb hi v) eqn:E1, (ltb hi lo) eqn:E2, (ltb v lo) eqn:E3;
    repeat progress (rewrite ?flush_is_nan, ?ltb_flush_l, ?ltb_flush_r,
                       ?flush_flush, ?Hv, ?Hh, ?Hl, ?E1, ?E2, ?E3, ?E4, ?E5);
    reflexivity.
Qed.

(** X1.  [clip_to_window] is idempotent, for every window: bounds in
    order or not, NaN or not. *)
Theorem clip_to_window_idempotent K W :
  clip_to_window (clip_to_window K W) W = clip_to_window K W.
Proof.
  rewrite !clip_to_window_cells, tmap_tmap. apply tmap_ext.
  intros [y x]. unfold clip_cell. cbn [fst snd].
  now rewrite !clip_value_idempotent.
Qed.

(** X2.  Clipping what was pruned moves no keypoint: the keypoints that
    are kept are in the window already, and the NaN written over the
    others goes through the clamp as it is.  The result is the pruned
    keypoints as the kernels read them: a subnormal coordinate of a
    keypoint that was kept comes out as a zero. *)
Theorem clip_to_window_after_prune K W :
  clip_to_window (prune_outside_window K W) W
  = tmap flush_cell (prune_outside_window K W).
Proof.
  rewrite clip_to_window_cells, prune_outside_window_cells, !tmap_tmap.
  apply tmap_ext. intros p. unfold prune_cell.
  destruct (in_window W p) eqn:E.
  - now apply clip_cell_fixed.
  - pose proof (mul_nan_l D nan one (nan_is_nan D)) as Hn.
    unfold clip_cell, flush_cell, clip_value, tf_maximum, tf_minimum.
    cbn [fst snd]. now rewrite !Hn, !(flush_nan D _ Hn).
Qed.

End ClipAndPrune.

(** ** Visibilities *)

Section MoreTensorFacts.
Context {A B C E : Type}.

Lemma tmap2_pair_r (f : A -> C * B -> E) (g : B -> C) (ta : tensor A)
  (tb : tensor B) :
  tmap2 f ta (tmap2 pair (tmap g tb) tb)
  = tmap2 (fun a b => f a (g b, b)) ta tb.
Proof.
  unfold tmap2, tmap; simpl. f_equal.
  generalize (rows tb) as rb. induction (rows ta) as [| ra rsa IH];
    intros [| r rsb]; simpl; try reflexivity.
  rewrite IH. f_equal.
  revert r. induction ra as [| a ra IHa]; intros [| b r]; simpl;
    try reflexivity.
  now rewrite IHa.
Qed.

Lemma tmap2_twice_l (f : A -> C -> E) (g : A -> B -> C) (ta : tensor A)
  (tb : tensor B) :
  tmap2 f ta (tmap2 g ta tb) = tmap2 (fun a b => f a (g a b)) ta tb.
Proof.
  unfold tmap2; simpl. f_equal.
  generalize (rows tb) as rb. induction (rows ta) as [| ra rsa IH];
    intros [| r rsb]; simpl; try reflexivity.
  rewrite IH. f_equal.
  revert r. induction ra as [| a ra IHa]; intros [| b r]; simpl;
    try reflexivity.
  now rewrite IHa.
Qed.

Lemma tmap2_ext (f g : A -> B -> C) (ta : tensor A) (tb : tensor B) :
  (forall a b, f a b = g a b) -> tmap2 f ta tb = tmap2 g ta tb.
Proof.
  intros H. unfold tmap2. f_equal. apply map_ext. intros rr.
  apply map_ext. intros ab. apply H.
Qed.

End MoreTensorFacts.

Section Visibilities.
Variable D : dtype.
Implicit Types (K : keypoints D) (W : window D) (p : D * D).

(** A coordinate of the keypoint is NaN. *)
Definition has_nan p : bool := (is_nan (fst p) || is_nan (snd p))%bool.

(** The whole mask, with an initial mask of the shape of [K] ... *)
Lemma set_keypoint_visibilities_mask K (V : tensor bool) :
  shape V = shape K ->
  set_keypoint_visibilities K (Some V)
  = Ok (tmap2 (fun (c v : bool) => if c then false else v)
              (tmap has_nan K) V).
Proof.
  intros H. rewrite (set_keypoint_visibilities_some H). f_equal.
  unfold tf_where. now rewrite tmap2_pair_r.
Qed.

(** ... and without one. *)
Lemma set_keypoint_visibilities_default K :
  set_keypoint_visibilities K None
  = Ok (tmap (fun p => negb (has_nan p)) K).
Proof.
  unfold set_keypoint_visibilities, tf_where_checked, tf_ones_like.
  cbn [dim0 dim1 tmap]. rewrite !Nat.eqb_refl. cbn [andb]. f_equal.
  unfold tf_where. rewrite !tmap_tmap. repeat rewrite tmap2_tmap.
  apply tmap_ext. intros p. unfold has_nan. cbn [fst snd].
  now destruct (_ || _)%bool.
Qed.

Lemma in_window_not_nan W p : in_window W p = true -> has_nan p = false.
Proof.
  unfold in_window, has_nan. rewrite !andb_true_iff.
  intros [[H1 _] [H2 _]].
  destruct (is_nan (fst p)) eqn:Ey.
  - now rewrite (leb_nan_r D _ _ Ey) in H1.
  - destruct (is_nan (snd p)) eqn:Ex; [| reflexivity].
    now rewrite (leb_nan_r D _ _ Ex) in H2.
Qed.

(** X3.  The visibilities derived from pruned keypoints are the bounds
    test of the window: keypoint [[i, k]] is visible exactly when it was
    inside the window. *)
Theorem set_keypoint_visibilities_after_prune K W :
  set_keypoint_visibilities (prune_outside_window K W) None
  = Ok (tmap (in_window W) K).
Proof.
  rewrite set_keypoint_visibilities_default, prune_outside_window_cells.
  f_equal. rewrite tmap_tmap. apply tmap_ext. intros p.
  unfold prune_cell. destruct (in_window W p) eqn:E.
  - now rewrite (in_window_not_nan _ _ E).
  - unfold has_nan. cbn [fst snd].
    now rewrite (mul_nan_l D nan one (nan_is_nan D)).
Qed.

(** X4.  The mask that [set_keypoint_visibilities] returns is a fixed
    point: given back as the initial mask, it is returned as it is. *)
Theorem set_keypoint_visibilities_idempotent K (V M : tensor bool) :
  shape V = shape K ->
  set_keypoint_visibilities K (Some V) = Ok M ->
  set_keypoint_visibilities K (Some M) = Ok M.
Proof.
  intros HV HM. rewrite (set_keypoint_visibilities_mask HV) in HM.
  injection HM as <-.
  rewrite set_keypoint_visibilities_mask by reflexivity.
  f_equal. rewrite tmap2_twice_l. apply tmap2_ext.
  intros [] v; reflexivity.
Qed.

End Visibilities.

Arguments has_nan {D}.

Lemma set_keypoint_visibilities_idempotent_witness :
  set_keypoint_visibilities K_nan_first
    (Some {| dim0 := 1; dim1 := 2; rows := [[false; true]] |})
  = Ok {| dim0 := 1; dim1 := 2; rows := [[false; true]] |}.
Proof.
  apply (@set_keypoint_visibilities_idempotent F32.dt K_nan_first
           all_visible); reflexivity.
Defined.

(** ** Scaling and the range checks *)

Section Scaling.
Variable D : dtype.
Implicit Types (K : keypoints D).

(** Whatever the switch and [check_range], a call that returns returns
    the scaled keypoints. *)
Lemma to_normalized_coordinates_Ok (getenv : option string) K
  (height width : D) (check_range : bool) (K' : keypoints D) :
  to_normalized_coordinates getenv K height width check_range = Ok K' ->
  K' = scale K (div one height) (div one width).
Proof.
  unfold to_normalized_coordinates, assert_control_dependencies, tf_Assert.
  destruct check_range; [| intros H; now injection H].
  destruct (ASSERT_ACTIVE getenv); [| intros H; now injection H].
  destruct (greater (tf_reduce_max K) c1_01); simpl;
    [intros H; now injection H | discriminate].
Qed.

Lemma to_absolute_coordinates_Ok (getenv : option string) K
  (height width : D) (check_range : bool) (K' : keypoints D) :
  to_absolute_coordinates getenv K height width check_range = Ok K' ->
  K' = scale K height width.
Proof.
  unfold to_absolute_coordinates, assert_control_dependencies, tf_Assert.
  destruct check_range; [| intros H; now injection H].
  destruct (ASSERT_ACTIVE getenv); [| intros H; now injection H].
  destruct (greater_equal c1_01 (tf_reduce_max K)); simpl;
    [intros H; now injection H | discriminate].
Qed.

Lemma scale_keeps_nan K (y_scale x_scale : D) (i k : nat) (y x : D) :
  tget K i k = Some (y, x) ->
  exists y' x',
    tget (scale K y_scale x_scale) i k = Some (y', x')
    /\ (is_nan y = true -> is_nan y' = true)
    /\ (is_nan x = true -> is_nan x' = true).
Proof.
  intros H. unfold scale. rewrite tget_tmap, H. simpl.
  eexists _, _. split; [reflexivity |].
  split; intros E; now apply mul_nan_l.
Qed.

(** X5.  Scaling keeps the NaN mark of a pruned keypoint, and so do
    [to_normalized_coordinates] and [to_absolute_coordinates] whenever
    they return: a coordinate that is NaN in [K] is NaN in the result,
    for every factor, height and width. *)
Theorem scaling_keeps_nan (getenv : option string) K (a b : D)
  (check_range : bool) (i k : nat) (y x : D) :
  tget K i k = Some (y, x) ->
  (exists y' x',
     tget (scale K a b) i k = Some (y', x')
     /\ (is_nan y = true -> is_nan y' = true)
     /\ (is_nan x = true -> is_nan x' = true))
  /\ (forall K',
        to_normalized_coordinates getenv K a b check_range = Ok K'
        \/ to_absolute_coordinates getenv K a b check_range = Ok K' ->
        exists y' x',
          tget K' i k = Some (y', x')
          /\ (is_nan y = true -> is_nan y' = true)
          /\ (is_nan x = true -> is_nan x' = true)).
Proof.
  intros H. split; [now apply scale_keeps_nan |].
  intros K' [HK | HK].
  - apply to_normalized_coordinates_Ok in HK. subst K'.
    now apply scale_keeps_nan.
  - apply to_absolute_coordinates_Ok in HK. subst K'.
    now apply scale_keeps_nan.
Qed.

(** X6.  The range checks are inert unless they are asked for and the
    switch is on: with [check_range=False], or with the variable
    [ASSERT_ACTIVE] unset or set to anything but ["1"], neither
    [to_normalized_coordinates] nor [to_absolute_coordinates] ever fails;
    both return the scaled keypoints. *)
Theorem range_checks_inert (getenv : option string) K (height width : D)
  (check_range : bool) :
  check_range = false \/ getenv <> Some "1"%string ->
  to_normalized_coordinates getenv K height width check_range
  = Ok (scale K (div one height) (div one width))
  /\ to_absolute_coordinates getenv K height width check_range
     = Ok (scale K height width).
Proof.
  intros H.
  unfold to_normalized_coordinates, to_absolute_coordinates,
    assert_control_dependencies.
  destruct check_range; [| split; reflexivity].
  destruct H as [H | H]; [discriminate |].
  destruct (ASSERT_ACTIVE getenv) eqn:E; [| split; reflexivity].
  now apply ASSERT_ACTIVE_iff in E.
Qed.

(** X7.  With the switch on and [check_range] set, the two checks split
    the arrays between them: an array whose maximum is at most 1.01 is
    accepted by [to_absolute_coordinates] and refused by
    [to_normalized_coordinates], an array whose maximum is above 1.01 is
    accepted by [to_normalized_coordinates] and refused by
    [to_absolute_coordinates], the error holding the maximum; an array
    whose maximum is NaN is refused by both. *)
Theorem range_checks_complementary (getenv : option string) K
  (height width : D) :
  ASSERT_ACTIVE getenv = true ->
  is_nan (@c1_01 D) = false ->
  let max_val := tf_reduce_max K in
  let refused_normalized :=
    Err (InvalidArgumentError
           [Msg "max value is lower than 1.01: "; Val max_val]) in
  let refused_absolute :=
    Err (InvalidArgumentError
           [Msg "maximum keypoint coordinate value is larger than 1.01: ";
            Val max_val]) in
  (leb max_val c1_01 = true ->
   to_absolute_coordinates getenv K height width true
   = Ok (scale K height width)
   /\ to_normalized_coordinates getenv K height width true
      = refused_normalized)
  /\ (is_nan max_val = false -> leb max_val c1_01 = false ->
      to_normalized_coordinates getenv K height width true
      = Ok (scale K (div one height) (div one width))
      /\ to_absolute_coordinates getenv K height width true
         = refused_absolute)
  /\ (is_nan max_val = true ->
      to_normalized_coordinates getenv K height width true
      = refused_normalized
      /\ to_absolute_coordinates getenv K height width true
         = refused_absolute).
Proof.
  intros Hon Hc. cbv zeta.
  unfold to_normalized_coordinates, to_absolute_coordinates,
    assert_control_dependencies, tf_Assert, greater, greater_equal.
  rewrite Hon. cbn [tf_identity bind].
  split; [| split].
  - intros Hle. rewrite Hle, (leb_not_ltb D _ _ Hle). split; reflexivity.
  - intros Hn Hle. rewrite Hle.
    destruct (ltb c1_01 (tf_reduce_max K)) eqn:E; [split; reflexivity |].
    now rewrite (leb_total D _ _ Hc Hn E) in Hle.
  - intros Hn.
    rewrite (ltb_nan_r D _ _ Hn), (leb_nan_l D _ _ Hn). split; reflexivity.
Qed.

End Scaling.

Lemma scaling_keeps_nan_witness :
  exists y' x',
    tget (scale (one_keypoint f_nan f_half) f_2 f_2) 0 0 = Some (y', x')
    /\ (is_nan f_nan = true -> is_nan y' = true)
    /\ (is_nan f_half = true -> is_nan x' = true).
Proof.
  apply (proj1 (@scaling_keeps_nan F32.dt None (one_keypoint f_nan f_half)
                  f_2 f_2 false 0 0 f_nan f_half eq_refl)).
Defined.

Lemma range_checks_inert_witness :
  to_normalized_coordinates (Some "0"%string) (one_keypoint f_half f_half)
                            f_2 f_2 true
  = Ok (scale (one_keypoint f_half f_half) (div one f_2) (div one f_2))
  /\ to_absolute_coordinates (Some "0"%string) (one_keypoint f_half f_half)
                             f_2 f_2 true
     = Ok (scale (one_keypoint f_half f_half) f_2 f_2).
Proof.
  apply (@range_checks_inert F32.dt (Some "0"%string)
           (one_keypoint f_half f_half) f_2 f_2 true).
  right. discriminate.
Defined.

Lemma range_checks_complementary_witness :
  to_normalized_coordinates (Some "1"%string) (one_keypoint f_5 f_3)
                            f_2 f_2 true
  = Ok (scale (one_keypoint f_5 f_3) (div one f_2) (div one f_2))
  /\ to_absolute_coordinates (Some "1"%string) (one_keypoint f_5 f_3)
                             f_2 f_2 true
     = Err (InvalidArgumentError
              [Msg "maximum keypoint coordinate value is larger than 1.01: ";
               Val (tf_reduce_max (one_keypoint f_5 f_3))]).
Proof.
  apply (proj1 (proj2 (@range_checks_complementary F32.dt (Some "1"%string)
                         (one_keypoint f_5 f_3) f_2 f_2 eq_refl eq_refl)));
    reflexivity.
Defined.

(** ** Flips and rotations *)

Section Flips.
Variable D : dtype.
Implicit Types (K : keypoints D) (p : D * D).

Definition flip_vertical_cell (flip_point : D) p : D * D :=
  (sub (mul flip_point two) (fst p), snd p).

Lemma flip_vertical_cells K (flip_point : D) :
  wf K ->
  flip_vertical K flip_point None = Ok (tmap (flip_vertical_cell flip_point) K).
Proof.
  intros HK. unfold flip_vertical, permute, bind, tf_split, tf_concat.
  rewrite tmap_tmap, tmap2_tmap.
  rewrite tf_transpose_tmap, tf_transpose_involutive by exact HK.
  reflexivity.
Qed.

(** X9.  A horizontal and a vertical flip commute, about any two points
    and in every element type: each touches one coordinate only. *)
Theorem flips_commute K (x_point y_point : D) :
  wf K ->
  (K1 <- flip_horizontal K x_point None ;; flip_vertical K1 y_point None)
  = (K1 <- flip_vertical K y_point None ;; flip_horizontal K1 x_point None).
Proof.
  intros HK.
  rewrite (flip_horizontal_cells _ HK), (flip_vertical_cells _ HK), !bind_Ok.
  rewrite flip_vertical_cells, flip_horizontal_cells by (now apply wf_tmap).
  now rewrite !tmap_tmap.
Qed.

(** X10.  Two rotations are a reflection through the centre of the unit
    frame: [rot90] twice is [flip_vertical] and [flip_horizontal] about a
    point whose double is 1. *)
Theorem rot90_twice_is_point_reflection K (half : D) :
  wf K -> mul half two = one ->
  (K1 <- rot90 K None ;; rot90 K1 None)
  = (K1 <- flip_vertical K half None ;; flip_horizontal K1 half None).
Proof.
  intros HK Hh.
  rewrite (rot90_cells HK), (flip_vertical_cells _ HK), !bind_Ok.
  rewrite rot90_cells, flip_horizontal_cells by (now apply wf_tmap).
  rewrite !tmap_tmap. f_equal. apply tmap_ext. intros [y x].
  unfold rot90_cell, flip_horizontal_cell, flip_vertical_cell.
  cbn [fst snd]. now rewrite Hh.
Qed.

End Flips.

Arguments flip_vertical_cell {D}.

Lemma flips_commute_witness :
  (K1 <- flip_horizontal (one_keypoint f_half f_2) f_1 None ;;
   flip_vertical K1 f_3 None)
  = (K1 <- flip_vertical (one_keypoint f_half f_2) f_3 None ;;
     flip_horizontal K1 f_1 None).
Proof.
  apply (@flips_commute F32.dt (one_keypoint f_half f_2) f_1 f_3
           (wf_one_keypoint f_half f_2)).
Defined.

(** On floats the point is 1/2, as it is without rounding. *)
Lemma rot90_twice_is_point_reflection_witness :
  (K1 <- rot90 (one_keypoint f_tiny f_half) None ;; rot90 K1 None)
  = (K1 <- flip_vertical (one_keypoint f_tiny f_half) f_half None ;;
     flip_horizontal K1 f_half None).
Proof.
  apply (@rot90_twice_is_point_reflection F32.dt
           (one_keypoint f_tiny f_half) f_half
           (wf_one_keypoint f_tiny f_half)).
  reflexivity.
Defined.

(** X8.  Without permutation, [flip_vertical] maps each y-coordinate to
    [flip_point * 2 - y] and leaves each x-coordinate unchanged, for every
    element type; without rounding, and for a finite flip point, applying
    it twice returns [K]. *)
Theorem flip_vertical_involutive :
  (forall (D : dtype) (K : keypoints D) (flip_point : D),
     wf K ->
     exists K',
       flip_vertical K flip_point None = Ok K'
       /\ shape K' = shape K
       /\ forall i k y x,
            tget K i k = Some (y, x) ->
            tget K' i k = Some (sub (mul flip_point two) y, x))
  /\ (forall (K : keypoints Exact.dt) (p : Qc),
        wf K ->
        (K1 <- flip_vertical K (Exact.XFin p) None ;;
         flip_vertical K1 (Exact.XFin p) None)
        = Ok K).
Proof.
  split.
  - intros D K flip_point HK. eexists.
    split; [now apply flip_vertical_cells |]. split; [reflexivity |].
    intros i k y x H. now rewrite tget_tmap, H.
  - intros K p HK. rewrite (flip_vertical_cells _ HK), bind_Ok.
    rewrite flip_vertical_cells by (now apply wf_tmap).
    f_equal. rewrite tmap_tmap. apply tmap_id. intros [y x].
    unfold flip_vertical_cell. simpl. f_equal. apply x_sub_sub.
Qed.

Lemma flip_vertical_involutive_witness :
  (K1 <- flip_vertical (x_keypoint (1 # 5) (3 # 10))
                       (Exact.XFin (Q2Qc (1 # 2))) None ;;
   flip_vertical K1 (Exact.XFin (Q2Qc (1 # 2))) None)
  = Ok (x_keypoint (1 # 5) (3 # 10)).
Proof.
  apply (proj2 flip_vertical_involutive (x_keypoint (1 # 5) (3 # 10))
           (Q2Qc (1 # 2)) (wf_x_keypoint (1 # 5) (3 # 10))).
Defined.

(** ** Permutations of the keypoints *)

Section Permutations.
Variable D : dtype.

Lemma mapM_lookup {A} (rs : list (list A)) (p : list nat) :
  Forall (fun c => c < length rs) p ->
  mapM (fun i => match nth_error rs i with
                 | Some r => Ok r
                 | None => Err (@IndexOutOfRange D i)
                 end) p
  = Ok (map (fun c => nth c rs []) p).
Proof.
  induction 1 as [| c p Hc Hp IH]; simpl; [reflexivity |].
  rewrite IH. destruct (nth_error rs c) as [r |] eqn:E.
  - simpl. now rewrite (nth_error_nth _ _ [] E).
  - apply nth_error_None in E. lia.
Qed.

(** The keypoint axis after [tf.gather]: row [j] is keypoint
    [permutation[j]] of every instance. *)
Lemma permute_in_range {A} (K : tensor A) (c0 : nat) (p : list nat) :
  wf K -> Forall (fun c => c < dim1 K) (c0 :: p) ->
  exists G,
    permute D (tf_transpose K) (Some (c0 :: p)) = Ok G
    /\ wf G
    /\ shape G = (length (c0 :: p), dim0 K)
    /\ forall j i,
         tget G j i
         = match nth_error (c0 :: p) j with
           | Some c => tget K i c
           | None => None
           end.
Proof.
  intros HK Hp. unfold permute, tf_gather.
  rewrite mapM_lookup.
  2:{ cbn [tf_transpose rows]. now rewrite length_map, length_seq. }
  rewrite bind_Ok. eexists. split; [reflexivity |].
  assert (Hrow : forall c, In c (c0 :: p) ->
            nth c (rows (tf_transpose K)) [] = column c (rows K)).
  { intros c Hc. rewrite Forall_forall in Hp. specialize (Hp c Hc).
    apply nth_error_nth. cbn [tf_transpose rows].
    rewrite nth_error_map, nth_error_seq.
    destruct (Nat.ltb_spec c (dim1 K)) as [_ | Hge]; [reflexivity | lia]. }
  split; [| split].
  - destruct HK as [H0 H1]. split; cbn [rows dim0 dim1].
    + now rewrite length_map.
    + apply Forall_map, Forall_forall. intros c Hc. cbv beta.
      rewrite (Hrow c Hc). rewrite Forall_forall in Hp.
      rewrite (length_column H1 (Hp c Hc)). exact H0.
  - reflexivity.
  - intros j i. unfold tget at 1. cbn [rows].
    rewrite nth_error_map.
    destruct (nth_error (c0 :: p) j) as [c |] eqn:E; [| reflexivity].
    cbn [option_map]. rewrite (Hrow c (nth_error_In _ _ E)).
    destruct HK as [_ H1]. rewrite Forall_forall in Hp.
    unfold tget.
    apply nth_error_column with (K := dim1 K);
      [exact H1 | exact (Hp c (nth_error_In _ _ E))].
Qed.

End Permutations.

Section PermutedTransforms.
Variable D : dtype.
Implicit Types (K : keypoints D).

(** The three transforms are one scheme: transpose, reorder the keypoint
    axis, apply a function to every keypoint, transpose back. *)
Definition permuted (cell : D * D -> D * D) K (permutation : option (list nat))
  : result (error D) (keypoints D) :=
  G <- permute D (tf_transpose K) permutation ;;
  Ok (tf_transpose (tmap cell G)).

Lemma flip_horizontal_permuted K (flip_point : D) permutation :
  flip_horizontal K flip_point permutation
  = permuted (flip_horizontal_cell flip_point) K permutation.
Proof.
  unfold flip_horizontal, permuted.
  destruct (permute D (tf_transpose K) permutation) as [G | e];
    [| reflexivity].
  rewrite !bind_Ok. unfold tf_split, tf_concat.
  now rewrite tmap_tmap, tmap2_tmap.
Qed.

Lemma flip_vertical_permuted K (flip_point : D) permutation :
  flip_vertical K flip_point permutation
  = permuted (flip_vertical_cell flip_point) K permutation.
Proof.
  unfold flip_vertical, permuted.
  destruct (permute D (tf_transpose K) permutation) as [G | e];
    [| reflexivity].
  rewrite !bind_Ok. unfold tf_split, tf_concat.
  now rewrite tmap_tmap, tmap2_tmap.
Qed.

Lemma rot90_permuted K permutation :
  rot90 K permutation = permuted rot90_cell K permutation.
Proof.
  unfold rot90, permuted.
  destruct (permute D (tf_transpose K) permutation) as [G | e];
    [| reflexivity].
  rewrite !bind_Ok. unfold tf_split, tf_concat, reverse_last.
  now rewrite !tmap_tmap, tmap2_tmap.
Qed.

Lemma tget_out_of_range {A} (t : tensor A) (i k : nat) :
  wf t -> dim1 t <= k -> tget t i k = None.
Proof.
  intros [_ H1] Hk. unfold tget.
  destruct (nth_error (rows t) i) as [r |] eqn:E; [| reflexivity].
  apply nth_error_None. rewrite Forall_forall in H1.
  rewrite (H1 r (nth_error_In _ _ E)). exact Hk.
Qed.

(** With a permutation whose indices are keypoints of [K], keypoint [j]
    of the result is the image of keypoint [permutation[j]]. *)
Lemma permuted_in_range (cell : D * D -> D * D) K (c0 : nat) (p : list nat) :
  wf K -> Forall (fun c => c < dim1 K) (c0 :: p) ->
  exists K',
    permuted cell K (Some (c0 :: p)) = Ok K'
    /\ wf K'
    /\ shape K' = (dim0 K, length (c0 :: p))
    /\ forall i j,
         tget K' i j
         = match nth_error (c0 :: p) j with
           | Some c => option_map cell (tget K i c)
           | None => None
           end.
Proof.
  intros HK Hp.
  destruct (permute_in_range D HK Hp) as (G & HG & HwG & HsG & HtG).
  unfold permuted. rewrite HG, bind_Ok. eexists. split; [reflexivity |].
  assert (HwG' : wf (tmap cell G)) by (now apply wf_tmap).
  split; [now apply wf_tf_transpose |]. split.
  - unfold shape in *. cbn [tf_transpose tmap dim0 dim1].
    injection HsG as -> ->. reflexivity.
  - intros i j. rewrite (tget_tf_transpose _ _ HwG'), tget_tmap, HtG.
    now destruct (nth_error (c0 :: p) j).
Qed.

(** X11.  With a permutation whose indices are all keypoints of [K], the
    three transforms succeed, return [len(permutation)] keypoints per
    instance, and keypoint [j] of the result is the transformed keypoint
    [permutation[j]] of [K]. *)
Theorem transforms_with_permutation K (flip_point : D) (c0 : nat)
  (p : list nat) :
  wf K -> Forall (fun c => c < dim1 K) (c0 :: p) ->
  exists Kh Kv Kr,
    flip_horizontal K flip_point (Some (c0 :: p)) = Ok Kh
    /\ flip_vertical K flip_point (Some (c0 :: p)) = Ok Kv
    /\ rot90 K (Some (c0 :: p)) = Ok Kr
    /\ shape Kh = (dim0 K, length (c0 :: p))
    /\ shape Kv = (dim0 K, length (c0 :: p))
    /\ shape Kr = (dim0 K, length (c0 :: p))
    /\ forall i j c y x,
         nth_error (c0 :: p) j = Some c -> tget K i c = Some (y, x) ->
         tget Kh i j = Some (y, sub (mul flip_point two) x)
         /\ tget Kv i j = Some (sub (mul flip_point two) y, x)
         /\ tget Kr i j = Some (sub one x, y).
Proof.
  intros HK Hp.
  destruct (permuted_in_range (flip_horizontal_cell flip_point) HK Hp)
    as (Kh & Hh & _ & Hsh & Hth).
  destruct (permuted_in_range (flip_vertical_cell flip_point) HK Hp)
    as (Kv & Hv & _ & Hsv & Htv).
  destruct (permuted_in_range rot90_cell HK Hp)
    as (Kr & Hr & _ & Hsr & Htr).
  exists Kh, Kv, Kr.
  rewrite flip_horizontal_permuted, flip_vertical_permuted, rot90_permuted.
  repeat (split; [assumption |]).
  intros i j c y x Hj Hc. now rewrite Hth, Htv, Htr, Hj, Hc.
Qed.

(** X12.  The identity permutation [[0, ..., num_keypoints - 1]] changes
    nothing: the three transforms return what they return without
    permutation. *)
Theorem identity_permutation K (flip_point : D) :
  wf K ->
  flip_horizontal K flip_point (Some (seq 0 (dim1 K)))
  = flip_horizontal K flip_point None
  /\ flip_vertical K flip_point (Some (seq 0 (dim1 K)))
     = flip_vertical K flip_point None
  /\ rot90 K (Some (seq 0 (dim1 K))) = rot90 K None.
Proof.
  intros HK.
  assert (Hid : forall cell,
            permuted cell K (Some (seq 0 (dim1 K))) = permuted cell K None).
  { intros cell. destruct (dim1 K) as [| n] eqn:En; [reflexivity |].
    cbn [seq].
    assert (Hp : Forall (fun c => c < dim1 K) (0 :: seq 1 n)).
    { apply Forall_forall. intros c Hc.
      change (0 :: seq 1 n) with (seq 0 (S n)) in Hc.
      apply in_seq in Hc. lia. }
    destruct (permuted_in_range cell HK Hp) as (K' & HK' & Hw & Hs & Ht).
    rewrite HK'. unfold permuted, permute. rewrite bind_Ok.
    rewrite tf_transpose_tmap, tf_transpose_involutive by exact HK.
    f_equal. apply tensor_ext; [exact Hw | now apply wf_tmap | |].
    - rewrite Hs. unfold shape. cbn [tmap dim0 dim1 length].
      now rewrite length_seq, En.
    - intros i j. rewrite Ht, tget_tmap.
      change (0 :: seq 1 n) with (seq 0 (S n)).
      rewrite nth_error_seq.
      destruct (Nat.ltb_spec j (S n)) as [Hj | Hj]; [reflexivity |].
      rewrite (tget_out_of_range i HK) by lia. reflexivity. }
  rewrite flip_horizontal_permuted, flip_vertical_permuted, rot90_permuted.
  rewrite !Hid.
  now rewrite <- flip_horizontal_permuted, <- flip_vertical_permuted,
    <- rot90_permuted.
Qed.

End PermutedTransforms.

(** One instance with the three keypoints of the docstring of
    [flip_horizontal], head, right eye and left eye, and the permutation
    [[0, 2, 1]] that swaps the eyes. *)
Definition three_keypoints : keypoints F32.dt :=
  {| dim0 := 1; dim1 := 3;
     rows := [[(f_0, f_half); (f_half, f_0); (f_half, f_1)]] |}.

Definition x_three_keypoints : keypoints Exact.dt :=
  {| dim0 := 1; dim1 := 3;
     rows := [[(Exact.of_Q 0, Exact.of_Q (1 # 2));
               (Exact.of_Q (1 # 2), Exact.of_Q 0);
               (Exact.of_Q (1 # 2), Exact.of_Q 1)]] |}.

Lemma wf_three_keypoints : wf three_keypoints.
Proof. split; [reflexivity | repeat constructor]. Qed.

Lemma wf_x_three_keypoints : wf x_three_keypoints.
Proof. split; [reflexivity | repeat constructor]. Qed.

Lemma transforms_with_permutation_witness :
  exists Kh Kv Kr,
    flip_horizontal three_keypoints f_half (Some [0; 2; 1]) = Ok Kh
    /\ flip_vertical three_keypoints f_half (Some [0; 2; 1]) = Ok Kv
    /\ rot90 three_keypoints (Some [0; 2; 1]) = Ok Kr
    /\ shape Kh = (dim0 three_keypoints, length [0; 2; 1])
    /\ shape Kv = (dim0 three_keypoints, length [0; 2; 1])
    /\ shape Kr = (dim0 three_keypoints, length [0; 2; 1])
    /\ forall i j c y x,
         nth_error [0; 2; 1] j = Some c ->
         tget three_keypoints i c = Some (y, x) ->
         tget Kh i j = Some (y, sub (mul f_half two) x)
         /\ tget Kv i j = Some (sub (mul f_half two) y, x)
         /\ tget Kr i j = Some (sub one x, y).
Proof.
  apply (@transforms_with_permutation F32.dt three_keypoints f_half 0 [2; 1]
           wf_three_keypoints).
  repeat constructor.
Defined.

Lemma identity_permutation_witness :
  flip_horizontal three_keypoints f_half (Some (seq 0 (dim1 three_keypoints)))
  = flip_horizontal three_keypoints f_half None
  /\ flip_vertical three_keypoints f_half
       (Some (seq 0 (dim1 three_keypoints)))
     = flip_vertical three_keypoints f_half None
  /\ rot90 three_keypoints (Some (seq 0 (dim1 three_keypoints)))
     = rot90 three_keypoints None.
Proof.
  apply (@identity_permutation F32.dt three_keypoints f_half
           wf_three_keypoints).
Defined.

(** The left and right eyes are swapped by the flip. *)
Example flip_horizontal_swaps_eyes :
  flip_horizontal three_keypoints f_half (Some [0; 2; 1])
  = Ok {| dim0 := 1; dim1 := 3;
          rows := [[(f_0, f_half); (f_half, f_0); (f_half, f_1)]] |}.
Proof. vm_compute. reflexivity. Qed.

(** X13.  Without rounding, flipping twice with the same permutation
    returns [K] when the permutation is its own inverse, as [[0, 2, 1]]
    is: the keypoints that were swapped are swapped back. *)
Theorem flip_horizontal_permutation_involutive (K : keypoints Exact.dt)
  (q : Qc) (c0 : nat) (p : list nat) :
  wf K -> length (c0 :: p) = dim1 K ->
  (forall j c, nth_error (c0 :: p) j = Some c ->
               nth_error (c0 :: p) c = Some j) ->
  (K1 <- flip_horizontal K (Exact.XFin q) (Some (c0 :: p)) ;;
   flip_horizontal K1 (Exact.XFin q) (Some (c0 :: p)))
  = Ok K.
Proof.
  intros HK Hlen Hinv.
  assert (Hp : Forall (fun c => c < dim1 K) (c0 :: p)).
  { apply Forall_forall. intros c Hc.
    destruct (In_nth_error _ _ Hc) as [j Hj].
    rewrite <- Hlen. apply nth_error_Some. rewrite (Hinv j c Hj). discriminate. }
  destruct (permuted_in_range (flip_horizontal_cell (Exact.XFin q)) HK Hp)
    as (K1 & HK1 & Hw1 & Hs1 & Ht1).
  unfold shape in Hs1. injection Hs1 as Hd0 Hd1.
  assert (Hp1 : Forall (fun c => c < dim1 K1) (c0 :: p)).
  { eapply Forall_impl; [| exact Hp]. cbv beta. intros c Hc.
    exact (eq_ind_r (fun n => c < n) Hc (eq_trans Hd1 Hlen)). }
  destruct (permuted_in_range (flip_horizontal_cell (Exact.XFin q)) Hw1 Hp1)
    as (K2 & HK2 & Hw2 & Hs2 & Ht2).
  rewrite flip_horizontal_permuted, HK1, bind_Ok, flip_horizontal_permuted, HK2.
  f_equal. apply tensor_ext; [exact Hw2 | exact HK | |].
  - rewrite Hs2. unfold shape. f_equal; [exact Hd0 | exact Hlen].
  - intros i j. rewrite Ht2.
    destruct (nth_error (c0 :: p) j) as [c |] eqn:E.
    + rewrite Ht1, (Hinv j c E).
      destruct (tget K i j) as [[y x] |]; [| reflexivity].
      unfold flip_horizontal_cell. simpl. do 2 f_equal. apply x_sub_sub.
    + apply nth_error_None in E. symmetry.
      apply tget_out_of_range; [exact HK | lia].
Qed.

Lemma flip_horizontal_permutation_involutive_witness :
  (K1 <- flip_horizontal x_three_keypoints (Exact.XFin (Q2Qc (1 # 2)))
           (Some [0; 2; 1]) ;;
   flip_horizontal K1 (Exact.XFin (Q2Qc (1 # 2))) (Some [0; 2; 1]))
  = Ok x_three_keypoints.
Proof.
  apply (@flip_horizontal_permutation_involutive x_three_keypoints
           (Q2Qc (1 # 2)) 0 [2; 1] wf_x_three_keypoints eq_refl).
  intros [| [| [| j]]] c H; try (injection H as <-; reflexivity).
  destruct j; discriminate.
Defined.

(** ** Scaling there and back *)

Section ScaleRoundTrip.
Import Exact.
Local Open Scope Qc_scope.

Lemma Qcinv_nonzero (a : Qc) : a <> 0 -> / a <> 0.
Proof.
  intros Ha E. pose proof (Qcmult_inv_r a Ha) as Hm.
  rewrite E, Qcmult_0_r in Hm. discriminate.
Qed.

Lemma xorb_cancel (s b : bool) : xorb (xorb s b) b = s.
Proof. now destruct s, b. Qed.

Lemma x_mul_then_div (k : xreal) (a : Qc) :
  a <> 0 -> x_mul (x_mul k (XFin a)) (x_div (of_Q 1) (XFin a)) = k.
Proof.
  intros Ha. rewrite (x_div_one Ha).
  destruct k as [| s | p]; simpl.
  - reflexivity.
  - rewrite (is_zero_false Ha). simpl.
    now rewrite (is_zero_false (Qcinv_nonzero Ha)), (negative_inv Ha),
      xorb_cancel.
  - f_equal. field. exact Ha.
Qed.

Lemma x_div_then_mul (k : xreal) (a : Qc) :
  a <> 0 -> x_mul (x_mul k (x_div (of_Q 1) (XFin a))) (XFin a) = k.
Proof.
  intros Ha. rewrite (x_div_one Ha).
  destruct k as [| s | p]; simpl.
  - reflexivity.
  - rewrite (is_zero_false (Qcinv_nonzero Ha)). simpl.
    now rewrite (is_zero_false Ha), (negative_inv Ha), xorb_cancel.
  - f_equal. field. exact Ha.
Qed.

Lemma scale_then_reciprocal (K : keypoints dt) (a b : Qc) :
  a <> 0 -> b <> 0 ->
  scale (scale K (XFin a) (XFin b)) (div one (XFin a)) (div one (XFin b)) = K.
Proof.
  intros Ha Hb. unfold scale. rewrite !tmap_tmap.
  apply tmap_id; intros [y x]; cbn [fst snd];
    change (@mul dt) with x_mul; change (@div dt) with x_div;
    change (@one dt) with (of_Q 1).
  now rewrite (x_mul_then_div y Ha), (x_mul_then_div x Hb).
Qed.

(** X14.  Without rounding, scaling by finite factors other than 0 and
    then by their reciprocals returns [K], and so does scaling by the
    reciprocals first; the factors may be negative, and NaN and infinite
    coordinates come back as they were. *)
Theorem scale_round_trip (K : keypoints dt) (a b : Qc) :
  a <> 0 -> b <> 0 ->
  scale (scale K (XFin a) (XFin b)) (div one (XFin a)) (div one (XFin b)) = K
  /\ scale (scale K (div one (XFin a)) (div one (XFin b))) (XFin a) (XFin b)
     = K.
Proof.
  intros Ha Hb. split; [now apply scale_then_reciprocal |].
  unfold scale. rewrite !tmap_tmap.
  apply tmap_id; intros [y x]; cbn [fst snd];
    change (@mul dt) with x_mul; change (@div dt) with x_div;
    change (@one dt) with (of_Q 1).
  now rewrite (x_div_then_mul y Ha), (x_div_then_mul x Hb).
Qed.

(** X15.  Without rounding, [to_normalized_coordinates] undoes
    [to_absolute_coordinates] (both with [check_range=False]) for every
    finite height and width other than 0: the converse of the round trip
    through normalized coordinates. *)
Theorem to_normalized_to_absolute (getenv : option string)
  (K : keypoints dt) (h w : Qc) :
  h <> 0 -> w <> 0 ->
  (Ka <- to_absolute_coordinates getenv K (XFin h) (XFin w) false ;;
   to_normalized_coordinates getenv Ka (XFin h) (XFin w) false)
  = Ok K.
Proof.
  intros Hh Hw. unfold to_normalized_coordinates, to_absolute_coordinates.
  rewrite !bind_Ok. f_equal.
  exact (scale_then_reciprocal K Hh Hw).
Qed.

End ScaleRoundTrip.

Lemma Qc_3_nonzero : Q2Qc 3 <> Q2Qc 0.
Proof. discriminate. Qed.

Lemma Qc_minus_4_nonzero : Q2Qc (-4) <> Q2Qc 0.
Proof. discriminate. Qed.

Lemma scale_round_trip_witness :
  scale (scale (x_keypoint 5 7) (Exact.XFin (Q2Qc 3))
               (Exact.XFin (Q2Qc (-4))))
        (div one (Exact.XFin (Q2Qc 3))) (div one (Exact.XFin (Q2Qc (-4))))
  = x_keypoint 5 7
  /\ scale (scale (x_keypoint 5 7) (div one (Exact.XFin (Q2Qc 3)))
                  (div one (Exact.XFin (Q2Qc (-4)))))
           (Exact.XFin (Q2Qc 3)) (Exact.XFin (Q2Qc (-4)))
     = x_keypoint 5 7.
Proof.
  apply (@scale_round_trip (x_keypoint 5 7) (Q2Qc 3) (Q2Qc (-4))
           Qc_3_nonzero Qc_minus_4_nonzero).
Defined.

Lemma to_normalized_to_absolute_witness :
  (Ka <- to_absolute_coordinates None (x_keypoint (1 # 5) (3 # 10))
           (Exact.XFin (Q2Qc 3)) (Exact.XFin (Q2Qc (-4))) false ;;
   to_normalized_coordinates None Ka (Exact.XFin (Q2Qc 3))
                             (Exact.XFin (Q2Qc (-4))) false)
  = Ok (x_keypoint (1 # 5) (3 # 10)).
Proof.
  apply (@to_normalized_to_absolute None (x_keypoint (1 # 5) (3 # 10))
           (Q2Qc 3) (Q2Qc (-4)) Qc_3_nonzero Qc_minus_4_nonzero).
Defined.

(** ** Products by 1 and degenerate windows in binary32 *)

Section Binary32Products.
Local Open Scope Z_scope.

(** The facts are proved for every upper bound [emx] of the exponents:
    they are used with that of binary32 and with the wide one through
    which the kernels look at a product. *)
(** The product of a float by 1 is the float: the mantissa is shifted up
    by 23 bits and back down, with nothing to round. *)
Lemma binary_round_aux_one (emx : Z) (s : bool) (m : positive) (e : Z) :
  fexp F32.prec emx (Zpos (digits2_pos m) + e) = e -> e <= emx - 24 ->
  binary_round_aux F32.prec emx s (Zpos (m * 8388608)) (e + -23) loc_Exact
  = S754_finite s m e.
Proof.
  intros Hc He.
  pose proof (digits2_pos_bounds m) as Hd.
  set (d := Zpos (digits2_pos m)) in *.
  assert (Hd1 : 1 <= d) by (unfold d; lia).
  assert (HM : Zpos (m * 8388608) = Zpos m * 2 ^ 23) by reflexivity.
  assert (HdM : Zpos (digits2_pos (m * 8388608)) = d + 23).
  { apply digits2_pos_unique. rewrite HM.
    replace (d + 23 - 1) with ((d - 1) + 23) by lia.
    rewrite !pow2_split by lia. lia. }
  unfold binary_round_aux, shr_fexp at 1. cbn [Zdigits2].
  rewrite HdM.
  replace (d + 23 + (e + -23)) with (d + e) by lia. rewrite Hc.
  replace (e - (e + -23)) with 23 by lia.
  cbn [shr_record_of_loc shr].
  replace (e + -23 + 23) with e by lia.
  set (mrs := iter_pos shr_1 23 _).
  assert (Hsh : shifted (Zpos (m * 8388608)) 23 mrs)
    by (apply shifted_iter_pos; lia).
  destruct (@round_shifted _ 23 mrs ltac:(lia) Hsh) as (_ & _ & Hex).
  assert (Hm1 : round_nearest_even (shr_m mrs) (loc_of_shr_record mrs)
                = Zpos m).
  { assert (Hdv : (2 ^ 23 | Zpos (m * 8388608)))
      by (exists (Zpos m); exact HM).
    specialize (Hex Hdv). rewrite HM in Hex.
    apply Z.mul_cancel_r in Hex; [exact Hex | lia]. }
  rewrite Hm1, (shr_fexp_canonical emx m Hc). cbn [shr_m].
  replace (e <=? emx - F32.prec) with true; [reflexivity |].
  symmetry. apply Z.leb_le. unfold F32.prec. lia.
Qed.

Lemma SFmul_one_r (emx : Z) (x : spec_float) :
  match x with
  | S754_finite _ m e =>
      fexp F32.prec emx (Zpos (digits2_pos m) + e) = e /\ e <= emx - 24
  | _ => True
  end ->
  SFmul F32.prec emx x f32_one = x.
Proof.
  destruct x as [s | s | | s m e]; intros Hv.
  - now destruct s.
  - now destruct s.
  - reflexivity.
  - destruct Hv as [Hc He].
    unfold SFmul, f32_one. rewrite xorb_false_r.
    now apply binary_round_aux_one.
Qed.

Lemma valid_f32_flush (x : F32.dt) :
  valid_binary F32.prec F32.emax x = true ->
  valid_binary F32.prec F32.emax (flush x) = true.
Proof.
  intros H. change (@flush F32.dt x) with (F32.f32_flush x).
  unfold F32.f32_flush. now destruct (F32.tiny x).
Qed.

(** Through the kernel, the product of a float by 1 is the float as the
    kernel reads it. *)
Lemma f32_mul_one_r (x : F32.dt) :
  valid_binary F32.prec F32.emax x = true -> mul x f32_one = flush x.
Proof.
  intros Hv. apply valid_f32_flush in Hv.
  change (@flush F32.dt x) with (F32.f32_flush x) in Hv.
  change (F32.flushed SFmul (F32.f32_flush x) f32_one = F32.f32_flush x).
  pose proof (F32.tiny_f32_flush x) as Ht.
  destruct (F32.f32_flush x) as [s | s | | s m e] eqn:Ex;
    try (now destruct s); try reflexivity.
  apply valid_finite in Hv. destruct Hv as [Hc He].
  cbn [F32.tiny] in Ht. apply Z.leb_gt in Ht.
  unfold F32.flushed.
  rewrite (@SFmul_one_r F32.wide_emax (S754_finite s m e)).
  2:{ unfold fexp, emin, F32.prec, F32.wide_emax. lia. }
  cbn [F32.tiny]. replace (_ <=? -126) with false
    by (symmetry; apply Z.leb_gt; lia).
  apply SFmul_one_r. rewrite fexp_eq. unfold F32.emax. lia.
Qed.

Lemma SFsub_zero_r (x : spec_float) :
  SFsub F32.prec F32.emax x (S754_zero false) = x.
Proof. destruct x as [[] | [] | | s m e]; reflexivity. Qed.

Lemma f32_sub_zero_r (x : F32.dt) : sub x f_0 = flush x.
Proof.
  change (F32.f32_flush
            (SFsub F32.prec F32.emax (F32.f32_flush x) (S754_zero false))
          = F32.f32_flush x).
  rewrite SFsub_zero_r. apply F32.f32_flush_flush.
Qed.

(** The difference of a finite float with itself is a zero, ... *)
Lemma SFsub_diag (x : spec_float) :
  is_finite x = true ->
  exists s, SFsub F32.prec F32.emax x x = S754_zero s.
Proof.
  destruct x as [s | s | | s m e]; try discriminate; intros _.
  - destruct s; eexists; reflexivity.
  - exists false. unfold SFsub. now rewrite Z.sub_diag.
Qed.

Lemma f32_sub_diag (x : F32.dt) :
  is_finite x = true -> exists s, sub x x = S754_zero s.
Proof.
  intros Hf.
  change (exists s,
            F32.f32_flush (SFsub F32.prec F32.emax (F32.f32_flush x)
                                 (F32.f32_flush x)) = S754_zero s).
  assert (Hff : is_finite (F32.f32_flush x) = true).
  { unfold F32.f32_flush. now destruct (F32.tiny x). }
  destruct (SFsub_diag _ Hff) as [s Hs]. rewrite Hs. now exists s.
Qed.

(** ... the reciprocal of a zero is infinite, and no product by an
    infinite number is finite. *)
Lemma f32_div_one_zero (s : bool) :
  @div F32.dt f32_one (S754_zero s) = S754_infinity s.
Proof. now destruct s. Qed.

Lemma f32_mul_infinity (x : F32.dt) (s : bool) :
  is_finite (mul x (S754_infinity s)) = false.
Proof.
  change (is_finite (F32.flushed SFmul (F32.f32_flush x) (S754_infinity s))
          = false).
  destruct (F32.f32_flush x) as [s' | s' | | s' m e]; reflexivity.
Qed.

Lemma f32_mul_zero_infinity (s s' : bool) :
  @mul F32.dt (S754_zero s) (S754_infinity s') = S754_nan.
Proof. reflexivity. Qed.

End Binary32Products.

Lemma tmap_fixed {A} (f : A -> A) (ok : A -> bool) (t : tensor A) :
  (forall a, ok a = true -> f a = a) ->
  forallb (forallb ok) (rows t) = true -> tmap f t = t.
Proof.
  intros Hf. destruct t as [n k rs]. unfold tmap; simpl. intros H. f_equal.
  induction rs as [| r rs IH]; simpl in *; [reflexivity |].
  apply andb_true_iff in H. destruct H as [Hr Hrs].
  rewrite (IH Hrs). f_equal.
  clear - Hf Hr. induction r as [| a r IHr]; simpl in *; [reflexivity |].
  apply andb_true_iff in Hr. destruct Hr as [Ha Hr].
  now rewrite (Hf a Ha), (IHr Hr).
Qed.

Lemma tmap_ext_in {A B} (f g : A -> B) (ok : A -> bool) (t : tensor A) :
  (forall a, ok a = true -> f a = g a) ->
  forallb (forallb ok) (rows t) = true -> tmap f t = tmap g t.
Proof.
  intros Hf H. unfold tmap. f_equal.
  rewrite forallb_forall in H.
  apply map_ext_in. intros r Hr. specialize (H r Hr).
  rewrite forallb_forall in H.
  apply map_ext_in. intros a Ha. now apply Hf, H.
Qed.

(** Every coordinate is a float of binary32. *)
Definition f32_valid (K : keypoints F32.dt) : bool :=
  @in_unit_square F32.dt (valid_binary F32.prec F32.emax) K.

(** X16.  In binary32 the unit factors move no keypoint, rounding
    included: [scale] by [(1, 1)], [to_absolute_coordinates] and
    [to_normalized_coordinates] with height and width 1, and
    [change_coordinate_frame] to the window [0, 0, 1, 1] return [K] as the
    kernels read it, each subnormal coordinate replaced by a zero of its
    sign and every other coordinate as it is. *)
Theorem unit_factors_f32 (getenv : option string) (K : keypoints F32.dt) :
  f32_valid K = true ->
  scale K f_1 f_1 = tmap flush_cell K
  /\ to_absolute_coordinates getenv K f_1 f_1 false = Ok (tmap flush_cell K)
  /\ to_normalized_coordinates getenv K f_1 f_1 false
     = Ok (tmap flush_cell K)
  /\ change_coordinate_frame K unit_window = tmap flush_cell K.
Proof.
  intros HK.
  assert (Hs : scale K f_1 f_1 = tmap flush_cell K).
  { unfold scale.
    apply tmap_ext_in
      with (ok := fun p : F32.dt * F32.dt =>
                    (valid_binary F32.prec F32.emax (fst p)
                     && valid_binary F32.prec F32.emax (snd p))%bool);
      [| exact HK].
    intros [y x] H. apply andb_true_iff in H. destruct H as [Hy Hx].
    cbn [fst snd] in *. unfold flush_cell. cbn [fst snd].
    change f_1 with f32_one.
    now rewrite (f32_mul_one_r y Hy), (f32_mul_one_r x Hx). }
  split; [exact Hs |].
  split; [unfold to_absolute_coordinates; rewrite bind_Ok; now f_equal |].
  split.
  - unfold to_normalized_coordinates. rewrite bind_Ok. f_equal.
    change (@div F32.dt one f_1) with f_1. exact Hs.
  - rewrite change_coordinate_frame_cells.
    apply tmap_ext_in
      with (ok := fun p : F32.dt * F32.dt =>
                    (valid_binary F32.prec F32.emax (fst p)
                     && valid_binary F32.prec F32.emax (snd p))%bool);
      [| exact HK].
    intros [y x] H. apply andb_true_iff in H. destruct H as [Hy Hx].
    unfold frame_cell, flush_cell, unit_window.
    cbn [fst snd win_y_min win_x_min win_y_max win_x_max] in *.
    change (@div F32.dt one (sub f_1 f_0)) with f32_one.
    rewrite !f32_sub_zero_r.
    rewrite (f32_mul_one_r (flush y) (valid_f32_flush y Hy)),
      (f32_mul_one_r (flush x) (valid_f32_flush x Hx)).
    now rewrite !(flush_flush F32.dt).
Qed.

(** The keypoints [[[2^-149, -2^-149], [2^-126, 3 * 2^-149]]] scaled by
    [(1, 1)] are [[[0, -0], [2^-126, 0]]]. *)
Definition K_subnormal : keypoints F32.dt :=
  {| dim0 := 1; dim1 := 2;
     rows := [[(f_min, f_neg_min);
               (S754_finite false 8388608 (-149),
                S754_finite false 3 (-149))]] |}.

Lemma unit_factors_f32_witness :
  scale K_subnormal f_1 f_1 = tmap flush_cell K_subnormal
  /\ to_absolute_coordinates None K_subnormal f_1 f_1 false
     = Ok (tmap flush_cell K_subnormal)
  /\ to_normalized_coordinates None K_subnormal f_1 f_1 false
     = Ok (tmap flush_cell K_subnormal)
  /\ change_coordinate_frame K_subnormal unit_window
     = tmap flush_cell K_subnormal.
Proof.
  apply (@unit_factors_f32 None K_subnormal). reflexivity.
Defined.

Example scale_flushes_subnormal :
  scale K_subnormal f_1 f_1
  = {| dim0 := 1; dim1 := 2;
       rows := [[(S754_zero false, S754_zero true);
                 (S754_finite false 8388608 (-149), S754_zero false)]] |}.
Proof. reflexivity. Qed.

(** X17.  [change_coordinate_frame] does not guard against a window of
    height 0 or width 0.  In binary32, for finite bounds with
    [y_max = y_min], no y-coordinate of the result is a finite number: it
    is infinite or NaN, and NaN for a keypoint on the line [y = y_min];
    likewise for the x-coordinates when [x_max = x_min]. *)
Theorem change_coordinate_frame_degenerate (K : keypoints F32.dt)
  (W : window F32.dt) (i k : nat) (y x : F32.dt) :
  tget K i k = Some (y, x) ->
  exists y' x',
    tget (change_coordinate_frame K W) i k = Some (y', x')
    /\ (is_finite (win_y_min W) = true -> win_y_max W = win_y_min W ->
        is_finite y' = false /\ (y = win_y_min W -> is_nan y' = true))
    /\ (is_finite (win_x_min W) = true -> win_x_max W = win_x_min W ->
        is_finite x' = false /\ (x = win_x_min W -> is_nan x' = true)).
Proof.
  intros H. rewrite change_coordinate_frame_cells, tget_tmap, H.
  eexists _, _. split; [reflexivity |]. unfold frame_cell. cbn [fst snd].
  change (@one F32.dt) with f32_one.
  split; intros Hf ->; destruct (f32_sub_diag _ Hf) as [s Hs];
    rewrite Hs, f32_div_one_zero;
    (split; [apply f32_mul_infinity
            | intros ->; now rewrite Hs, f32_mul_zero_infinity]).
Qed.

Lemma change_coordinate_frame_degenerate_witness :
  exists y' x',
    tget (change_coordinate_frame (one_keypoint f_3 f_5)
                                  (Window f_3 f_0 f_3 f_0)) 0 0
    = Some (y', x')
    /\ (is_finite (win_y_min (Window f_3 f_0 f_3 f_0)) = true ->
        win_y_max (Window f_3 f_0 f_3 f_0)
        = win_y_min (Window f_3 f_0 f_3 f_0) ->
        is_finite y' = false
        /\ (f_3 = win_y_min (Window f_3 f_0 f_3 f_0) -> is_nan y' = true))
    /\ (is_finite (win_x_min (Window f_3 f_0 f_3 f_0)) = true ->
        win_x_max (Window f_3 f_0 f_3 f_0)
        = win_x_min (Window f_3 f_0 f_3 f_0) ->
        is_finite x' = false
        /\ (f_5 = win_x_min (Window f_3 f_0 f_3 f_0) -> is_nan x' = true)).
Proof.
  apply (@change_coordinate_frame_degenerate (one_keypoint f_3 f_5)
           (Window f_3 f_0 f_3 f_0) 0 0 f_3 f_5).
  reflexivity.
Defined.

(** A keypoint on the origin of a window without extent becomes
    [(NaN, +inf)] here: [0 * inf] and [5 * inf]. *)
Example change_coordinate_frame_degenerate_example :
  change_coordinate_frame (one_keypoint f_3 f_5) (Window f_3 f_0 f_3 f_0)
  = one_keypoint f_nan (S754_infinity false).
Proof. reflexivity. Qed.

(** ** Bounding boxes and weights *)

(** [keypoints_to_enclosing_bounding_boxes] and
    [keypoint_weights_from_visibilities] need more of the element type:
    the values of [tf.cast(False, tf.float32)] and of [tf.reduce_min] on
    no element, and an order that is transitive with the two infinities
    at its ends. *)
Structure num_dtype : Type := NumDtype {
  base :> dtype;
  zero : base;                  (* the literal 0.0 *)
  pos_inf : base;               (* what tf.reduce_min answers on no element *)
  pos_inf_not_nan : is_nan pos_inf = false;
  neg_inf_not_nan : is_nan (@neg_inf base) = false;
  leb_trans : forall a b c : base,
    leb a b = true -> leb b c = true -> leb a c = true;
  pos_inf_greatest : forall a : base,
    is_nan a = false -> ltb a pos_inf = false -> a = pos_inf;
  neg_inf_least : forall a : base,
    is_nan a = false -> ltb neg_inf a = false -> a = neg_inf;
  mul_one_one : mul (@one base) one = one;
  mul_one_zero : mul (@one base) zero = zero
}.

Arguments zero {n}. Arguments pos_inf {n}.

Section Binary32Order.
Local Open Scope Z_scope.

Lemma SFleb_trans (a b c : F32.f32) :
  SFleb a b = true -> SFleb b c = true -> SFleb a c = true.
Proof.
  unfold SFleb, SFcompare.
  destruct a as [sa | sa | | sa ma ea], b as [sb | sb | | sb mb eb],
    c as [sc | sc | | sc mc ec];
    try discriminate; try reflexivity;
    try (destruct sa; discriminate); try (destruct sb; discriminate);
    try (destruct sc; discriminate);
    try (destruct sa, sb; discriminate); try (destruct sb, sc; discriminate);
    try (destruct sa, sc; reflexivity || discriminate);
    try (destruct sa, sb, sc; reflexivity || discriminate).
  change (Pos.compare_cont Eq ma mb) with (Pos.compare ma mb).
  change (Pos.compare_cont Eq mb mc) with (Pos.compare mb mc).
  change (Pos.compare_cont Eq ma mc) with (Pos.compare ma mc).
  destruct sa, sb, sc; try discriminate; try reflexivity;
    destruct (Z.compare_spec ea eb), (Z.compare_spec eb ec),
      (Z.compare_spec ea ec);
    try discriminate; try reflexivity; try lia;
    destruct (Pos.compare_spec ma mb), (Pos.compare_spec mb mc),
      (Pos.compare_spec ma mc);
    simpl; try discriminate; try reflexivity; intros; lia.
Qed.

Lemma f32_leb_trans (a b c : F32.dt) :
  leb a b = true -> leb b c = true -> leb a c = true.
Proof. apply SFleb_trans. Qed.

Lemma SFltb_pos_inf_greatest (a : F32.f32) :
  F32.f32_is_nan a = false -> SFltb a (S754_infinity false) = false ->
  a = S754_infinity false.
Proof.
  destruct a as [s | [] | | [] m e]; try discriminate; try reflexivity;
    destruct s; discriminate.
Qed.

Lemma SFltb_neg_inf_least (a : F32.f32) :
  F32.f32_is_nan a = false -> SFltb (S754_infinity true) a = false ->
  a = S754_infinity true.
Proof.
  destruct a as [s | [] | | [] m e]; try discriminate; try reflexivity;
    destruct s; discriminate.
Qed.

(** Only an infinite number is read as one. *)
Lemma f32_flush_infinity (a : F32.f32) (s : bool) :
  F32.f32_flush a = S754_infinity s -> a = S754_infinity s.
Proof. unfold F32.f32_flush. now destruct (F32.tiny a). Qed.

Lemma f32_pos_inf_greatest (a : F32.dt) :
  is_nan a = false -> @ltb F32.dt a (S754_infinity false) = false ->
  a = S754_infinity false.
Proof.
  intros Hn H. apply f32_flush_infinity.
  apply SFltb_pos_inf_greatest; [now rewrite F32.f32_flush_is_nan | exact H].
Qed.

Lemma f32_neg_inf_least (a : F32.dt) :
  is_nan a = false -> @ltb F32.dt (S754_infinity true) a = false ->
  a = S754_infinity true.
Proof.
  intros Hn H. apply f32_flush_infinity.
  apply SFltb_neg_inf_least; [now rewrite F32.f32_flush_is_nan | exact H].
Qed.

Lemma f32_mul_one_one : @mul F32.dt (F32.of_Z 1) (F32.of_Z 1) = F32.of_Z 1.
Proof. reflexivity. Qed.

Lemma f32_mul_one_zero :
  @mul F32.dt (F32.of_Z 1) (S754_zero false) = S754_zero false.
Proof. reflexivity. Qed.

Lemma f32_inf_not_nan (s : bool) : F32.f32_is_nan (S754_infinity s) = false.
Proof. reflexivity. Qed.

End Binary32Order.

Definition f32_num : num_dtype :=
  {| base := F32.dt;
     zero := S754_zero false;
     pos_inf := S754_infinity false;
     pos_inf_not_nan := f32_inf_not_nan false;
     neg_inf_not_nan := f32_inf_not_nan true;
     leb_trans := f32_leb_trans;
     pos_inf_greatest := f32_pos_inf_greatest;
     neg_inf_least := f32_neg_inf_least;
     mul_one_one := f32_mul_one_one;
     mul_one_zero := f32_mul_one_zero |}.

Section ExactOrder.
Import Exact.
Local Open Scope Qc_scope.

Lemma x_leb_fin (p q : Qc) : x_leb (XFin p) (XFin q) = true <-> p <= q.
Proof.
  unfold x_leb, x_compare. rewrite (Qcle_alt p q).
  destruct (p ?= q); split; congruence.
Qed.

Lemma x_leb_trans (a b c : xreal) :
  x_leb a b = true -> x_leb b c = true -> x_leb a c = true.
Proof.
  destruct a as [| sa | p], b as [| sb | q], c as [| sc | r];
    try discriminate; try reflexivity;
    try (destruct sa; discriminate); try (destruct sb; discriminate);
    try (destruct sc; discriminate);
    try (destruct sa, sb; discriminate); try (destruct sb, sc; discriminate);
    try (destruct sa, sc; reflexivity || discriminate);
    try (destruct sa, sb, sc; reflexivity || discriminate);
    try (destruct sa; try destruct sb; cbv [x_leb x_compare]; intros;
         solve [reflexivity | discriminate]);
    try (destruct sb; try destruct sc; cbv [x_leb x_compare]; intros;
         solve [reflexivity | discriminate]);
    try (destruct sc; cbv [x_leb x_compare]; intros;
         solve [reflexivity | discriminate]).
  rewrite !x_leb_fin. apply Qcle_trans.
Qed.

Lemma x_pos_inf_greatest (a : xreal) :
  x_is_nan a = false -> x_ltb a (XInf false) = false -> a = XInf false.
Proof. destruct a as [| [] | p]; try discriminate; reflexivity. Qed.

Lemma x_neg_inf_least (a : xreal) :
  x_is_nan a = false -> x_ltb (XInf true) a = false -> a = XInf true.
Proof. destruct a as [| [] | p]; try discriminate; reflexivity. Qed.

Lemma x_mul_one_one : x_mul (of_Q 1) (of_Q 1) = of_Q 1.
Proof. unfold of_Q, x_mul. now rewrite Qcmult_1_l. Qed.

Lemma x_mul_one_zero : x_mul (of_Q 1) (of_Q 0) = of_Q 0.
Proof. unfold of_Q, x_mul. now rewrite Qcmult_1_l. Qed.

Lemma x_inf_not_nan (s : bool) : x_is_nan (XInf s) = false.
Proof. reflexivity. Qed.

End ExactOrder.

Definition exact_num : num_dtype :=
  {| base := Exact.dt;
     zero := Exact.of_Q 0;
     pos_inf := Exact.XInf false;
     pos_inf_not_nan := x_inf_not_nan false;
     neg_inf_not_nan := x_inf_not_nan true;
     leb_trans := x_leb_trans;
     pos_inf_greatest := x_pos_inf_greatest;
     neg_inf_least := x_neg_inf_least;
     mul_one_one := x_mul_one_one;
     mul_one_zero := x_mul_one_zero |}.

(** *** [keypoints_to_enclosing_bounding_boxes] *)

(** The failure of an axis outside [[-2, 2)]: the slices
    [keypoints[..., 0]] that are reduced have rank 2. *)
Inductive axis_error : Type :=
| InvalidAxis (axis : Z).

(** A negative axis counts from the last one. *)
Definition normalize_axis (axis : Z) : result axis_error nat :=
  if ((0 <=? axis) && (axis <? 2))%Z then Ok (Z.to_nat axis)
  else if ((-2 <=? axis) && (axis <? 0))%Z then Ok (Z.to_nat (axis + 2))
  else Err (InvalidAxis axis).

Section BoundingBoxes.
Variable D : num_dtype.

(** [tf.math.reduce_min] and [tf.math.reduce_max] of the elements along
    the reduced axis: the reducer starts from [+inf] or [-inf] and takes
    in the elements one by one, each as the first operand of [tf.minimum]
    or [tf.maximum].  Like these they answer NaN as soon as an element is
    NaN, and answer an element as the kernels read it. *)
Definition reduce_min_list (l : list D) : D :=
  fold_left (fun acc t => tf_minimum t acc) l pos_inf.
Definition reduce_max_list (l : list D) : D :=
  fold_left (fun acc t => tf_maximum t acc) l neg_inf.

(** The reduction of a tensor of shape [dim0, dim1] along axis 0 or 1. *)
Definition tf_reduce_axis (reduce : list D -> D) (axis : nat) (t : tensor D)
  : list D :=
  match axis with
  | 0 => map (fun k => reduce (column k (rows t))) (seq 0 (dim1 t))
  | _ => map reduce (rows t)
  end.

(** [tf.stack([a, b, c, d], axis)] of four vectors of one length *)
Definition tf_stack4 (a b c d : list D) (axis : nat) : tensor D :=
  match axis with
  | 0 => {| dim0 := 4; dim1 := length a; rows := [a; b; c; d] |}
  | _ => {| dim0 := length a; dim1 := 4;
            rows := map (fun q => [fst (fst q); snd (fst q);
                                   fst (snd q); snd (snd q)])
                        (combine (combine a b) (combine c d)) |}
  end.

Definition keypoints_to_enclosing_bounding_boxes (K : keypoints D)
  (keypoints_axis : Z) : result axis_error (tensor D) :=
  axis <- normalize_axis keypoints_axis ;;
  let ymin := tf_reduce_axis reduce_min_list axis (tmap fst K) in
  let xmin := tf_reduce_axis reduce_min_list axis (tmap snd K) in
  let ymax := tf_reduce_axis reduce_max_list axis (tmap fst K) in
  let xmax := tf_reduce_axis reduce_max_list axis (tmap snd K) in
  Ok (tf_stack4 ymin xmin ymax xmax axis).

End BoundingBoxes.

Arguments keypoints_to_enclosing_bounding_boxes {D}.

Section BoundingBoxFacts.
Variable D : num_dtype.
Implicit Types (K : keypoints D) (l : list D) (r : list (D * D)).

Lemma tf_minimum_cases (a b : D) :
  is_nan a = false -> is_nan b = false ->
  is_nan (tf_minimum a b) = false
  /\ leb (tf_minimum a b) a = true /\ leb (tf_minimum a b) b = true
  /\ (tf_minimum a b = flush a \/ tf_minimum a b = flush b).
Proof.
  intros Ha Hb. unfold tf_minimum. rewrite Ha, Hb.
  destruct (ltb b a) eqn:E; rewrite flush_is_nan, !leb_flush_l.
  - repeat split; auto using ltb_leb, leb_refl.
  - repeat split; auto using leb_refl, leb_total.
Qed.

Lemma tf_maximum_cases (a b : D) :
  is_nan a = false -> is_nan b = false ->
  is_nan (tf_maximum a b) = false
  /\ leb a (tf_maximum a b) = true /\ leb b (tf_maximum a b) = true
  /\ (tf_maximum a b = flush a \/ tf_maximum a b = flush b).
Proof.
  intros Ha Hb. unfold tf_maximum. rewrite Ha, Hb.
  destruct (ltb a b) eqn:E; rewrite flush_is_nan, !leb_flush_r.
  - repeat split; auto using ltb_leb, leb_refl.
  - repeat split; auto using leb_refl, leb_total.
Qed.

Lemma tf_minimum_nan_either (a b : D) :
  is_nan a = true \/ is_nan b = true -> is_nan (tf_minimum a b) = true.
Proof.
  unfold tf_minimum. destruct (is_nan a) eqn:Ha; [auto |].
  intros [H | H]; [discriminate | now rewrite H].
Qed.

Lemma tf_maximum_nan_either (a b : D) :
  is_nan a = true \/ is_nan b = true -> is_nan (tf_maximum a b) = true.
Proof.
  unfold tf_maximum. destruct (is_nan a) eqn:Ha; [auto |].
  intros [H | H]; [discriminate | now rewrite H].
Qed.

(** The minimum of elements that are not NaN is below the start value
    and below each of them; when there is an element, it is one of them
    or the start value, as the kernels read it. *)
Lemma fold_minimum_spec l (acc : D) :
  is_nan acc = false -> Forall (fun v => is_nan v = false) l ->
  let m := fold_left (fun acc t => tf_minimum t acc) l acc in
  is_nan m = false
  /\ leb m acc = true
  /\ Forall (fun v => leb m v = true) l
  /\ (l <> [] -> m = flush acc \/ In m (map flush l)).
Proof.
  intros Ha Hl. cbv zeta. revert acc Ha.
  induction Hl as [| v l Hv Hl IH]; intros acc Ha; cbn [fold_left].
  - repeat split; auto using leb_refl. intros H. now elim H.
  - destruct (@tf_minimum_cases v acc Hv Ha) as (Hn & H1 & H2 & Hc).
    destruct (IH _ Hn) as (Hrn & Hr & Hall & Hin).
    split; [exact Hrn |].
    split; [exact (leb_trans D _ _ _ Hr H2) |].
    split; [constructor; [exact (leb_trans D _ _ _ Hr H1) | exact Hall] |].
    intros _. destruct l as [| w l].
    + cbn [fold_left map].
      destruct Hc as [Hc | Hc]; rewrite Hc; [right; now left | now left].
    + destruct Hin as [Hin | Hin]; [discriminate | | right; now right].
      rewrite Hin.
      destruct Hc as [Hc | Hc]; rewrite Hc, flush_flush;
        [right; now left | now left].
Qed.

Lemma fold_maximum_spec l (acc : D) :
  is_nan acc = false -> Forall (fun v => is_nan v = false) l ->
  let m := fold_left (fun acc t => tf_maximum t acc) l acc in
  is_nan m = false
  /\ leb acc m = true
  /\ Forall (fun v => leb v m = true) l
  /\ (l <> [] -> m = flush acc \/ In m (map flush l)).
Proof.
  intros Ha Hl. cbv zeta. revert acc Ha.
  induction Hl as [| v l Hv Hl IH]; intros acc Ha; cbn [fold_left].
  - repeat split; auto using leb_refl. intros H. now elim H.
  - destruct (@tf_maximum_cases v acc Hv Ha) as (Hn & H1 & H2 & Hc).
    destruct (IH _ Hn) as (Hrn & Hr & Hall & Hin).
    split; [exact Hrn |].
    split; [exact (leb_trans D _ _ _ H2 Hr) |].
    split; [constructor; [exact (leb_trans D _ _ _ H1 Hr) | exact Hall] |].
    intros _. destruct l as [| w l].
    + cbn [fold_left map].
      destruct Hc as [Hc | Hc]; rewrite Hc; [right; now left | now left].
    + destruct Hin as [Hin | Hin]; [discriminate | | right; now right].
      rewrite Hin.
      destruct Hc as [Hc | Hc]; rewrite Hc, flush_flush;
        [right; now left | now left].
Qed.

Lemma fold_minimum_nan l (acc : D) :
  is_nan acc = true \/ Exists (fun v => is_nan v = true) l ->
  is_nan (fold_left (fun acc t => tf_minimum t acc) l acc) = true.
Proof.
  revert acc. induction l as [| v l IH]; intros acc H; cbn [fold_left].
  - destruct H as [H | H]; [exact H | inversion H].
  - apply IH. destruct H as [H | H].
    + left. apply tf_minimum_nan_either. now right.
    + inversion H; subst; [left; apply tf_minimum_nan_either; now left |].
      now right.
Qed.

Lemma fold_maximum_nan l (acc : D) :
  is_nan acc = true \/ Exists (fun v => is_nan v = true) l ->
  is_nan (fold_left (fun acc t => tf_maximum t acc) l acc) = true.
Proof.
  revert acc. induction l as [| v l IH]; intros acc H; cbn [fold_left].
  - destruct H as [H | H]; [exact H | inversion H].
  - apply IH. destruct H as [H | H].
    + left. apply tf_maximum_nan_either. now right.
    + inversion H; subst; [left; apply tf_maximum_nan_either; now left |].
      now right.
Qed.

(** The minimum of a list that is not empty is one of its elements, as
    the kernels read it. *)
Lemma reduce_min_list_spec l :
  Forall (fun v => is_nan v = false) l ->
  Forall (fun v => leb (reduce_min_list D l) v = true) l
  /\ (l <> [] -> In (reduce_min_list D l) (map flush l)).
Proof.
  intros Hl. unfold reduce_min_list.
  destruct (@fold_minimum_spec l pos_inf (pos_inf_not_nan D) Hl)
    as (_ & _ & Hall & Hin).
  split; [exact Hall |]. intros Hne.
  destruct (Hin Hne) as [Hm | Hm]; [| exact Hm].
  destruct l as [| v l]; [contradiction |].
  inversion Hl; subst. inversion Hall; subst.
  cbn [map]. left. rewrite Hm. f_equal.
  apply pos_inf_greatest; [assumption |]. apply leb_not_ltb.
  match goal with H : leb _ v = true |- _ =>
    rewrite Hm, leb_flush_l in H; exact H end.
Qed.

Lemma reduce_max_list_spec l :
  Forall (fun v => is_nan v = false) l ->
  Forall (fun v => leb v (reduce_max_list D l) = true) l
  /\ (l <> [] -> In (reduce_max_list D l) (map flush l)).
Proof.
  intros Hl. unfold reduce_max_list.
  destruct (@fold_maximum_spec l neg_inf (neg_inf_not_nan D) Hl)
    as (_ & _ & Hall & Hin).
  split; [exact Hall |]. intros Hne.
  destruct (Hin Hne) as [Hm | Hm]; [| exact Hm].
  destruct l as [| v l]; [contradiction |].
  inversion Hl; subst. inversion Hall; subst.
  cbn [map]. left. rewrite Hm. f_equal.
  apply neg_inf_least; [assumption |]. apply leb_not_ltb.
  match goal with H : leb v _ = true |- _ =>
    rewrite Hm, leb_flush_r in H; exact H end.
Qed.

Lemma combine_map_map {A B C} (f : A -> B) (g : A -> C) (l : list A) :
  combine (map f l) (map g l) = map (fun a => (f a, g a)) l.
Proof. induction l as [| a l IH]; simpl; [reflexivity | now rewrite IH]. Qed.

(** The box of an instance, from its keypoints. *)
Definition box_of r : list D :=
  [reduce_min_list D (map fst r); reduce_min_list D (map snd r);
   reduce_max_list D (map fst r); reduce_max_list D (map snd r)].

(** Along the keypoint axis, one box per instance. *)
Lemma bounding_boxes_rows K :
  keypoints_to_enclosing_bounding_boxes K 1
  = Ok {| dim0 := length (rows K); dim1 := 4; rows := map box_of (rows K) |}.
Proof.
  unfold keypoints_to_enclosing_bounding_boxes.
  change (normalize_axis 1) with (@Ok axis_error nat 1). rewrite bind_Ok.
  cbn [tf_reduce_axis tf_stack4 tmap rows]. f_equal. f_equal.
  - now rewrite !length_map.
  - rewrite !map_map, !combine_map_map, map_map. cbn [fst snd].
    apply map_ext. intros r. reflexivity.
Qed.

End BoundingBoxFacts.

Section BoundingBoxTheorems.
Variable D : num_dtype.
Implicit Types (K : keypoints D) (r : list (D * D)).

Lemma Forall_fst_snd r :
  Forall (fun p => has_nan p = false) r ->
  Forall (fun v : D => is_nan v = false) (map fst r)
  /\ Forall (fun v : D => is_nan v = false) (map snd r).
Proof.
  intros H. split; apply Forall_map; eapply Forall_impl; try exact H;
    intros [y x]; unfold has_nan; cbn [fst snd]; intros E;
    apply orb_false_iff in E; tauto.
Qed.

(** X18.  With the default axis, the box of an instance whose keypoints
    have no NaN encloses every one of them in the comparisons of the
    kernels, bounds included, and is tight: when the instance has a
    keypoint, each of [ymin], [xmin], [ymax], [xmax] is the coordinate of
    one of its keypoints as the kernels read it, a zero for a subnormal
    coordinate and the coordinate itself otherwise. *)
Theorem bounding_boxes_enclose K (i : nat) r :
  nth_error (rows K) i = Some r ->
  Forall (fun p => has_nan p = false) r ->
  exists B ymin xmin ymax xmax,
    keypoints_to_enclosing_bounding_boxes K 1 = Ok B
    /\ nth_error (rows B) i = Some [ymin; xmin; ymax; xmax]
    /\ (forall y x, In (y, x) r ->
          leb ymin y = true /\ leb y ymax = true
          /\ leb xmin x = true /\ leb x xmax = true)
    /\ (r <> [] ->
        In ymin (map flush (map fst r)) /\ In xmin (map flush (map snd r))
        /\ In ymax (map flush (map fst r))
        /\ In xmax (map flush (map snd r))).
Proof.
  intros Hr Hn. eexists _, _, _, _, _.
  split; [apply bounding_boxes_rows |].
  split; [cbn [rows]; rewrite nth_error_map, Hr; reflexivity |].
  destruct (Forall_fst_snd Hn) as [Hy Hx].
  destruct (@reduce_min_list_spec D _ Hy) as [Hymin Hyin].
  destruct (@reduce_min_list_spec D _ Hx) as [Hxmin Hxin].
  destruct (@reduce_max_list_spec D _ Hy) as [Hymax Hyax].
  destruct (@reduce_max_list_spec D _ Hx) as [Hxmax Hxax].
  split.
  - intros y x Hin.
    rewrite Forall_forall in Hymin, Hxmin, Hymax, Hxmax.
    assert (In y (map fst r)) by (apply (in_map fst _ _ Hin)).
    assert (In x (map snd r)) by (apply (in_map snd _ _ Hin)).
    auto.
  - intros Hne.
    assert (map fst r <> []) by (destruct r; [contradiction | discriminate]).
    assert (map snd r <> []) by (destruct r; [contradiction | discriminate]).
    auto.
Qed.

(** X19.  The boxes do not set NaN apart: a keypoint with a NaN
    y-coordinate makes [ymin] and [ymax] of its instance NaN, and a NaN
    x-coordinate makes [xmin] and [xmax] NaN, whatever the other
    keypoints. *)
Theorem bounding_boxes_nan K (i : nat) r (y x : D) :
  nth_error (rows K) i = Some r -> In (y, x) r ->
  exists B ymin xmin ymax xmax,
    keypoints_to_enclosing_bounding_boxes K 1 = Ok B
    /\ nth_error (rows B) i = Some [ymin; xmin; ymax; xmax]
    /\ (is_nan y = true -> is_nan ymin = true /\ is_nan ymax = true)
    /\ (is_nan x = true -> is_nan xmin = true /\ is_nan xmax = true).
Proof.
  intros Hr Hin. eexists _, _, _, _, _.
  split; [apply bounding_boxes_rows |].
  split; [cbn [rows]; rewrite nth_error_map, Hr; reflexivity |].
  split; intros E; split;
    (apply fold_minimum_nan || apply fold_maximum_nan); right;
    apply Exists_exists.
  - exists y. split; [apply (in_map fst _ _ Hin) | exact E].
  - exists y. split; [apply (in_map fst _ _ Hin) | exact E].
  - exists x. split; [apply (in_map snd _ _ Hin) | exact E].
  - exists x. split; [apply (in_map snd _ _ Hin) | exact E].
Qed.

(** X20.  There is one box per instance, of four numbers; without
    keypoints the box is [[+inf, +inf, -inf, -inf]], the values of the
    reductions on no element; the axis [-1] is the default axis [1], and
    an axis outside [[-2, 2)] is refused. *)
Theorem bounding_boxes_shape K :
  (exists B,
     keypoints_to_enclosing_bounding_boxes K 1 = Ok B
     /\ keypoints_to_enclosing_bounding_boxes K (-1) = Ok B
     /\ (wf K -> wf B /\ shape B = (dim0 K, 4))
     /\ (forall i, nth_error (rows K) i = Some [] ->
                   nth_error (rows B) i
                   = Some [pos_inf; pos_inf; neg_inf; neg_inf]))
  /\ (forall axis : Z,
        (axis < -2 \/ 2 <= axis)%Z ->
        keypoints_to_enclosing_bounding_boxes K axis
        = Err (InvalidAxis axis)).
Proof.
  split.
  - eexists. split; [apply bounding_boxes_rows |].
    split; [apply bounding_boxes_rows |]. split.
    + intros [H0 H1]. split.
      * split; cbn [rows dim0 dim1]; [now rewrite length_map |].
        apply Forall_map, Forall_forall. reflexivity.
      * unfold shape. cbn [dim0 dim1]. now rewrite H0.
    + intros i Hi. cbn [rows]. now rewrite nth_error_map, Hi.
  - intros axis Ha. unfold keypoints_to_enclosing_bounding_boxes,
      normalize_axis.
    replace ((0 <=? axis)%Z && (axis <? 2)%Z)%bool with false
      by (symmetry; apply andb_false_iff; rewrite Z.leb_gt, Z.ltb_ge; lia).
    replace ((-2 <=? axis)%Z && (axis <? 0)%Z)%bool with false
      by (symmetry; apply andb_false_iff; rewrite Z.leb_gt, Z.ltb_ge; lia).
    reflexivity.
Qed.

End BoundingBoxTheorems.

(** The keypoints [[[0.1, 0.2], [0.4, 0.1], [0.3, 0.5]]] have the box
    [[0.1, 0.1, 0.4, 0.5]]. *)
Definition f32_ratio (n d : Z) : F32.dt :=
  SFdiv F32.prec F32.emax (F32.of_Z n) (F32.of_Z d).

Definition K_box : keypoints f32_num :=
  {| dim0 := 1; dim1 := 3;
     rows := [[(f32_ratio 1 10, f32_ratio 2 10);
               (f32_ratio 4 10, f32_ratio 1 10);
               (f32_ratio 3 10, f32_ratio 5 10)]] |}.

Example bounding_boxes_example :
  keypoints_to_enclosing_bounding_boxes K_box 1
  = Ok {| dim0 := 1; dim1 := 4;
          rows := [[f32_ratio 1 10; f32_ratio 1 10;
                    f32_ratio 4 10; f32_ratio 5 10]] |}.
Proof. vm_compute. reflexivity. Qed.

(** The box of [[[2^-149, -2^-149], [2^-126, 3 * 2^-149]]] is
    [[0, 0, 2^-126, 0]]: the subnormal coordinates count as zeros. *)
Example bounding_boxes_subnormal_example :
  keypoints_to_enclosing_bounding_boxes (K_subnormal : keypoints f32_num) 1
  = Ok {| dim0 := 1; dim1 := 4;
          rows := [[S754_zero false; S754_zero false;
                    S754_finite false 8388608 (-149); S754_zero false]] |}.
Proof. vm_compute. reflexivity. Qed.

Lemma bounding_boxes_enclose_witness :
  exists B ymin xmin ymax xmax,
    keypoints_to_enclosing_bounding_boxes K_box 1 = Ok B
    /\ nth_error (rows B) 0 = Some [ymin; xmin; ymax; xmax]
    /\ (forall y x,
          In (y, x) [(f32_ratio 1 10, f32_ratio 2 10);
                     (f32_ratio 4 10, f32_ratio 1 10);
                     (f32_ratio 3 10, f32_ratio 5 10)] ->
          leb ymin y = true /\ leb y ymax = true
          /\ leb xmin x = true /\ leb x xmax = true)
    /\ ([(f32_ratio 1 10, f32_ratio 2 10);
         (f32_ratio 4 10, f32_ratio 1 10);
         (f32_ratio 3 10, f32_ratio 5 10)] <> [] ->
        In ymin (map flush (map fst [(f32_ratio 1 10, f32_ratio 2 10);
                                     (f32_ratio 4 10, f32_ratio 1 10);
                                     (f32_ratio 3 10, f32_ratio 5 10)]))
        /\ In xmin (map flush (map snd [(f32_ratio 1 10, f32_ratio 2 10);
                                        (f32_ratio 4 10, f32_ratio 1 10);
                                        (f32_ratio 3 10, f32_ratio 5 10)]))
        /\ In ymax (map flush (map fst [(f32_ratio 1 10, f32_ratio 2 10);
                                        (f32_ratio 4 10, f32_ratio 1 10);
                                        (f32_ratio 3 10, f32_ratio 5 10)]))
        /\ In xmax (map flush (map snd [(f32_ratio 1 10, f32_ratio 2 10);
                                        (f32_ratio 4 10, f32_ratio 1 10);
                                        (f32_ratio 3 10, f32_ratio 5 10)]))).
Proof.
  apply (@bounding_boxes_enclose f32_num K_box 0 _ eq_refl).
  repeat constructor.
Defined.

Lemma bounding_boxes_nan_witness :
  exists B ymin xmin ymax xmax,
    keypoints_to_enclosing_bounding_boxes
      ({| dim0 := 1; dim1 := 2;
          rows := [[(f_nan, f_half); (f_1, f_2)]] |} : keypoints f32_num) 1
    = Ok B
    /\ nth_error (rows B) 0 = Some [ymin; xmin; ymax; xmax]
    /\ (is_nan f_nan = true -> is_nan ymin = true /\ is_nan ymax = true)
    /\ (is_nan f_half = true -> is_nan xmin = true /\ is_nan xmax = true).
Proof.
  apply (@bounding_boxes_nan f32_num
           {| dim0 := 1; dim1 := 2;
              rows := [[(f_nan, f_half); (f_1, f_2)]] |}
           0 [(f_nan, f_half); (f_1, f_2)] f_nan f_half eq_refl).
  left. reflexivity.
Defined.

Lemma bounding_boxes_shape_witness :
  keypoints_to_enclosing_bounding_boxes K_box 2 = Err (InvalidAxis 2).
Proof.
  apply (proj2 (@bounding_boxes_shape f32_num K_box) 2%Z).
  right. reflexivity.
Defined.

(** *** [keypoint_weights_from_visibilities] *)

Section Weights.
Variable D : num_dtype.

(** [tf.cast(v, tf.float32)] of a boolean *)
Definition tf_cast_float (v : bool) : D := if v then one else zero.

(** The product of a tensor [w] of shape [1, len(w)] and a tensor [t] of
    shape [dim0, dim1], with broadcasting: the last axes have to be equal
    unless one of them is 1. *)
Definition broadcast_mul (w : list D) (t : tensor D)
  : result (error D) (tensor D) :=
  if Nat.eqb (length w) (dim1 t) then
    Ok {| dim0 := dim0 t; dim1 := dim1 t;
          rows := map (fun r => map (fun av => mul (fst av) (snd av))
                                    (combine w r)) (rows t) |}
  else
    match w with
    | [a] => Ok (tmap (mul a) t)
    | _ =>
        if Nat.eqb (dim1 t) 1 then
          Ok {| dim0 := dim0 t; dim1 := length w;
                rows := map (flat_map (fun v => map (fun a => mul a v) w))
                            (rows t) |}
        else Err (ShapeMismatch (1, length w) (shape t))
    end.

Definition keypoint_weights_from_visibilities
  (keypoint_visibilities : tensor bool)
  (per_keypoint_weights : option (list D))
  : result (error D) (tensor D) :=
  let per_keypoint_weight_mult :=
    match per_keypoint_weights with
    | None =>
        let num_keypoints := dim1 keypoint_visibilities in
        repeat one num_keypoints       (* tf.ones((1, num_keypoints,)) *)
    | Some w => w                      (* tf.expand_dims(w, axis=0) *)
    end in
  broadcast_mul per_keypoint_weight_mult
                (tmap tf_cast_float keypoint_visibilities).

End Weights.

Arguments keypoint_weights_from_visibilities {D}.
Arguments tf_cast_float {D}.

Section WeightFacts.
Variable D : num_dtype.

Lemma map_combine_repeat_one (r : list bool) :
  map (fun av : D * D => mul (fst av) (snd av))
      (combine (repeat one (length r)) (map tf_cast_float r))
  = map tf_cast_float r.
Proof.
  induction r as [| v r IH]; simpl; [reflexivity |].
  rewrite IH. f_equal.
  destruct v; [apply mul_one_one | apply mul_one_zero].
Qed.

Lemma broadcast_mul_ones (V : tensor bool) :
  wf V ->
  @broadcast_mul D (repeat one (dim1 V)) (tmap tf_cast_float V)
  = Ok (tmap tf_cast_float V).
Proof.
  intros [H0 H1]. unfold broadcast_mul.
  cbn [tmap dim0 dim1 rows]. rewrite repeat_length, Nat.eqb_refl.
  f_equal. unfold tmap. f_equal. rewrite map_map.
  apply map_ext_in. intros r Hr.
  rewrite Forall_forall in H1. rewrite <- (H1 r Hr).
  apply map_combine_repeat_one.
Qed.

(** X21.  Without per-keypoint weights the weights are the
    visibilities as numbers: 1.0 where the keypoint is visible and 0.0
    where it is not. *)
Theorem keypoint_weights_default (V : tensor bool) :
  wf V ->
  keypoint_weights_from_visibilities (D := D) V None
  = Ok (tmap tf_cast_float V).
Proof.
  intros HV. unfold keypoint_weights_from_visibilities.
  now apply broadcast_mul_ones.
Qed.

(** X22.  With one weight per keypoint the weight of keypoint [[i, k]] is
    [per_keypoint_weights[k]] times 1.0 or 0.0; a weight vector of another
    length is refused unless it or the keypoint axis has length 1. *)
Theorem keypoint_weights_per_keypoint (V : tensor bool) (w : list D) :
  (length w = dim1 V ->
   exists B,
     keypoint_weights_from_visibilities V (Some w) = Ok B
     /\ shape B = shape V
     /\ forall i k v a,
          tget V i k = Some v -> nth_error w k = Some a ->
          tget B i k = Some (mul a (if v then one else zero)))
  /\ (length w <> dim1 V -> length w <> 1 -> dim1 V <> 1 ->
      keypoint_weights_from_visibilities V (Some w)
      = Err (ShapeMismatch (1, length w) (shape V))).
Proof.
  unfold keypoint_weights_from_visibilities, broadcast_mul.
  cbn [tmap dim0 dim1 rows]. split.
  - intros Hl. rewrite Hl, Nat.eqb_refl. eexists.
    split; [reflexivity |]. split; [reflexivity |].
    intros i k v a Hv Ha. unfold tget in *. cbn [rows].
    rewrite !nth_error_map.
    destruct (nth_error (rows V) i) as [r |]; [| discriminate].
    cbn [option_map]. rewrite nth_error_map, nth_error_combine, Ha.
    now rewrite nth_error_map, Hv.
  - intros H1 H2 H3.
    destruct (Nat.eqb_spec (length w) (dim1 V)) as [E | _];
      [contradiction |].
    destruct (Nat.eqb_spec (dim1 V) 1) as [E | _]; [contradiction |].
    destruct w as [| a [| b w]]; try reflexivity. now elim H2.
Qed.

(** X23.  Weights from the visibilities of the keypoints themselves: a
    keypoint with a NaN coordinate gets the weight 0.0 and every other
    keypoint the weight 1.0. *)
Theorem keypoint_weights_of_keypoints (K : keypoints D) :
  wf K ->
  (M <- set_keypoint_visibilities K None ;;
   keypoint_weights_from_visibilities M None)
  = Ok (tmap (fun p => if has_nan p then zero else one) K).
Proof.
  intros HK. rewrite set_keypoint_visibilities_default, bind_Ok.
  unfold keypoint_weights_from_visibilities.
  rewrite broadcast_mul_ones by (now apply wf_tmap).
  f_equal. rewrite tmap_tmap. apply tmap_ext. intros p.
  unfold tf_cast_float. now destruct (has_nan p).
Qed.

End WeightFacts.

(** The visibilities [[True, False]] with the weights [[2.0, 3.0]] give
    [[2.0, 0.0]]. *)
Example keypoint_weights_example :
  keypoint_weights_from_visibilities (D := f32_num)
    {| dim0 := 1; dim1 := 2; rows := [[true; false]] |} (Some [f_2; f_3])
  = Ok {| dim0 := 1; dim1 := 2; rows := [[f_2; f_0]] |}.
Proof. vm_compute. reflexivity. Qed.

Lemma keypoint_weights_default_witness :
  keypoint_weights_from_visibilities (D := f32_num) all_visible None
  = Ok (tmap tf_cast_float all_visible).
Proof.
  apply (@keypoint_weights_default f32_num all_visible).
  split; [reflexivity | repeat constructor].
Defined.

Lemma keypoint_weights_per_keypoint_witness :
  keypoint_weights_from_visibilities (D := f32_num) all_visible
    (Some [f_1; f_2; f_3])
  = Err (ShapeMismatch (1, length [f_1; f_2; f_3]) (shape all_visible)).
Proof.
  apply (proj2 (@keypoint_weights_per_keypoint f32_num all_visible
                  [f_1; f_2; f_3])); discriminate.
Defined.

Lemma keypoint_weights_of_keypoints_witness :
  (M <- set_keypoint_visibilities (K_nan_first : keypoints f32_num) None ;;
   keypoint_weights_from_visibilities M None)
  = Ok (tmap (fun p => if has_nan p then zero else one)
             (K_nan_first : keypoints f32_num)).
Proof.
  apply (@keypoint_weights_of_keypoints f32_num K_nan_first).
  split; [reflexivity | repeat constructor].
Defined.

(** ** Windows at the edge *)

Section EdgeWindows.
Variable D : dtype.
Implicit Types (K : keypoints D) (W : window D) (p : D * D).

(** X24.  What was clipped is not pruned: in a window whose bounds are in
    order, pruning the clipped keypoints changes nothing, provided no
    coordinate of [K] is NaN. *)
Theorem prune_after_clip_to_window K W :
  leb (win_y_min W) (win_y_max W) = true ->
  leb (win_x_min W) (win_x_max W) = true ->
  forallb (forallb (fun p => negb (has_nan p))) (rows K) = true ->
  prune_outside_window (clip_to_window K W) W = clip_to_window K W.
Proof.
  intros Hy Hx HK.
  rewrite prune_outside_window_cells, clip_to_window_cells, tmap_tmap.
  apply tmap_ext_in with (ok := fun p => negb (has_nan p)); [| exact HK].
  intros [y x] Hn. apply negb_true_iff, orb_false_iff in Hn.
  cbn [fst snd] in Hn. destruct Hn as [Hny Hnx].
  unfold prune_cell, in_window, clip_cell. cbn [fst snd].
  destruct (clip_value_bounds D _ _ _ Hy Hny) as [H1 H2].
  destruct (clip_value_bounds D _ _ _ Hx Hnx) as [H3 H4].
  now rewrite H1, H2, H3, H4.
Qed.

Lemma prune_outside_window_cells_nan K W :
  shape (prune_outside_window K W) = shape K
  /\ (forall i k, tget K i k = None ->
                  tget (prune_outside_window K W) i k = None)
  /\ (forall i k p, tget K i k = Some p ->
        in_window W p = false ->
        exists y' x',
          tget (prune_outside_window K W) i k = Some (y', x')
          /\ is_nan y' = true /\ is_nan x' = true).
Proof.
  rewrite prune_outside_window_cells. split; [reflexivity |]. split.
  - intros i k H. now rewrite tget_tmap, H.
  - intros i k p H E. rewrite tget_tmap, H. simpl. unfold prune_cell.
    rewrite E. eexists _, _. split; [reflexivity |].
    split; apply pruned_value_is_nan.
Qed.

(** X26.  A NaN bound prunes everything: when a bound of the window is
    NaN, every keypoint of [prune_outside_window K W] is [(NaN, NaN)]. *)
Theorem prune_outside_window_nan_bound K W (i k : nat) p :
  (is_nan (win_y_min W) || is_nan (win_x_min W)
   || is_nan (win_y_max W) || is_nan (win_x_max W))%bool = true ->
  tget K i k = Some p ->
  exists y' x',
    tget (prune_outside_window K W) i k = Some (y', x')
    /\ is_nan y' = true /\ is_nan x' = true.
Proof.
  intros HW Hp.
  apply (proj2 (proj2 (prune_outside_window_cells_nan K W)) i k p Hp).
  unfold in_window.
  repeat (apply orb_true_iff in HW; destruct HW as [HW | HW]).
  - now rewrite (leb_nan_l D _ _ HW).
  - now rewrite (leb_nan_l D _ (snd p) HW), !andb_false_r.
  - now rewrite (leb_nan_r D (fst p) _ HW), andb_false_r.
  - now rewrite (leb_nan_r D (snd p) _ HW), !andb_false_r.
Qed.

End EdgeWindows.

Section InvertedWindow.
Variable N : num_dtype.
Implicit Types (K : keypoints N) (W : window N).

Lemma clip_value_inverted (lo hi v : N) :
  ltb hi lo = true -> is_nan v = false -> clip_value lo hi v = flush lo.
Proof.
  intros Hw Hv.
  assert (Hlo : is_nan lo = false).
  { destruct (is_nan lo) eqn:E; [| reflexivity].
    now rewrite (ltb_nan_r N hi lo E) in Hw. }
  assert (Hhi : is_nan hi = false).
  { destruct (is_nan hi) eqn:E; [| reflexivity].
    now rewrite (ltb_nan_l N hi lo E) in Hw. }
  unfold clip_value.
  destruct (@tf_minimum_cases N v hi Hv Hhi) as (Hm & _ & Hmh & _).
  unfold tf_maximum at 1. rewrite Hm, Hlo.
  destruct (ltb (tf_minimum v hi) lo) eqn:E; [reflexivity |].
  pose proof (leb_total N _ _ Hm Hlo E) as H1.
  pose proof (leb_trans N _ _ _ H1 Hmh) as H2.
  apply (leb_not_ltb N) in H2. congruence.
Qed.

(** X25.  An inverted window clamps to its lower bounds: when
    [y_max < y_min] and [x_max < x_min], [clip_to_window] sends every
    keypoint without a NaN coordinate to [(y_min, x_min)], the bounds
    being answered as the kernels read them (a zero for a subnormal
    bound). *)
Theorem clip_to_window_inverted_window K W (i k : nat) (p : N * N) :
  ltb (win_y_max W) (win_y_min W) = true ->
  ltb (win_x_max W) (win_x_min W) = true ->
  tget K i k = Some p -> has_nan p = false ->
  tget (clip_to_window K W) i k
  = Some (flush (win_y_min W), flush (win_x_min W)).
Proof.
  intros Hy Hx Hp Hn. apply orb_false_iff in Hn. destruct Hn as [Hny Hnx].
  rewrite clip_to_window_cells, tget_tmap, Hp. cbn [option_map].
  unfold clip_cell.
  now rewrite (@clip_value_inverted _ _ _ Hy Hny),
    (@clip_value_inverted _ _ _ Hx Hnx).
Qed.

End InvertedWindow.

(** The window [1, 1, 0, 0], whose bounds are the wrong way round. *)
Definition inverted_window : window F32.dt := Window f_1 f_1 f_0 f_0.

(** A window whose first bound is NaN. *)
Definition nan_window : window F32.dt := Window f_nan f_0 f_1 f_1.

(** The keypoint [(2^-149, -2^-149)] clipped to the window [0, 0, 1, 1]
    is [(0, -0)]; the inverted window [1, 1, 0, 0] sends [(5, 1/2)] to
    [(1, 1)]. *)
Example clip_to_window_subnormal_example :
  clip_to_window (one_keypoint f_min f_neg_min) unit_window
  = one_keypoint (S754_zero false) (S754_zero true).
Proof. reflexivity. Qed.

Lemma prune_after_clip_to_window_witness :
  prune_outside_window (clip_to_window (one_keypoint f_5 f_half) unit_window)
                       unit_window
  = clip_to_window (one_keypoint f_5 f_half) unit_window.
Proof.
  apply (@prune_after_clip_to_window F32.dt (one_keypoint f_5 f_half)
           unit_window); reflexivity.
Defined.

Lemma clip_to_window_inverted_window_witness :
  tget (clip_to_window (one_keypoint f_5 f_half) inverted_window) 0 0
  = Some (f_1, f_1).
Proof.
  apply (@clip_to_window_inverted_window f32_num (one_keypoint f_5 f_half)
           inverted_window 0 0 (f_5, f_half)); reflexivity.
Defined.

Lemma prune_outside_window_nan_bound_witness :
  exists y' x',
    tget (prune_outside_window (one_keypoint f_half f_half) nan_window) 0 0
    = Some (y', x')
    /\ is_nan y' = true /\ is_nan x' = true.
Proof.
  apply (@prune_outside_window_nan_bound F32.dt (one_keypoint f_half f_half)
           nan_window 0 0 (f_half, f_half)); reflexivity.
Defined.
